(** * Zigbook playground: compile/run orchestration engine

    A shallow embedding of the two playground workers
    ([src/workers/zig-worker.ts], [src/workers/runner-worker.ts]), of the
    standard-library hydration ([get-stdlib-directory.ts]) and of the part of
    the host page that chains them ([src/components/ZigPlayground.tsx]),
    with the properties the design document states about them. *)

From Stdlib Require Import ZArith NArith Ascii String DecimalString.
From stdpp Require Import base option list gmap fin_maps.

Set Default Proof Using "Type".
Set Warnings "-register-all".

(** ** JavaScript strings

    A JavaScript string is a sequence of UTF-16 code units. *)

Abbreviation JsString := (list N).

(** An ASCII literal as a JavaScript string. *)
Definition js (s : string) : JsString :=
  (λ a, N_of_ascii a) <$> list_ascii_of_string s.

Module Js.

Definition SLASH : N := 47.
Definition BACKSLASH : N := 92.
Definition DOT : N := 46.
Definition QUOTE : N := 34.

(** [WhiteSpace] and [LineTerminator] of ECMA-262, the code units that
    [String.prototype.trim] removes and that [\s] matches. *)
Definition isWhiteSpace (c : N) : bool :=
  ((9 <=? c) && (c <=? 13)
   || (c =? 32) || (c =? 160) || (c =? 5760)
   || (8192 <=? c) && (c <=? 8202)
   || (c =? 8232) || (c =? 8233) || (c =? 8239) || (c =? 8287)
   || (c =? 12288) || (c =? 65279))%N.

Fixpoint dropWhile (p : N → bool) (s : JsString) : JsString :=
  match s with
  | [] => []
  | c :: s' => if p c then dropWhile p s' else s
  end.

Definition trimStart (s : JsString) : JsString := dropWhile isWhiteSpace s.
Definition trimEnd (s : JsString) : JsString :=
  reverse (dropWhile isWhiteSpace (reverse s)).
(** [s.trim()] *)
Definition trim (s : JsString) : JsString := trimEnd (trimStart s).

(** [s.replace(/\\/g, '/')] *)
Definition backslashesToSlashes (s : JsString) : JsString :=
  (λ c, if (c =? BACKSLASH)%N then SLASH else c) <$> s.

(** [s.startsWith(p)] *)
Fixpoint startsWith (p s : JsString) : bool :=
  match p, s with
  | [], _ => true
  | _ :: _, [] => false
  | a :: p', b :: s' => (a =? b)%N && startsWith p' s'
  end.

(** [s.slice(n)] for [0 <= n]. *)
Definition slice (n : nat) (s : JsString) : JsString := drop n s.

(** [s.replace(/^\/+/, '')] *)
Definition stripLeadingSlashes (s : JsString) : JsString :=
  dropWhile (λ c, (c =? SLASH)%N) s.

(** [s.split(sep)] for a one-unit separator; the result is never empty. *)
Fixpoint split (sep : N) (s : JsString) : list JsString :=
  match s with
  | [] => [[]]
  | c :: s' =>
      if (c =? sep)%N then [] :: split sep s'
      else match split sep s' with
           | [] => [[c]]
           | h :: t => (c :: h) :: t
           end
  end.

(** [l.join(sep)] for a one-unit separator. *)
Fixpoint join (sep : N) (l : list JsString) : JsString :=
  match l with
  | [] => []
  | [x] => x
  | x :: rest => x ++ sep :: join sep rest
  end.

(** [s.includes(p)] *)
Fixpoint includes (p s : JsString) : bool :=
  startsWith p s ||
  match s with
  | [] => false
  | _ :: s' => includes p s'
  end.

End Js.

(** ** Path normalisation (both workers) *)

Definition DEFAULT_ENTRY_FILENAME : JsString := js "main.zig".
Definition LEGACY_APP_PREFIX : JsString := js "/app".
Definition EMIT_WASM_PATH : JsString := js "main.wasm".

(** The [segments] of [normalizeEntryPath]: the path trimmed, backslashes
    turned into slashes, the legacy prefix and leading slashes removed, split
    at slashes, each piece trimmed, and the empty, [.] and [..] pieces
    dropped. *)
Definition entrySegments (path : option JsString) : list JsString :=
  let trimmed := Js.backslashesToSlashes (Js.trim (default [] path)) in
  let withoutLegacyPrefix :=
    if Js.startsWith (LEGACY_APP_PREFIX ++ [Js.SLASH]) trimmed
    then Js.slice (length LEGACY_APP_PREFIX + 1) trimmed
    else if Js.startsWith LEGACY_APP_PREFIX trimmed
         then Js.slice (length LEGACY_APP_PREFIX) trimmed
         else trimmed in
  let cleaned := Js.stripLeadingSlashes withoutLegacyPrefix in
  filter (λ segment, 0 < length segment ∧ segment ≠ js "." ∧ segment ≠ js "..")
         (Js.trim <$> Js.split Js.SLASH cleaned).

(** [normalizeEntryPath(path: string | undefined)], identical in
    zig-worker.ts and runner-worker.ts. *)
Definition normalizeEntryPath (path : option JsString) : JsString :=
  let normalized := Js.join Js.SLASH (entrySegments path) in
  if bool_decide (0 < length normalized) then normalized
  else DEFAULT_ENTRY_FILENAME.

(** [toSegments(path)] *)
Definition toSegments (path : JsString) : list JsString :=
  filter (λ segment, 0 < length segment ∧ segment ≠ js ".")
         (Js.trim <$> Js.split Js.SLASH path).

(** ** UTF-8 encoding ([TextEncoder.prototype.encode])

    The encoder reads the string as UTF-16: a surrogate pair is one code
    point, a lone surrogate becomes U+FFFD. *)

Abbreviation Bytes := (list N).

Module Utf8.

Definition isHighSurrogate (c : N) : bool := ((55296 <=? c) && (c <=? 56319))%N.
Definition isLowSurrogate (c : N) : bool := ((56320 <=? c) && (c <=? 57343))%N.

Definition encodeCodePoint (cp : N) : Bytes :=
  (if cp <? 128 then [cp]
   else if cp <? 2048 then
     [N.lor 192 (N.shiftr cp 6); N.lor 128 (N.land cp 63)]
   else if cp <? 65536 then
     [N.lor 224 (N.shiftr cp 12);
      N.lor 128 (N.land (N.shiftr cp 6) 63);
      N.lor 128 (N.land cp 63)]
   else
     [N.lor 240 (N.shiftr cp 18);
      N.lor 128 (N.land (N.shiftr cp 12) 63);
      N.lor 128 (N.land (N.shiftr cp 6) 63);
      N.lor 128 (N.land cp 63)])%N.

Definition REPLACEMENT : N := 65533.

Fixpoint encode (s : JsString) : Bytes :=
  match s with
  | [] => []
  | c :: rest =>
      if isHighSurrogate c then
        match rest with
        | d :: rest' =>
            if isLowSurrogate d
            then encodeCodePoint (65536 + (c - 55296) * 1024 + (d - 56320))%N
                   ++ encode rest'
            else encodeCodePoint REPLACEMENT ++ encode rest
        | [] => encodeCodePoint REPLACEMENT
        end
      else if isLowSurrogate c then encodeCodePoint REPLACEMENT ++ encode rest
      else encodeCodePoint c ++ encode rest
  end.

End Utf8.

(** ** The virtual directory tree (browser_wasi_shim's [Directory] / [File])

    A [Directory] owns a [Map] from names to inodes; a [File] owns a byte
    buffer and a read-only flag. Every [Directory] of the workers is made
    by [new Directory(new Map())] and reachable from one parent only, so the
    tree is modelled as a value and a mutation as the tree after it. *)

Inductive Inode :=
| File (data : Bytes) (readonly : bool)
| Directory (contents : gmap JsString Inode).

Abbreviation Contents := (gmap JsString Inode).

(** [PlaygroundFilePayload] of worker-types.ts; [readOnly] is optional. *)
Record PlaygroundFilePayload := {
  path : JsString;
  contents : JsString;
  readOnly : option bool;
}.

(** [ensureDirectory(root, segments)] walks [segments] from [current],
    descending into an existing subdirectory, replacing an existing file by
    a new directory, or creating a new directory. The source returns the
    innermost directory, which its caller then mutates; [andThen] is that
    mutation, so the result is the map of [current] after both. *)
Fixpoint ensureDirectory (segments : list JsString) (andThen : Contents → Contents)
    (current : Contents) : Contents :=
  match segments with
  | [] => andThen current
  | segment :: rest =>
      match current !! segment with
      | Some (Directory existing) =>
          <[segment := Directory (ensureDirectory rest andThen existing)]> current
      | Some (File _ _) =>
          <[segment := Directory (ensureDirectory rest andThen ∅)]>
            (delete segment current)
      | None =>
          <[segment := Directory (ensureDirectory rest andThen ∅)]> current
      end
  end.

(** [segments.pop()]: the last element and the array without it. *)
Fixpoint pop {A} (l : list A) : option (A * list A) :=
  match l with
  | [] => None
  | x :: l' =>
      match pop l' with
      | None => Some (x, [])
      | Some (y, init) => Some (y, x :: init)
      end
  end.

(** [writeFile(root, relativePath, contents, readOnly)] *)
Definition writeFile (root : Contents) (relativePath contents : JsString)
    (readOnly : bool) : Contents :=
  match pop (toSegments relativePath) with
  | None => root
  | Some (filename, segments) =>
      ensureDirectory segments
        (λ parent, <[filename := File (Utf8.encode contents) readOnly]> parent)
        root
  end.

(** One turn of the loop of [hydrateAppDirectory]. [file.path || ''] and
    [file.contents ?? ''] are the fields themselves on a payload of the
    declared type; [Boolean(file.readOnly)] is false for an absent flag. *)
Definition hydrateStep (directory : Contents) (file : PlaygroundFilePayload)
    : Contents :=
  let relativePath := normalizeEntryPath (Some (path file)) in
  if bool_decide (relativePath = []) then directory
  else writeFile directory relativePath (contents file)
         (default false (readOnly file)).

(** [hydrateAppDirectory(files)], identical in both workers. *)
Definition hydrateAppDirectory (files : list PlaygroundFilePayload) : Contents :=
  foldl hydrateStep ∅ files.

(** The loop of [getFileAtPath] over the remaining segments. *)
Fixpoint getFileAtSegments (segments : list JsString) (current : Contents)
    : option Inode :=
  match segments with
  | [] => None
  | segment :: rest =>
      match current !! segment with
      | None => None
      | Some entry =>
          match rest with
          | [] => match entry with File _ _ => Some entry | Directory _ => None end
          | _ :: _ =>
              match entry with
              | Directory sub => getFileAtSegments rest sub
              | File _ _ => None
              end
          end
      end
  end.

(** [getFileAtPath(root, relativePath)] *)
Definition getFileAtPath (root : Contents) (relativePath : JsString) : option Inode :=
  getFileAtSegments (toSegments relativePath) root.

(** [extractWasmArtifact(appDirectory)]: a copy of the bytes, or null. *)
Definition extractWasmArtifact (appDirectory : Contents) : option Bytes :=
  match getFileAtPath appDirectory EMIT_WASM_PATH with
  | Some (File data _) => Some data
  | _ => None
  end.

(** ** Values that cross the worker boundary

    [event.data] is [unknown] to a worker: a structured clone of whatever the
    page posted. Numbers only occur where the workers test [typeof], so an
    integer stands for any number. *)

Inductive JsValue :=
| JsUndefined
| JsNull
| JsBoolean (b : bool)
| JsNumber (n : Z)
| JsStr (s : JsString)
| JsArray (items : list JsValue)
| JsObject (props : list (JsString * JsValue))
| JsArrayBuffer (bytes : Bytes).

Module JsVal.

(** [!input] is false for these and true otherwise. *)
Definition truthy (v : JsValue) : bool :=
  match v with
  | JsUndefined | JsNull => false
  | JsBoolean b => b
  | JsNumber n => negb (n =? 0)%Z
  | JsStr s => bool_decide (s ≠ [])
  | JsArray _ | JsObject _ | JsArrayBuffer _ => true
  end.

(** [typeof v === 'object'] *)
Definition typeofObject (v : JsValue) : bool :=
  match v with
  | JsNull | JsArray _ | JsObject _ | JsArrayBuffer _ => true
  | _ => false
  end.

Fixpoint lookupProp (name : JsString) (props : list (JsString * JsValue)) : JsValue :=
  match props with
  | [] => JsUndefined
  | (k, v) :: rest => if bool_decide (k = name) then v else lookupProp name rest
  end.

(** [v.name] for the own data properties of a cloned plain object; the
    names the workers read are not properties of arrays or buffers. *)
Definition get (name : string) (v : JsValue) : JsValue :=
  match v with
  | JsObject props => lookupProp (js name) props
  | _ => JsUndefined
  end.

Definition isArray (v : JsValue) : bool :=
  match v with JsArray _ => true | _ => false end.
Definition isString (v : JsValue) : bool :=
  match v with JsStr _ => true | _ => false end.
Definition isArrayBuffer (v : JsValue) : bool :=
  match v with JsArrayBuffer _ => true | _ => false end.
(** [v === 'literal'] *)
Definition isLiteral (lit : string) (v : JsValue) : bool :=
  match v with JsStr s => bool_decide (s = js lit) | _ => false end.

(** Typed views of a value, as the TypeScript declarations read it. They
    are exact on the values of the declared types, which are the values
    [ofFile] and the two [toMessage] below produce. A payload can pass a
    worker's guard without being of the declared type (an element of
    [files] that is null, a [path] that is a number, a [files] of a run
    request that is not an array); the worker then throws a [TypeError]
    inside the [try] of its pipeline or converts the value, and that is
    not modelled: the view reads such a field as absent. The queue
    variables do not depend on it. *)
Definition asString (v : JsValue) : JsString :=
  match v with JsStr s => s | _ => [] end.
Definition asFile (v : JsValue) : PlaygroundFilePayload :=
  {| path := asString (get "path" v);
     contents := asString (get "contents" v);
     readOnly := match get "readOnly" v with
                 | JsBoolean b => Some b
                 | _ => None
                 end |}.
Definition asFiles (v : JsValue) : option (list PlaygroundFilePayload) :=
  match v with JsArray items => Some (asFile <$> items) | _ => None end.
Definition asStrings (v : JsValue) : option (list JsString) :=
  match v with
  | JsArray items =>
      Some (omap (λ i, match i with JsStr s => Some s | _ => None end) items)
  | _ => None
  end.

Definition ofFile (f : PlaygroundFilePayload) : JsValue :=
  JsObject ([(js "path", JsStr (path f)); (js "contents", JsStr (contents f))]
            ++ match readOnly f with
               | Some b => [(js "readOnly", JsBoolean b)]
               | None => []
               end).

End JsVal.

(** *** Requests and responses (worker-types.ts) *)

Inductive Optimize := Debug | ReleaseFast | ReleaseSafe | ReleaseSmall.

Record ZigCompileRequest := {
  entryPath : JsString;
  files : list PlaygroundFilePayload;
  optimize : option Optimize;
}.

Inductive ZigWorkerResponse :=
| ZigCompileSuccess (wasm : Bytes) (stdout stderr : JsString) (durationMs : Z)
| ZigCompileFailure (stdout stderr : JsString) (durationMs : Z) (message : JsString)
| ZigFatalError (message : JsString).

Record RunnerRequest := {
  wasm : Bytes;
  args : option (list JsString);
  runFiles : option (list PlaygroundFilePayload);
}.

Inductive RunnerResponse :=
| RunnerSuccess (stdout stderr : JsString) (exitCode : Z) (durationMs : Z)
| RunnerFailure (message : JsString) (stderr : option JsString) (durationMs : option Z).

(** *** Thrown values and abrupt completion *)

Inductive Thrown :=
| ThrownError (name message stack : JsString)   (* [instanceof Error] *)
| ThrownValue (asString : JsString).            (* anything else, with [String(v)] *)

Inductive Completion (A : Type) :=
| Normal (a : A)
| Throw (e : Thrown).
Arguments Normal {A} a.
Arguments Throw {A} e.

(** The classification written out four times in zig-worker.ts and twice in
    runner-worker.ts. *)
Definition isStackOverflow (error : Thrown) : bool :=
  match error with
  | ThrownError name message _ =>
      Js.includes (js "recursion") message
      || Js.includes (js "call stack") message
      || bool_decide (name = js "RangeError")
      || bool_decide (name = js "InternalError")
  | ThrownValue _ => false
  end.

(** [error instanceof Error ? `${error.message}\n${error.stack}` : String(error)] *)
Definition describeThrown (error : Thrown) : JsString :=
  match error with
  | ThrownError _ message stack => message ++ [10%N] ++ stack
  | ThrownValue str => str
  end.

(** [`${n}`] for an integer. *)
Definition numberToString (n : Z) : JsString :=
  js (NilZero.string_of_int (Z.to_int n)).

(** ** The compile worker (zig-worker.ts) *)

Module ZigWorker.

Definition MAX_COMPILATIONS_BEFORE_REFRESH : nat := 50.

Definition NL : JsString := [10%N].

(** The diagnostic of the [error] listener. *)
Definition GLOBAL_OVERFLOW_MESSAGE : JsString :=
  [9888%N]
  ++ [65039%N]
  ++ js " WASM Compiler Stack Overflow"
  ++ NL
  ++ NL
  ++ js "The Zig compiler running in your browser hit a stack limit during semantic analysis."
  ++ NL
  ++ NL
  ++ js "**This is a known limitation of the browser playground.**"
  ++ NL
  ++ NL
  ++ js "Possible causes:"
  ++ NL
  ++ [8226%N]
  ++ js " Standard library code triggering deep analysis (not your fault!)"
  ++ NL
  ++ [8226%N]
  ++ js " Complex comptime recursion or generic types"
  ++ NL
  ++ [8226%N]
  ++ js " Circular type dependencies"
  ++ NL
  ++ NL
  ++ js "Technical: The WASM Zig compiler binary has a fixed stack size that cannot be increased at runtime.".

(** The diagnostic of the [unhandledrejection] listener. *)
Definition ASYNC_OVERFLOW_MESSAGE : JsString :=
  js "Compiler encountered a recursion error during async operation".

(** The diagnostic of the [catch] of [handleCompile]. *)
Definition CAUGHT_OVERFLOW_MESSAGE : JsString :=
  js "Compiler stack overflow. This usually means:"
  ++ NL
  ++ js "1. Your code has deep comptime recursion or circular type dependencies"
  ++ NL
  ++ js "2. Try simplifying generic types or reducing comptime complexity"
  ++ NL
  ++ js "3. If this persists, try refreshing the page to reset the compiler".

(** A compiled [WebAssembly.Module], by identity. *)
Abbreviation WasmModule := N.

(** What one [wasi.start(zigInstance)] does: the text the guest wrote to
    the two sinks, the workspace tree it leaves, and the exit code it
    returns or the error it throws. *)
Record StartResult := {
  stdoutText : JsString;
  stderrText : JsString;
  appAfter : Contents;
  exit : Completion Z;
}.

(** The collaborators of one compilation, outside this repository or
    outside the worker: the standard-library loader, the fetch and
    compilation of zig.wasm, WebAssembly instantiation, the guest run
    under given arguments and preopens (workspace, stdlib, cache), the
    clock, and [ctx.postMessage] failing on the response. *)
Record Runtime := {
  getZigStdlibDirectory : Completion Contents;
  fetchAndCompileZig : Completion WasmModule;
  instantiate : WasmModule → Completion unit;
  start : list JsString → Contents → Contents → Contents → StartResult;
  elapsedSince : Z;
  postMessageThrows : option Thrown;
}.

(** The module-level variables of the worker, the messages it has posted,
    and two observers that are not program variables: the activations of
    [handleCompile] that have begun and not yet finished ([inFlight]) and
    every request [handleCompile] was ever called with ([executed]). *)
Record State := {
  zigModulePromise : option WasmModule;
  isCompiling : bool;
  compilationQueue : list ZigCompileRequest;
  compilationCount : nat;
  outbox : list ZigWorkerResponse;
  inFlight : list ZigCompileRequest;
  executed : list ZigCompileRequest;
}.

Definition initial : State :=
  {| zigModulePromise := None; isCompiling := false; compilationQueue := [];
     compilationCount := 0; outbox := []; inFlight := []; executed := [] |}.

Definition setModule (m : option WasmModule) (st : State) : State :=
  {| zigModulePromise := m; isCompiling := isCompiling st;
     compilationQueue := compilationQueue st;
     compilationCount := compilationCount st; outbox := outbox st;
     inFlight := inFlight st; executed := executed st |}.
Definition setCompiling (b : bool) (st : State) : State :=
  {| zigModulePromise := zigModulePromise st; isCompiling := b;
     compilationQueue := compilationQueue st;
     compilationCount := compilationCount st; outbox := outbox st;
     inFlight := inFlight st; executed := executed st |}.
Definition setQueue (q : list ZigCompileRequest) (st : State) : State :=
  {| zigModulePromise := zigModulePromise st; isCompiling := isCompiling st;
     compilationQueue := q;
     compilationCount := compilationCount st; outbox := outbox st;
     inFlight := inFlight st; executed := executed st |}.
Definition setCount (n : nat) (st : State) : State :=
  {| zigModulePromise := zigModulePromise st; isCompiling := isCompiling st;
     compilationQueue := compilationQueue st;
     compilationCount := n; outbox := outbox st;
     inFlight := inFlight st; executed := executed st |}.
(** [ctx.postMessage(response)] *)
Definition postMessage (response : ZigWorkerResponse) (st : State) : State :=
  {| zigModulePromise := zigModulePromise st; isCompiling := isCompiling st;
     compilationQueue := compilationQueue st;
     compilationCount := compilationCount st;
     outbox := outbox st ++ [response];
     inFlight := inFlight st; executed := executed st |}.
Definition enter (request : ZigCompileRequest) (st : State) : State :=
  {| zigModulePromise := zigModulePromise st; isCompiling := isCompiling st;
     compilationQueue := compilationQueue st;
     compilationCount := compilationCount st; outbox := outbox st;
     inFlight := request :: inFlight st;
     executed := executed st ++ [request] |}.
Definition leave (st : State) : State :=
  {| zigModulePromise := zigModulePromise st; isCompiling := isCompiling st;
     compilationQueue := compilationQueue st;
     compilationCount := compilationCount st; outbox := outbox st;
     inFlight := tail (inFlight st); executed := executed st |}.
Definition setInFlight (activations : list ZigCompileRequest) (st : State) : State :=
  {| zigModulePromise := zigModulePromise st; isCompiling := isCompiling st;
     compilationQueue := compilationQueue st;
     compilationCount := compilationCount st; outbox := outbox st;
     inFlight := activations; executed := executed st |}.

(** [isCompileRequest(input)] *)
Definition isCompileRequest (input : JsValue) : bool :=
  if negb (JsVal.truthy input) || negb (JsVal.typeofObject input) then false
  else JsVal.isLiteral "compile" (JsVal.get "type" input)
       && JsVal.isArray (JsVal.get "files" input)
       && JsVal.isString (JsVal.get "entryPath" input).

(** The request a payload is once the guard has narrowed its type. *)
Definition asCompileRequest (payload : JsValue) : ZigCompileRequest :=
  {| entryPath := JsVal.asString (JsVal.get "entryPath" payload);
     files := default [] (JsVal.asFiles (JsVal.get "files" payload));
     optimize :=
       match JsVal.get "optimize" payload with
       | JsStr s =>
           if bool_decide (s = js "Debug") then Some Debug
           else if bool_decide (s = js "ReleaseFast") then Some ReleaseFast
           else if bool_decide (s = js "ReleaseSafe") then Some ReleaseSafe
           else if bool_decide (s = js "ReleaseSmall") then Some ReleaseSmall
           else None
       | _ => None
       end |}.

Definition optimizeName (o : Optimize) : JsString :=
  match o with
  | Debug => js "Debug"
  | ReleaseFast => js "ReleaseFast"
  | ReleaseSafe => js "ReleaseSafe"
  | ReleaseSmall => js "ReleaseSmall"
  end.

(** The object the page posts for a request (ZigPlayground.tsx, [handleRun]). *)
Definition toMessage (request : ZigCompileRequest) : JsValue :=
  JsObject ([(js "type", JsStr (js "compile"));
             (js "entryPath", JsStr (entryPath request));
             (js "files", JsArray (JsVal.ofFile <$> files request))]
            ++ match optimize request with
               | Some o => [(js "optimize", JsStr (optimizeName o))]
               | None => []
               end).

(** [createCompileErrorResponse] has the constructor's argument order
    changed only: message first. *)
Definition createCompileErrorResponse (message stdout stderr : JsString)
    (durationMs : Z) : ZigWorkerResponse :=
  ZigCompileFailure stdout stderr durationMs message.

(** [postCompileError(message)] *)
Definition postCompileError (message : JsString) (st : State) : State :=
  postMessage (createCompileErrorResponse message [] [] 0) st.

(** [buildZigArgs(entryPath, optimize)] *)
Definition buildZigArgs (entryPath : JsString) (optimize : option Optimize)
    : list JsString :=
  [js "zig.wasm"; js "build-exe"; entryPath;
   js "-fno-llvm"; js "-fno-lld"; js "-fno-ubsan-rt"; js "-fno-entry"].

(** [loadZigModule()]: the cached module, or a compilation that is cached
    when it succeeds and leaves the cache empty when it fails. *)
Definition loadZigModule (rt : Runtime) (cache : option WasmModule)
    : Completion WasmModule * option WasmModule :=
  match cache with
  | Some m => (Normal m, cache)
  | None =>
      match fetchAndCompileZig rt with
      | Normal m => (Normal m, Some m)
      | Throw e => (Throw e, None)
      end
  end.

(** [runCompilation(request)], with the module cache it reads and leaves.
    Everything between the two [performance.now()] readings is inside one
    [try]; whatever is thrown there becomes a compile-error response that
    carries the text captured so far. *)
Definition runCompilation (rt : Runtime) (cache : option WasmModule)
    (request : ZigCompileRequest) : ZigWorkerResponse * option WasmModule :=
  let entryPath := normalizeEntryPath (Some (entryPath request)) in
  let appDirectory := hydrateAppDirectory (files request) in
  let cacheDirectory : Contents := ∅ in
  let durationMs := elapsedSince rt in
  match getZigStdlibDirectory rt with
  | Throw error =>
      (createCompileErrorResponse (describeThrown error) [] [] durationMs, cache)
  | Normal stdlibDirectory =>
      let args := buildZigArgs entryPath (optimize request) in
      match loadZigModule rt cache with
      | (Throw error, cache') =>
          (createCompileErrorResponse (describeThrown error) [] [] durationMs,
           cache')
      | (Normal wasmModule, cache') =>
          match instantiate rt wasmModule with
          | Throw error =>
              (createCompileErrorResponse (describeThrown error) [] []
                 durationMs, cache')
          | Normal _ =>
              let ran := start rt args appDirectory stdlibDirectory cacheDirectory in
              let stdoutText := stdoutText ran in
              let stderrText := stderrText ran in
              match exit ran with
              | Throw error =>
                  (createCompileErrorResponse (describeThrown error)
                     stdoutText stderrText durationMs, cache')
              | Normal exitCode =>
                  if bool_decide (exitCode ≠ 0%Z) then
                    (createCompileErrorResponse
                       (js "Zig exited with code " ++ numberToString exitCode)
                       stdoutText stderrText durationMs, cache')
                  else
                    match extractWasmArtifact (appAfter ran) with
                    | None =>
                        (createCompileErrorResponse
                           (js "Compiled artifact missing at main.wasm")
                           stdoutText stderrText durationMs, cache')
                    | Some wasmBuffer =>
                        (ZigCompileSuccess wasmBuffer stdoutText stderrText
                           durationMs, cache')
                    end
              end
          end
      end
  end.

(** [handleCompile(request)] up to its first suspension: the flag, the
    counter and the periodic refresh of the module. *)
Definition beginCompile (request : ZigCompileRequest) (st : State) : State :=
  let st := enter request (setCompiling true st) in
  let st := setCount (S (compilationCount st)) st in
  if bool_decide (MAX_COMPILATIONS_BEFORE_REFRESH ≤ compilationCount st)
  then setCount 0 (setModule None st)
  else st.

(** The [catch] of [handleCompile]. *)
Definition catchCompile (error : Thrown) (st : State) : State :=
  let message :=
    match error with
    | ThrownError _ message _ => message
    | ThrownValue _ => js "Unknown compile failure"
    end in
  if isStackOverflow error then
    let st := setCount 0 (setModule None st) in
    let st := postMessage (ZigFatalError (js "stack-overflow")) st in
    postCompileError CAUGHT_OVERFLOW_MESSAGE st
  else postCompileError message st.

(** The rest of [handleCompile] once the runtime [rt] has answered: the
    response is posted, or the [catch] runs when posting throws, and
    [finally] lowers the flag. *)
Definition finishCompile (rt : Runtime) (request : ZigCompileRequest)
    (st : State) : State :=
  let '(response, cache') := runCompilation rt (zigModulePromise st) request in
  let st := setModule cache' st in
  let st :=
    match postMessageThrows rt with
    | None => postMessage response st
    | Some error => catchCompile error st
    end in
  leave (setCompiling false st).

(** [processQueue()] up to the suspension of [await handleCompile(request)]. *)
Definition processQueue (st : State) : State :=
  if isCompiling st then st
  else
    match pop (compilationQueue st) with
    | None => st
    | Some (request, _) => beginCompile request (setQueue [] st)
    end.

(** The rest of [processQueue()] after the [await]. *)
Definition resumeQueue (st : State) : State :=
  if bool_decide (0 < length (compilationQueue st)) then processQueue st
  else st.

(** The [message] listener. *)
Definition onMessage (payload : JsValue) (st : State) : State :=
  if negb (isCompileRequest payload) then
    postCompileError
      (js "Invalid message for zig-worker (expected compile request)") st
  else
    processQueue
      (setQueue (compilationQueue st ++ [asCompileRequest payload]) st).

(** The [error] listener; [error] is [event.error]. *)
Definition onError (error : Thrown) (st : State) : State :=
  if isStackOverflow error then
    let st := postCompileError GLOBAL_OVERFLOW_MESSAGE st in
    let st := setCompiling false (setCount 0 (setModule None st)) in
    postMessage (ZigFatalError (js "stack-overflow")) st
  else st.

(** The [unhandledrejection] listener; [error] is [event.reason]. *)
Definition onUnhandledRejection (error : Thrown) (st : State) : State :=
  if isStackOverflow error then
    let st := postCompileError ASYNC_OVERFLOW_MESSAGE st in
    let st := setCompiling false (setCount 0 (setModule None st)) in
    postMessage (ZigFatalError (js "stack-overflow")) st
  else st.

(** The [messageerror] listener. *)
Definition onMessageError (st : State) : State :=
  postCompileError
    (js "zig-worker failed to deserialize the incoming message payload") st.

(** The events of the worker, one for each of its four listeners and for
    the completion of an activation of [handleCompile]: a message arrives;
    the activation begun last settles against a runtime; a message fails to
    deserialize; an uncaught error reaches the [error] listener; a rejection
    reaches the [unhandledrejection] listener; and, once a fault has lowered
    the flag under an activation and a second one has begun, an activation
    begun earlier settles, the one [n + 1] places before the last. *)
Inductive Event :=
| Message (payload : JsValue)
| Settled (rt : Runtime)
| MessageError
| ErrorEvent (error : Thrown)
| RejectionEvent (reason : Thrown)
| SettledEarlier (n : nat) (rt : Runtime).

Definition step (st : State) (ev : Event) : State :=
  match ev with
  | Message payload => onMessage payload st
  | Settled rt =>
      match inFlight st with
      | [] => st
      | request :: _ => resumeQueue (finishCompile rt request st)
      end
  | MessageError => onMessageError st
  | ErrorEvent error => onError error st
  | RejectionEvent reason => onUnhandledRejection reason st
  | SettledEarlier n rt =>
      match inFlight st with
      | [] => st
      | latest :: earlier =>
          match earlier !! n with
          | None => st
          | Some request =>
              resumeQueue
                (finishCompile rt request
                   (setInFlight (request :: latest :: delete n earlier) st))
          end
      end
  end.

Definition run (trace : list Event) (st : State) : State := foldl step st trace.

(** The number of messages of a trace that pass [isCompileRequest]. *)
Fixpoint arrivals (trace : list Event) : nat :=
  match trace with
  | [] => 0
  | Message payload :: trace' =>
      (if isCompileRequest payload then 1 else 0) + arrivals trace'
  | _ :: trace' => arrivals trace'
  end.

(** The events on which a fault listener acts: an error or a rejection
    that is classified as a stack exhaustion. *)
Definition isFault (ev : Event) : bool :=
  match ev with
  | ErrorEvent error | RejectionEvent error => isStackOverflow error
  | _ => false
  end.

(** No fault of the trace finds the worker compiling: whenever a fault
    listener lowers [isCompiling], the flag is down already. *)
Fixpoint undisturbed (trace : list Event) (st : State) : bool :=
  match trace with
  | [] => true
  | ev :: trace' =>
      negb (isFault ev && isCompiling st) && undisturbed trace' (step st ev)
  end.

End ZigWorker.

(** ** The run worker (runner-worker.ts) *)

Module RunnerWorker.

Abbreviation WasmModule := N.

(** What one [wasi.start(instance)] does. *)
Record StartResult := {
  stdoutText : JsString;
  stderrText : JsString;
  exit : Completion Z;
}.

(** The collaborators of one run: [WebAssembly.compile] of the artifact,
    instantiation, the guest run under given arguments and workspace, the
    clock, and [ctx.postMessage] failing on the response. *)
Record Runtime := {
  compile : Bytes → Completion WasmModule;
  instantiate : WasmModule → Completion unit;
  start : list JsString → Contents → StartResult;
  elapsedSince : Z;
  postMessageThrows : option Thrown;
}.

(** The module-level variables, the messages posted, and the two observers
    described for the compile worker. *)
Record State := {
  isRunning : bool;
  runQueue : list RunnerRequest;
  outbox : list RunnerResponse;
  inFlight : list RunnerRequest;
  executed : list RunnerRequest;
}.

Definition initial : State :=
  {| isRunning := false; runQueue := []; outbox := []; inFlight := [];
     executed := [] |}.

Definition setRunning (b : bool) (st : State) : State :=
  {| isRunning := b; runQueue := runQueue st; outbox := outbox st;
     inFlight := inFlight st; executed := executed st |}.
Definition setQueue (q : list RunnerRequest) (st : State) : State :=
  {| isRunning := isRunning st; runQueue := q; outbox := outbox st;
     inFlight := inFlight st; executed := executed st |}.
(** [ctx.postMessage(response)] *)
Definition postMessage (response : RunnerResponse) (st : State) : State :=
  {| isRunning := isRunning st; runQueue := runQueue st;
     outbox := outbox st ++ [response];
     inFlight := inFlight st; executed := executed st |}.
Definition enter (request : RunnerRequest) (st : State) : State :=
  {| isRunning := isRunning st; runQueue := runQueue st; outbox := outbox st;
     inFlight := request :: inFlight st;
     executed := executed st ++ [request] |}.
Definition leave (st : State) : State :=
  {| isRunning := isRunning st; runQueue := runQueue st; outbox := outbox st;
     inFlight := tail (inFlight st); executed := executed st |}.

(** [isRunnerRequest(input)] *)
Definition isRunnerRequest (input : JsValue) : bool :=
  if negb (JsVal.truthy input) || negb (JsVal.typeofObject input) then false
  else JsVal.isLiteral "run" (JsVal.get "type" input)
       && JsVal.isArrayBuffer (JsVal.get "wasm" input).

(** The request a payload is once the guard has narrowed its type. *)
Definition asRunnerRequest (payload : JsValue) : RunnerRequest :=
  {| wasm := match JsVal.get "wasm" payload with
             | JsArrayBuffer bytes => bytes
             | _ => []
             end;
     args := JsVal.asStrings (JsVal.get "args" payload);
     runFiles := JsVal.asFiles (JsVal.get "files" payload) |}.

(** The object the page posts for a request. *)
Definition toMessage (request : RunnerRequest) : JsValue :=
  JsObject ([(js "type", JsStr (js "run"));
             (js "wasm", JsArrayBuffer (wasm request))]
            ++ match args request with
               | Some l => [(js "args", JsArray (JsStr <$> l))]
               | None => []
               end
            ++ match runFiles request with
               | Some l => [(js "files", JsArray (JsVal.ofFile <$> l))]
               | None => []
               end).

(** [postRunError(message)] *)
Definition postRunError (message : JsString) (st : State) : State :=
  postMessage (RunnerFailure message (Some []) None) st.

(** [buildArgs(args)]; every element of a [string[]] passes the filter. *)
Definition buildArgs (args : option (list JsString)) : list JsString :=
  js "main.wasm" :: default [] args.

(** [instantiateProgram(wasm, wasi)] *)
Definition instantiateProgram (rt : Runtime) (wasm : Bytes) : Completion unit :=
  match compile rt wasm with
  | Throw error => Throw error
  | Normal wasmModule => instantiate rt wasmModule
  end.

(** [executeProgram(request)] *)
Definition executeProgram (rt : Runtime) (request : RunnerRequest)
    : RunnerResponse :=
  let args := buildArgs (args request) in
  let appDirectory := hydrateAppDirectory (default [] (runFiles request)) in
  let durationMs := elapsedSince rt in
  match instantiateProgram rt (wasm request) with
  | Throw error =>
      RunnerFailure (describeThrown error) (Some []) (Some durationMs)
  | Normal _ =>
      let ran := start rt args appDirectory in
      match exit ran with
      | Throw error =>
          RunnerFailure (describeThrown error) (Some (stderrText ran))
            (Some durationMs)
      | Normal exitCode =>
          RunnerSuccess (stdoutText ran) (stderrText ran) exitCode durationMs
      end
  end.

(** [handleRun(request)] up to its first suspension. *)
Definition beginRun (request : RunnerRequest) (st : State) : State :=
  enter request (setRunning true st).

(** The rest of [handleRun] once the runtime has answered. *)
Definition finishRun (rt : Runtime) (request : RunnerRequest) (st : State)
    : State :=
  let response := executeProgram rt request in
  let st :=
    match postMessageThrows rt with
    | None => postMessage response st
    | Some (ThrownError _ message _) => postRunError message st
    | Some (ThrownValue str) => postRunError str st
    end in
  leave (setRunning false st).

(** [processQueue()] up to the suspension of [await handleRun(request)]. *)
Definition processQueue (st : State) : State :=
  if isRunning st then st
  else
    match pop (runQueue st) with
    | None => st
    | Some (request, _) => beginRun request (setQueue [] st)
    end.

(** The rest of [processQueue()] after the [await]. *)
Definition resumeQueue (st : State) : State :=
  if bool_decide (0 < length (runQueue st)) then processQueue st else st.

(** The [message] listener. *)
Definition onMessage (payload : JsValue) (st : State) : State :=
  if negb (isRunnerRequest payload) then
    postRunError (js "Invalid runner request payload") st
  else
    processQueue (setQueue (runQueue st ++ [asRunnerRequest payload]) st).

(** The [error] listener. *)
Definition onError (error : Thrown) (st : State) : State :=
  if isStackOverflow error then
    postRunError
      (js "Program caused stack overflow - likely infinite recursion in your code")
      st
  else st.

(** The [unhandledrejection] listener. *)
Definition onUnhandledRejection (error : Thrown) (st : State) : State :=
  if isStackOverflow error then
    postRunError (js "Program caused stack overflow during async operation") st
  else st.

(** The [messageerror] listener. *)
Definition onMessageError (st : State) : State :=
  postRunError (js "runner-worker failed to parse incoming message") st.

(** The events of the worker, one for each of its four listeners and for
    the completion of the activation of [handleRun] in flight. No listener
    of this worker writes [isRunning], so no second activation begins under
    one in flight. *)
Inductive Event :=
| Message (payload : JsValue)
| Settled (rt : Runtime)
| MessageError
| ErrorEvent (error : Thrown)
| RejectionEvent (reason : Thrown).

Definition step (st : State) (ev : Event) : State :=
  match ev with
  | Message payload => onMessage payload st
  | Settled rt =>
      match inFlight st with
      | [] => st
      | request :: _ => resumeQueue (finishRun rt request st)
      end
  | MessageError => onMessageError st
  | ErrorEvent error => onError error st
  | RejectionEvent reason => onUnhandledRejection reason st
  end.

Definition run (trace : list Event) (st : State) : State := foldl step st trace.

(** The number of messages of a trace that pass [isRunnerRequest]. *)
Fixpoint arrivals (trace : list Event) : nat :=
  match trace with
  | [] => 0
  | Message payload :: trace' =>
      (if isRunnerRequest payload then 1 else 0) + arrivals trace'
  | _ :: trace' => arrivals trace'
  end.

End RunnerWorker.

(** ** The page's listener on the compile worker (ZigPlayground.tsx) *)

Module Host.

(** What [handleCompileMessage] posts to the run worker, given whether
    [runnerWorkerRef.current] is set and the files of the last compile
    request. *)
Definition handleCompileMessage (runnerAvailable : bool)
    (lastCompileFiles : list PlaygroundFilePayload)
    (response : ZigWorkerResponse) : list JsValue :=
  match response with
  | ZigCompileSuccess wasm _ _ _ =>
      if runnerAvailable then
        [RunnerWorker.toMessage
           {| wasm := wasm; args := None; runFiles := Some lastCompileFiles |}]
      else []
  | ZigCompileFailure _ _ _ _ => []
  | ZigFatalError _ => []
  end.

End Host.

(** ** The standard-library tree (get-stdlib-directory.ts) *)

(** [TreeNode = Map<string, TreeNode | Uint8Array>] *)
Inductive TreeEntry :=
| Blob (data : Bytes)
| TreeNode (children : gmap JsString TreeEntry).

Abbreviation Tree := (gmap JsString TreeEntry).

(** [TarLocalFile] of untar.js, the fields the loader reads. *)
Record TarLocalFile := {
  name : JsString;
  filename : option JsString;
  typeflag : JsString;
  fileData : Bytes;
}.

Module StdlibDirectory.

Definition STDLIB_VERSION_PATH : list JsString := [js "std"; js "builtin.zig"].

(** *** [VERSION_REGEX]

    The pattern is [pub\s+const\s+Version\s*=\s*Q([^Q]+)Q], where Q stands
    for the double quote (code unit 34). Each quantified class is followed by a unit outside the class, so the
    greedy match is the only one at a given start. *)
Definition expect (lit : JsString) (s : JsString) : option JsString :=
  if Js.startsWith lit s then Some (drop (length lit) s) else None.
Definition spaces1 (s : JsString) : option JsString :=
  match s with
  | c :: _ => if Js.isWhiteSpace c then Some (Js.dropWhile Js.isWhiteSpace s) else None
  | [] => None
  end.
Definition spaces0 (s : JsString) : option JsString :=
  Some (Js.dropWhile Js.isWhiteSpace s).
Definition notQuote (c : N) : bool := negb (c =? Js.QUOTE)%N.
Fixpoint takeWhile (p : N → bool) (s : JsString) : JsString :=
  match s with
  | [] => []
  | c :: s' => if p c then c :: takeWhile p s' else []
  end.

(** The first capture group of a match that starts at the head of [s]. *)
Definition matchVersionAt (s : JsString) : option JsString :=
  s ← expect (js "pub") s;
  s ← spaces1 s;
  s ← expect (js "const") s;
  s ← spaces1 s;
  s ← expect (js "Version") s;
  s ← spaces0 s;
  s ← expect (js "=") s;
  s ← spaces0 s;
  s ← expect [Js.QUOTE] s;
  let captured := takeWhile notQuote s in
  if bool_decide (captured = []) then None
  else
    _ ← expect [Js.QUOTE] (Js.dropWhile notQuote s);
    Some captured.

(** [VERSION_REGEX.exec(source)?.[1]]: the leftmost match. *)
Fixpoint versionRegexExec (source : JsString) : option JsString :=
  match matchVersionAt source with
  | Some captured => Some captured
  | None =>
      match source with
      | [] => None
      | _ :: source' => versionRegexExec source'
      end
  end.

(** [normalizeEntryPath(entry)] of this file (not the workers'). *)
Definition normalizeEntryPath (entry : TarLocalFile) : JsString :=
  let raw :=
    if bool_decide (name entry ≠ []) then name entry
    else match filename entry with
         | Some f => f
         | None => []
         end in
  let slashed := Js.backslashesToSlashes raw in
  if Js.startsWith (js "./") slashed then drop 2 slashed else slashed.

(** [isDirectoryEntry(entry)] *)
Definition isDirectoryEntry (entry : TarLocalFile) : bool :=
  bool_decide (typeflag entry = js "5")
  || bool_decide (last (name entry) = Some Js.SLASH).

(** [ensureTreeNode(root, segments)], with the caller's mutation of the
    returned node as [andThen]. *)
Fixpoint ensureTreeNode (segments : list JsString) (andThen : Tree → Tree)
    (current : Tree) : Tree :=
  match segments with
  | [] => andThen current
  | segment :: rest =>
      match current !! segment with
      | Some (TreeNode existing) =>
          <[segment := TreeNode (ensureTreeNode rest andThen existing)]> current
      | _ =>
          <[segment := TreeNode (ensureTreeNode rest andThen ∅)]> current
      end
  end.

(** [getTreeEntry(node, segments)] *)
Fixpoint getTreeEntry (node : TreeEntry) (segments : list JsString)
    : option TreeEntry :=
  match segments with
  | [] => Some node
  | segment :: rest =>
      match node with
      | Blob _ => None
      | TreeNode children =>
          match children !! segment with
          | None => None
          | Some next => getTreeEntry next rest
          end
      end
  end.

(** The body of the loop of [hydrateStdlibTree] for one archive entry. *)
Definition addEntry (tree : Tree) (entry : TarLocalFile) : Tree :=
  let normalizedPath := normalizeEntryPath entry in
  if bool_decide (normalizedPath = [])
     || negb (Js.startsWith (js "lib/") normalizedPath) then tree
  else
    let relativePath := drop 4 normalizedPath in
    if bool_decide (relativePath = []) then tree
    else
      let segments := toSegments relativePath in
      match pop segments with
      | None => tree
      | Some (filename, parents) =>
          if isDirectoryEntry entry then ensureTreeNode segments id tree
          else ensureTreeNode parents
                 (λ parent, <[filename := Blob (fileData entry)]> parent) tree
      end.

(** The module-level flag of [warnOnce] and what reached [console.warn]. *)
Record Console := {
  stdlibVersionWarningIssued : bool;
  warnings : list JsString;
}.

Definition VERSION_UNKNOWN_WARNING : JsString :=
  js "Unable to determine Zig stdlib version from zig.tar.gz. Continuing without strict version verification.".

Section Toolchain.

(** [PLAYGROUND_ZIG_VERSION] of toolchain-info.ts, [TextDecoder.decode],
    and whether [console.warn] is a function in this context. *)
Variable PLAYGROUND_ZIG_VERSION : JsString.
Variable decode : Bytes → JsString.
Variable hasConsoleWarn : bool.

(** [extractStdlibVersion(tree)] *)
Definition extractStdlibVersion (tree : Tree) : option JsString :=
  match getTreeEntry (TreeNode tree) STDLIB_VERSION_PATH with
  | Some (Blob entry) => versionRegexExec (decode entry)
  | _ => None
  end.

(** [warnOnce(message)] *)
Definition warnOnce (message : JsString) (c : Console) : Console :=
  if stdlibVersionWarningIssued c then c
  else {| stdlibVersionWarningIssued := true;
          warnings := if hasConsoleWarn then warnings c ++ [message]
                      else warnings c |}.

Definition versionMismatch (version : JsString) : Thrown :=
  ThrownError (js "Error")
    (js "Zig stdlib archive version mismatch: expected "
     ++ PLAYGROUND_ZIG_VERSION ++ js " but found " ++ version ++ js ". "
     ++ js "Please replace public/zig/zig.tar.gz with the matching toolchain assets (e.g., download zig.tar.gz from the same build as zig.wasm).")
    [].

(** [assertStdlibVersion(tree)] *)
Definition assertStdlibVersion (tree : Tree) (c : Console)
    : Completion unit * Console :=
  match extractStdlibVersion tree with
  | None => (Normal (), warnOnce VERSION_UNKNOWN_WARNING c)
  | Some version =>
      if bool_decide (version = []) then
        (Normal (), warnOnce VERSION_UNKNOWN_WARNING c)
      else if bool_decide (version ≠ PLAYGROUND_ZIG_VERSION) then
        (Throw (versionMismatch version), c)
      else (Normal (), c)
  end.

(** [hydrateStdlibTree()] from the entries [untar] returned. *)
Definition hydrateStdlibTree (entries : list TarLocalFile) (c : Console)
    : Completion Tree * Console :=
  let tree := foldl addEntry ∅ entries in
  if bool_decide (size tree = 0) then
    (Throw (ThrownError (js "Error")
              (js "Zig stdlib archive did not contain any lib/ entries") []),
     c)
  else
    match assertStdlibVersion tree c with
    | (Throw error, c') => (Throw error, c')
    | (Normal _, c') => (Normal tree, c')
    end.

End Toolchain.

End StdlibDirectory.

(** ** Auxiliary notions used to state the properties *)

(** What every segment kept by [normalizeEntryPath] satisfies. *)
Definition cleanSegment (segment : JsString) : Prop :=
  segment ≠ [] ∧ segment ≠ js "." ∧ segment ≠ js "..".

(** The tree after a file node is put at a non-empty segment list:
    [ensureDirectory] on all but the last segment, then [set] of the last. *)
Definition putFile (segments : list JsString) (inode : Inode)
    (current : Contents) : Contents :=
  match pop segments with
  | None => current
  | Some (filename, parents) =>
      ensureDirectory parents (λ parent, <[filename := inode]> parent) current
  end.

(** Two segment lists neither of which extends the other. *)
Definition unrelated (a b : list JsString) : Prop :=
  ¬ a `prefix_of` b ∧ ¬ b `prefix_of` a.

(** The segments of the normalised path of an entry. *)
Definition fileSegments (file : PlaygroundFilePayload) : list JsString :=
  toSegments (normalizeEntryPath (Some (path file))).

(** The file node [writeFile] makes for an entry. *)
Definition fileNode (file : PlaygroundFilePayload) : Inode :=
  File (Utf8.encode (contents file)) (default false (readOnly file)).

(** An entry with ASCII path and contents and no [readOnly] flag. *)
Definition mkFile (p c : string) : PlaygroundFilePayload :=
  {| path := js p; contents := js c; readOnly := None |}.

(** Entries no two of which are at related segment lists. *)
Fixpoint pairwiseUnrelated (files : list PlaygroundFilePayload) : Prop :=
  match files with
  | [] => True
  | file :: rest =>
      Forall (λ later, unrelated (fileSegments file) (fileSegments later)) rest
      ∧ pairwiseUnrelated rest
  end.

(** ** The request queue, as a machine

    Both workers run the same queue code under different names. Its
    variables, as seen through [zigView] and [runnerView] below, move as
    this machine does, in the compile worker as long as no fault listener
    lowers the flag under a compilation; the properties are proved once,
    on the machine. *)

Module Queue.

Section Machine.

Context {R : Type}.

Record View := {
  busy : bool;
  pending : list R;
  flying : list R;
  ran : list R;
}.

Inductive Event :=
| Arrive (request : R)   (* a message that passes the guard *)
| Reject                 (* an event that leaves the queue variables alone *)
| Settle.                (* the activation in flight finishes *)

Definition begin (request : R) (v : View) : View :=
  {| busy := true; pending := []; flying := request :: flying v;
     ran := ran v ++ [request] |}.

Definition process (v : View) : View :=
  if busy v then v
  else match pop (pending v) with
       | None => v
       | Some (request, _) => begin request v
       end.

Definition finish (v : View) : View :=
  {| busy := false; pending := pending v; flying := tail (flying v);
     ran := ran v |}.

Definition resume (v : View) : View :=
  if bool_decide (0 < length (pending v)) then process v else v.

Definition arrive (request : R) (v : View) : View :=
  process {| busy := busy v; pending := pending v ++ [request];
             flying := flying v; ran := ran v |}.

Definition step (v : View) (ev : Event) : View :=
  match ev with
  | Arrive request => arrive request v
  | Reject => v
  | Settle => match flying v with
              | [] => v
              | _ :: _ => resume (finish v)
              end
  end.

Definition run (trace : list Event) (v : View) : View := foldl step v trace.

Definition initial : View :=
  {| busy := false; pending := []; flying := []; ran := [] |}.

Fixpoint arrivals (trace : list Event) : nat :=
  match trace with
  | [] => 0
  | Arrive _ :: trace' => S (arrivals trace')
  | _ :: trace' => arrivals trace'
  end.

(** Busy with exactly one activation, or idle with nothing pending. *)
Definition singleFlight (v : View) : Prop :=
  (busy v = true ∧ ∃ request, flying v = [request])
  ∨ (busy v = false ∧ flying v = [] ∧ pending v = []).

End Machine.

Arguments View : clear implicits.
Arguments Event : clear implicits.

End Queue.

(** The queue variables of each worker as a [Queue.View], and each worker's
    events as queue events. *)
Definition zigView (st : ZigWorker.State) : Queue.View ZigCompileRequest :=
  {| Queue.busy := ZigWorker.isCompiling st;
     Queue.pending := ZigWorker.compilationQueue st;
     Queue.flying := ZigWorker.inFlight st;
     Queue.ran := ZigWorker.executed st |}.

Definition zigEvent (ev : ZigWorker.Event) : Queue.Event ZigCompileRequest :=
  match ev with
  | ZigWorker.Message payload =>
      if ZigWorker.isCompileRequest payload
      then Queue.Arrive (ZigWorker.asCompileRequest payload)
      else Queue.Reject
  | ZigWorker.Settled _ => Queue.Settle
  | _ => Queue.Reject
  end.

Definition runnerView (st : RunnerWorker.State) : Queue.View RunnerRequest :=
  {| Queue.busy := RunnerWorker.isRunning st;
     Queue.pending := RunnerWorker.runQueue st;
     Queue.flying := RunnerWorker.inFlight st;
     Queue.ran := RunnerWorker.executed st |}.

Definition runnerEvent (ev : RunnerWorker.Event) : Queue.Event RunnerRequest :=
  match ev with
  | RunnerWorker.Message payload =>
      if RunnerWorker.isRunnerRequest payload
      then Queue.Arrive (RunnerWorker.asRunnerRequest payload)
      else Queue.Reject
  | RunnerWorker.Settled _ => Queue.Settle
  | _ => Queue.Reject
  end.

(** Runtimes to run the definitions on: a compiler that writes a note to
    stderr, leaves [main.wasm] in the workspace and exits with [exitCode],
    and a program that prints a greeting and exits with [exitCode]. *)
Definition exampleZigRuntime (exitCode : Z) : ZigWorker.Runtime :=
  {| ZigWorker.getZigStdlibDirectory := Normal ∅;
     ZigWorker.fetchAndCompileZig := Normal 1%N;
     ZigWorker.instantiate := λ _, Normal ();
     ZigWorker.start := λ _ appDirectory _ _,
       {| ZigWorker.stdoutText := [];
          ZigWorker.stderrText := js "note";
          ZigWorker.appAfter :=
            <[EMIT_WASM_PATH := File [0; 97; 115; 109]%N false]> appDirectory;
          ZigWorker.exit := Normal exitCode |};
     ZigWorker.elapsedSince := 12;
     ZigWorker.postMessageThrows := None |}.

Definition exampleRunnerRuntime (exitCode : Z) : RunnerWorker.Runtime :=
  {| RunnerWorker.compile := λ _, Normal 1%N;
     RunnerWorker.instantiate := λ _, Normal ();
     RunnerWorker.start := λ _ _,
       {| RunnerWorker.stdoutText := js "Hello";
          RunnerWorker.stderrText := [];
          RunnerWorker.exit := Normal exitCode |};
     RunnerWorker.elapsedSince := 3;
     RunnerWorker.postMessageThrows := None |}.

Definition exampleCompileRequest (entry : string) : ZigCompileRequest :=
  {| entryPath := js entry;
     files := [mkFile entry "pub fn main() void {}"];
     optimize := Some ReleaseSmall |}.

Definition exampleRunRequest (bytes : Bytes) : RunnerRequest :=
  {| wasm := bytes; args := None; runFiles := None |}.

(** The [type] tag of a response on the wire. *)
Definition zigResponseType (response : ZigWorkerResponse) : JsString :=
  match response with
  | ZigCompileSuccess _ _ _ _ => js "compile-success"
  | ZigCompileFailure _ _ _ _ => js "compile-error"
  | ZigFatalError _ => js "fatal-error"
  end.

Definition runnerResponseType (response : RunnerResponse) : JsString :=
  match response with
  | RunnerSuccess _ _ _ _ => js "run-success"
  | RunnerFailure _ _ _ => js "run-error"
  end.

(** The number of messages of a given [type] among the messages posted. *)
Definition countType {A} (type : A → JsString) (tag : string) (posted : list A) : nat :=
  length (filter (λ response, type response = js tag) posted).

(** An error shaped like a stack exhaustion. *)
Definition stackExhaustion : Thrown :=
  ThrownError (js "RangeError") (js "Maximum call stack size exceeded") [].

(** A compiler that exits with 0 and leaves the workspace as it found it. *)
Definition silentZigRuntime : ZigWorker.Runtime :=
  {| ZigWorker.getZigStdlibDirectory := Normal ∅;
     ZigWorker.fetchAndCompileZig := Normal 1%N;
     ZigWorker.instantiate := λ _, Normal ();
     ZigWorker.start := λ _ appDirectory _ _,
       {| ZigWorker.stdoutText := [];
          ZigWorker.stderrText := [];
          ZigWorker.appAfter := appDirectory;
          ZigWorker.exit := Normal 0%Z |};
     ZigWorker.elapsedSince := 12;
     ZigWorker.postMessageThrows := None |}.

(** A program whose run throws a stack exhaustion. *)
Definition overflowingRunnerRuntime : RunnerWorker.Runtime :=
  {| RunnerWorker.compile := λ _, Normal 1%N;
     RunnerWorker.instantiate := λ _, Normal ();
     RunnerWorker.start := λ _ _,
       {| RunnerWorker.stdoutText := [];
          RunnerWorker.stderrText := [];
          RunnerWorker.exit := Throw stackExhaustion |};
     RunnerWorker.elapsedSince := 3;
     RunnerWorker.postMessageThrows := None |}.

(** Archives to run the loader on: [lib/std/builtin.zig] with the given
    bytes, after a directory entry for [lib/std/]. *)
Definition exampleArchive (builtin : Bytes) : list TarLocalFile :=
  [ {| name := js "./lib/std/"; filename := None; typeflag := js "5";
       fileData := [] |};
    {| name := js "lib/std/builtin.zig"; filename := None; typeflag := js "0";
       fileData := builtin |} ].

(** [pub const Version = Q0.15.2Q;] with Q the double quote. *)
Definition exampleBuiltin : Bytes :=
  js "pub const Version = " ++ [Js.QUOTE] ++ js "0.15.2" ++ [Js.QUOTE] ++ js ";".

Definition freshConsole : StdlibDirectory.Console :=
  {| StdlibDirectory.stdlibVersionWarningIssued := false;
     StdlibDirectory.warnings := [] |}.

(** Neither end of [s] is white space. *)
Definition edgesClean (s : JsString) : Prop :=
  (∀ c, head s = Some c → Js.isWhiteSpace c = false)
  ∧ (∀ c, last s = Some c → Js.isWhiteSpace c = false).

(** The segments a normalised path is made of. *)
Definition keptSegments (path : option JsString) : list JsString :=
  match entrySegments path with
  | [] => [DEFAULT_ENTRY_FILENAME]
  | segments => segments
  end.

(** The trace of compile requests each of which completes, against its own
    runtime, before the next one arrives. *)
Definition roundsTrace (rounds : list (ZigCompileRequest * ZigWorker.Runtime))
    : list ZigWorker.Event :=
  rounds ≫= λ round,
    [ZigWorker.Message (ZigWorker.toMessage round.1); ZigWorker.Settled round.2].

(** The text [pub<w1>const<w2>Version<w3>=<w4>Q<version>Q], Q the double
    quote, with the four runs of white space given. *)
Definition versionDeclaration (w1 w2 w3 w4 version : JsString) : JsString :=
  js "pub" ++ w1 ++ js "const" ++ w2 ++ js "Version" ++ w3 ++ js "=" ++ w4
  ++ [Js.QUOTE] ++ version ++ [Js.QUOTE].

(** A run of white space. *)
Definition allWhite (w : JsString) : Prop :=
  Forall (λ c, Js.isWhiteSpace c = true) w.

(** ** The page (ZigPlayground.tsx): paths, payloads, the request, the log *)

(** A [PlaygroundFilePayload] from its three fields. *)
Definition filePayload (p c : JsString) (ro : option bool) : PlaygroundFilePayload :=
  {| path := p; contents := c; readOnly := ro |}.

Module Playground.

(** [normalizeWorkerPath(path)], the page's copy of the workers' normaliser. *)
Definition normalizeWorkerPath (path : option JsString) : JsString :=
  let trimmed := Js.backslashesToSlashes (Js.trim (default [] path)) in
  let withoutLegacyPrefix :=
    if Js.startsWith (LEGACY_APP_PREFIX ++ [Js.SLASH]) trimmed
    then Js.slice (length LEGACY_APP_PREFIX + 1) trimmed
    else if Js.startsWith LEGACY_APP_PREFIX trimmed
         then Js.slice (length LEGACY_APP_PREFIX) trimmed
         else trimmed in
  let cleaned := Js.stripLeadingSlashes withoutLegacyPrefix in
  let segments :=
    filter (λ segment, 0 < length segment ∧ segment ≠ js "." ∧ segment ≠ js "..")
           (Js.trim <$> Js.split Js.SLASH cleaned) in
  let normalized := Js.join Js.SLASH segments in
  if bool_decide (0 < length normalized) then normalized
  else DEFAULT_ENTRY_FILENAME.

(** [PlaygroundFile] of the page. *)
Record PlaygroundFile := {
  id : JsString;
  name : JsString;
  path : JsString;
  contents : JsString;
  readOnly : option bool;
}.

(** [a || b] on strings. *)
Definition orElse (a b : JsString) : JsString :=
  if bool_decide (a = []) then b else a.

(** [makeFilePayload(file)] *)
Definition makeFilePayload (file : PlaygroundFile) : PlaygroundFilePayload :=
  filePayload (normalizeWorkerPath (Some (orElse (path file) (name file))))
              (contents file) (readOnly file).

(** [entryPath] of the component, from [initialEntry] (null when the page
    was given no file). *)
Definition entryPath (initialEntry : option PlaygroundFile) : JsString :=
  normalizeWorkerPath
    (Some match initialEntry with
          | Some file => orElse (orElse (path file) (name file)) DEFAULT_ENTRY_FILENAME
          | None => DEFAULT_ENTRY_FILENAME
          end).

(** The request [handleRun] posts for the editor's [source]. *)
Definition compileRequest (entryPath source : JsString) : ZigCompileRequest :=
  Build_ZigCompileRequest entryPath [filePayload entryPath source (Some false)]
    (Some ReleaseSmall).

(** [array.slice(-n)] for [0 < n]: the last [n] elements. *)
Definition sliceLast {A} (n : nat) (l : list A) : list A :=
  drop (length l - n) l.

(** The state update of [logEvent]; the entry carries the generated id and
    the timestamp. *)
Definition logEvent {LogEntry} (prev : list LogEntry) (entry : LogEntry)
    : list LogEntry :=
  sliceLast 200 (prev ++ [entry]).

End Playground.

(** ** The standard-library directory (get-stdlib-directory.ts, continued) *)

(** [convertTreeToDirectory(node)] on one entry: a blob becomes a read-only
    file, a node the directory of its converted entries. *)
Fixpoint convertTreeEntry (entry : TreeEntry) : Inode :=
  match entry with
  | Blob data => File data true
  | TreeNode children => Directory (convertTreeEntry <$> children)
  end.

(** [convertTreeToDirectory(node)] *)
Definition convertTreeToDirectory (node : Tree) : Contents :=
  convertTreeEntry <$> node.

(** ** Asset warm-up (asset-registry.ts) *)

Module AssetRegistry.

Inductive AssetStatus := Idle | Warming | Ready | Failed.

Inductive AssetKey := Zig | Zls | Stdlib.

(** [ZigAssetSnapshot]; the status ['error'] is [Failed] here, and [error]
    is the optional message. *)
Record ZigAssetSnapshot := {
  zig : AssetStatus;
  zls : AssetStatus;
  stdlib : AssetStatus;
  error : option JsString;
}.

#[global] Instance AssetStatus_eq_dec : EqDecision AssetStatus.
Proof. solve_decision. Defined.

(** A listener passed as [onUpdate]: the function, by identity, and what
    the direct call of it in [warmZigAssets] throws, if it throws. Its
    calls from [emitSnapshot] are inside a [try]. *)
Record Listener := {
  listenerId : nat;
  throws : option Thrown;
}.

(** The module-level [snapshot], the set [listeners] of registered
    functions, and the payloads handed to listeners so far. *)
Record State := {
  snapshot : ZigAssetSnapshot;
  listeners : gset nat;
  emitted : list ZigAssetSnapshot;
}.

Definition initialSnapshot : ZigAssetSnapshot :=
  {| zig := Idle; zls := Idle; stdlib := Idle; error := None |}.

(** [snapshot[key]] *)
Definition status (key : AssetKey) (s : ZigAssetSnapshot) : AssetStatus :=
  match key with Zig => zig s | Zls => zls s | Stdlib => stdlib s end.

(** [{ ...snapshot, [key]: status }] *)
Definition withStatus (key : AssetKey) (st : AssetStatus) (s : ZigAssetSnapshot)
    : ZigAssetSnapshot :=
  match key with
  | Zig => {| zig := st; zls := zls s; stdlib := stdlib s; error := error s |}
  | Zls => {| zig := zig s; zls := st; stdlib := stdlib s; error := error s |}
  | Stdlib => {| zig := zig s; zls := zls s; stdlib := st; error := error s |}
  end.

(** [emitSnapshot()] after the snapshot became [s]. *)
Definition emitSnapshot (s : ZigAssetSnapshot) (r : State) : State :=
  {| snapshot := s; listeners := listeners r;
     emitted := if bool_decide (size (listeners r) = 0) then emitted r
                else emitted r ++ [s] |}.

(** [setAssetStatus(key, status)] *)
Definition setAssetStatus (key : AssetKey) (st : AssetStatus) (r : State) : State :=
  if bool_decide (status key (snapshot r) = st) then r
  else emitSnapshot (withStatus key st (snapshot r)) r.

(** [clearSnapshotError()] *)
Definition clearSnapshotError (r : State) : State :=
  match error (snapshot r) with
  | Some _ =>
      emitSnapshot {| zig := zig (snapshot r); zls := zls (snapshot r);
                      stdlib := stdlib (snapshot r); error := None |} r
  | None => r
  end.

(** [setSnapshotError(message)] *)
Definition setSnapshotError (message : option JsString) (r : State) : State :=
  match message with
  | None => clearSnapshotError r
  | Some m =>
      if bool_decide (m = []) then clearSnapshotError r
      else if bool_decide (error (snapshot r) = Some m) then r
      else emitSnapshot {| zig := zig (snapshot r); zls := zls (snapshot r);
                           stdlib := stdlib (snapshot r); error := Some m |} r
  end.

(** [hasErroredAsset()] *)
Definition hasErroredAsset (s : ZigAssetSnapshot) : bool :=
  bool_decide (zig s = Failed) || bool_decide (zls s = Failed)
  || bool_decide (stdlib s = Failed).

(** [areAllAssetsReady()] *)
Definition areAllAssetsReady (s : ZigAssetSnapshot) : bool :=
  bool_decide (zig s = Ready) && bool_decide (zls s = Ready)
  && bool_decide (stdlib s = Ready).

(** [formatAssetError(key, error)] *)
Definition formatAssetError (key : AssetKey) (error : Thrown) : JsString :=
  let label :=
    match key with
    | Zig => js "Zig compiler"
    | Zls => js "Zig language server"
    | Stdlib => js "Zig standard library"
    end in
  let detail :=
    match error with
    | ThrownError _ message _ => message
    | ThrownValue str => str
    end in
  label ++ js " assets failed to warm: " ++ detail.

(** [warmAsset(key, action)]; [action] is what awaiting the action gives. *)
Definition warmAsset (key : AssetKey) (action : Completion unit) (r : State)
    : Completion unit * State :=
  if bool_decide (status key (snapshot r) = Ready) then (Normal (), r)
  else
    let r := setAssetStatus key Warming r in
    match action with
    | Normal _ =>
        let r := setAssetStatus key Ready r in
        (Normal (),
         if hasErroredAsset (snapshot r) then r else clearSnapshotError r)
    | Throw error =>
        let message := formatAssetError key error in
        let r := setAssetStatus key Failed r in
        let r := setSnapshotError (Some message) r in
        (Throw (ThrownError (js "Error") message []), r)
    end.

(** [runWarmSequence()]; [actions] gives the outcome of each asset's fetch. *)
Definition runWarmSequence (actions : AssetKey → Completion unit) (r : State)
    : Completion unit * State :=
  let r := clearSnapshotError r in
  match warmAsset Zig (actions Zig) r with
  | (Throw e, r) => (Throw e, r)
  | (Normal _, r) =>
      match warmAsset Zls (actions Zls) r with
      | (Throw e, r) => (Throw e, r)
      | (Normal _, r) => warmAsset Stdlib (actions Stdlib) r
      end
  end.

(** [listeners.add(onUpdate)] and [listeners.delete(onUpdate)] *)
Definition addListener (onUpdate : Listener) (r : State) : State :=
  {| snapshot := snapshot r;
     listeners := {[listenerId onUpdate]} ∪ listeners r;
     emitted := emitted r |}.

Definition deleteListener (onUpdate : Listener) (r : State) : State :=
  {| snapshot := snapshot r;
     listeners := listeners r ∖ {[listenerId onUpdate]};
     emitted := emitted r |}.

(** [onUpdate(getCachedAssetSnapshot())]: the listener is handed the
    snapshot, whatever it then does. *)
Definition callListener (r : State) : State :=
  {| snapshot := snapshot r; listeners := listeners r;
     emitted := emitted r ++ [snapshot r] |}.

(** [warmZigAssets(onUpdate)] while no warm-up is in flight ([warmPromise]
    is null). The direct call of the listener comes after [listeners.add]
    and outside any [try]: when it throws, the call of [warmZigAssets]
    rejects there, before [runWarmSequence] and before any
    [listeners.delete]. *)
Definition warmZigAssets (onUpdate : option Listener)
    (actions : AssetKey → Completion unit) (r : State)
    : Completion unit * State :=
  let ready := areAllAssetsReady (snapshot r) in
  let unregister r :=
    match onUpdate with
    | Some listener => deleteListener listener r
    | None => r
    end in
  let proceed r :=
    if ready then (Normal (), unregister r)
    else
      let '(result, r) := runWarmSequence actions r in
      (result, unregister r) in
  match onUpdate with
  | None => proceed r
  | Some listener =>
      let r := callListener (if ready then r else addListener listener r) in
      match throws listener with
      | Some thrown => (Throw thrown, r)
      | None => proceed r
      end
  end.

(** The registry when the module is loaded. *)
Definition initial : State :=
  {| snapshot := initialSnapshot; listeners := ∅; emitted := [] |}.

(** The listeners have been handed the current snapshot last. *)
Definition synced (r : State) : Prop :=
  listeners r ≠ ∅ ∧ last (emitted r) = Some (snapshot r).

(** A listener that returns, and one that throws when called. *)
Definition quietListener : Listener :=
  {| listenerId := 1; throws := None |}.

Definition throwingListener : Listener :=
  {| listenerId := 2; throws := Some (ThrownValue (js "render failed")) |}.

(** Fetches of which the language server's fails. *)
Definition zlsOffline (key : AssetKey) : Completion unit :=
  match key with
  | Zls => Throw (ThrownValue (js "offline"))
  | _ => Normal ()
  end.

(** From [r] to [r'] the listeners stayed, payloads were only added, and
    listeners that were up to date still are. *)
Definition extends (r r' : State) : Prop :=
  listeners r' = listeners r
  ∧ (∃ rest, emitted r' = emitted r ++ rest)
  ∧ (synced r → synced r').

(** The place of an asset in the order [runWarmSequence] warms them. *)
Definition position (key : AssetKey) : nat :=
  match key with Zig => 0 | Zls => 1 | Stdlib => 2 end.

(** The snapshots between warm-up attempts: the assets warmed so far are
    ready, and the next one is either untouched, with no error message, or
    failed, with one; the assets after it are untouched. *)
Definition settled (s : ZigAssetSnapshot) : Prop :=
  ∃ ready : nat,
    (∀ key, position key < ready → status key s = Ready)
    ∧ (∀ key, ready < position key → status key s = Idle)
    ∧ ((error s = None ∧ ∀ key, position key = ready → status key s = Idle)
       ∨ (is_Some (error s) ∧ ∀ key, position key = ready → status key s = Failed)).

End AssetRegistry.

(** * Properties *)

(** ** The definitions on small inputs *)

Example normalizeEntryPath_legacy_prefix :
  normalizeEntryPath (Some (js "/app/src/../main.zig")) = js "src/main.zig".
Proof. vm_compute. reflexivity. Qed.

Example normalizeEntryPath_mixed_separators :
  normalizeEntryPath (Some (js "  \apple\.\ x /y  ")) = js "le/x/y".
Proof. vm_compute. reflexivity. Qed.

Example encode_surrogates : Utf8.encode [104; 233; 8364; 55357; 56832; 56832]%N
  = [104; 195; 169; 226; 130; 172; 240; 159; 152; 128; 239; 191; 189]%N.
Proof. vm_compute. reflexivity. Qed.

(** ** Strings *)

Section JsStrings.

Implicit Types (s p : JsString) (c sep : N) (l : list JsString).

Lemma dropWhile_suffix f s : Js.dropWhile f s `suffix_of` s.
Proof.
  induction s as [|c s IH]; simpl; [done|].
  destruct (f c); [by apply suffix_cons_r | done].
Qed.

Lemma dropWhile_subseteq f s : Js.dropWhile f s ⊆ s.
Proof.
  intros c Hc. destruct (dropWhile_suffix f s) as [k ->].
  apply elem_of_app; by right.
Qed.

Lemma trim_subseteq s : Js.trim s ⊆ s.
Proof.
  intros c. unfold Js.trim, Js.trimEnd, Js.trimStart.
  rewrite elem_of_reverse. intros Hc%dropWhile_subseteq.
  rewrite elem_of_reverse in Hc. by apply dropWhile_subseteq in Hc.
Qed.

Lemma split_subseteq sep s : Forall (λ piece, piece ⊆ s) (Js.split sep s).
Proof.
  induction s as [|c s IH]; simpl.
  - by constructor.
  - assert (Forall (λ piece : JsString, piece ⊆ c :: s) (Js.split sep s)) as IH'.
    { eapply Forall_impl; [exact IH|]. intros piece Hp x Hx. right. by apply Hp. }
    destruct (c =? sep)%N.
    + constructor; [|done]. intros x Hx. by apply elem_of_nil in Hx.
    + destruct (Js.split sep s) as [|h t] eqn:E.
      * constructor; [|done]. intros x Hx. by apply list_elem_of_singleton in Hx as ->; left.
      * inversion IH' as [|? ? Hh Ht]; subst. constructor; [|done].
        intros x [->|Hx]%elem_of_cons; [left | by apply Hh].
Qed.

Lemma split_no_sep sep s : Forall (λ piece, sep ∉ piece) (Js.split sep s).
Proof.
  induction s as [|c s IH]; simpl.
  - constructor; [|done]. by intros ?%elem_of_nil.
  - destruct (N.eqb_spec c sep) as [->|Hne].
    + constructor; [|done]. by intros ?%elem_of_nil.
    + destruct (Js.split sep s) as [|h t] eqn:E.
      * constructor; [|done]. intros ->%list_elem_of_singleton. done.
      * inversion IH; subst. constructor; [|done].
        intros [?|?]%elem_of_cons; [congruence | done].
Qed.

Lemma split_app_no_sep sep s (t : JsString) :
  sep ∉ s → Js.split sep (s ++ sep :: t) = s :: Js.split sep t.
Proof.
  induction s as [|c s IH]; simpl; intros Hs.
  - by rewrite N.eqb_refl.
  - apply not_elem_of_cons in Hs as [Hc Hs].
    destruct (N.eqb_spec c sep) as [->|_]; [done|].
    by rewrite IH.
Qed.

Lemma split_single sep s : sep ∉ s → Js.split sep s = [s].
Proof.
  induction s as [|c s IH]; simpl; intros Hs; [done|].
  apply not_elem_of_cons in Hs as [Hc Hs].
  destruct (N.eqb_spec c sep) as [->|_]; [done|].
  by rewrite IH.
Qed.

(** Splitting a joined list of separator-free pieces gives the pieces. *)
Lemma split_join sep l :
  l ≠ [] → Forall (λ piece, sep ∉ piece) l → Js.split sep (Js.join sep l) = l.
Proof.
  induction l as [|x l IH]; [done|]. intros _ Hall.
  inversion Hall as [|? ? Hx Hl]; subst.
  destruct l as [|y l].
  - simpl. by apply split_single.
  - change (Js.join sep (x :: y :: l)) with (x ++ sep :: Js.join sep (y :: l)).
    rewrite split_app_no_sep; [|done]. by rewrite IH.
Qed.

Lemma join_subseteq sep l c :
  c ∈ Js.join sep l → c = sep ∨ ∃ piece, piece ∈ l ∧ c ∈ piece.
Proof.
  induction l as [|x l IH]; simpl; [by intros ?%elem_of_nil|].
  destruct l as [|y l].
  - intros Hc. right. exists x. split; [left | done].
  - intros [Hc|[->|Hc]%elem_of_cons]%elem_of_app.
    + right. exists x. split; [left | done].
    + by left.
    + destruct (IH Hc) as [->|(piece & Hp & Hcp)]; [by left|].
      right. exists piece. split; [by right | done].
Qed.

Lemma join_head sep x l : x ≠ [] → head (Js.join sep (x :: l)) = head x.
Proof. destruct x as [|c x]; [done|]. intros _. by destruct l. Qed.

Lemma backslashesToSlashes_clean s : Js.BACKSLASH ∉ Js.backslashesToSlashes s.
Proof.
  unfold Js.backslashesToSlashes. rewrite list_elem_of_fmap.
  intros (c & Hc & _).
  destruct (N.eqb_spec c Js.BACKSLASH) as [Heq|Hne];
    [discriminate Hc | congruence].
Qed.

Lemma dropWhile_idemp f s : Js.dropWhile f (Js.dropWhile f s) = Js.dropWhile f s.
Proof.
  induction s as [|c s IH]; simpl; [done|].
  destruct (f c) eqn:E; [done|]. simpl. by rewrite E.
Qed.

Lemma dropWhile_head f s c : head (Js.dropWhile f s) = Some c → f c = false.
Proof.
  induction s as [|d s IH]; simpl; [done|].
  destruct (f d) eqn:E; [done|]. simpl. by intros [= <-].
Qed.

Lemma dropWhile_keep f s :
  (∀ c, head s = Some c → f c = false) → Js.dropWhile f s = s.
Proof.
  destruct s as [|c s]; simpl; [done|]. intros H. by rewrite (H c).
Qed.

(** [trim] leaves nothing to trim. *)
Lemma trim_idemp s : Js.trim (Js.trim s) = Js.trim s.
Proof.
  unfold Js.trim, Js.trimEnd, Js.trimStart.
  set (a := Js.dropWhile Js.isWhiteSpace s).
  set (b := Js.dropWhile Js.isWhiteSpace (reverse a)).
  assert (Js.dropWhile Js.isWhiteSpace (reverse b) = reverse b) as ->.
  { apply dropWhile_keep. intros c Hc.
    destruct (dropWhile_suffix Js.isWhiteSpace (reverse a)) as [k Hk].
    fold b in Hk. apply (f_equal reverse) in Hk.
    rewrite reverse_involutive, reverse_app in Hk.
    apply (dropWhile_head Js.isWhiteSpace s). fold a. rewrite Hk.
    destruct (reverse b); [done|]. exact Hc. }
  rewrite reverse_involutive. subst b. by rewrite dropWhile_idemp.
Qed.

End JsStrings.

(** ** The path normaliser *)

Section Normaliser.

Implicit Types (path : option JsString) (segment : JsString).


Lemma entrySegments_spec path :
  Forall (λ segment, cleanSegment segment
                     ∧ (Js.SLASH ∉ segment) ∧ (Js.BACKSLASH ∉ segment))
         (entrySegments path).
Proof.
  apply Forall_forall. intros segment. unfold entrySegments.
  set (trimmed := Js.backslashesToSlashes _).
  set (withoutLegacyPrefix := if Js.startsWith _ trimmed then _ else _).
  rewrite list_elem_of_filter, list_elem_of_fmap.
  intros [(Hlen & Hdot & Hdots) (piece & -> & Hpiece)].
  assert (withoutLegacyPrefix ⊆ trimmed) as Hsub.
  { subst withoutLegacyPrefix. unfold Js.slice.
    repeat case_match; auto using subseteq_drop. }
  assert (piece ⊆ trimmed) as Hpt.
  { pose proof (split_subseteq Js.SLASH
      (Js.stripLeadingSlashes withoutLegacyPrefix)) as Hall.
    rewrite Forall_forall in Hall. specialize (Hall _ Hpiece).
    intros c Hc. apply Hsub. eapply dropWhile_subseteq. by apply Hall. }
  repeat split; try done.
  - intros E. rewrite E in Hlen. simpl in Hlen. lia.
  - intros Hc%trim_subseteq.
    pose proof (split_no_sep Js.SLASH
      (Js.stripLeadingSlashes withoutLegacyPrefix)) as Hall.
    rewrite Forall_forall in Hall. by apply (Hall _ Hpiece).
  - intros Hc%trim_subseteq%Hpt. by apply backslashesToSlashes_clean in Hc.
Qed.

Lemma normalizeEntryPath_cases path :
  (entrySegments path = [] ∧ normalizeEntryPath path = DEFAULT_ENTRY_FILENAME)
  ∨ (entrySegments path ≠ []
     ∧ normalizeEntryPath path = Js.join Js.SLASH (entrySegments path)).
Proof.
  unfold normalizeEntryPath. pose proof (entrySegments_spec path) as Hall.
  destruct (entrySegments path) as [|x l] eqn:E; [by left|right].
  split; [done|]. apply Forall_cons in Hall as [[[Hx _] _] _].
  rewrite bool_decide_eq_true_2; [done|].
  assert (head (Js.join Js.SLASH (x :: l)) = head x) as Hh by by apply join_head.
  destruct (Js.join Js.SLASH (x :: l)); [|simpl; lia].
  by destruct x.
Qed.

(** Re-reading a normalised path gives back the segments it was built
    from: [toSegments] and a plain split agree on it. *)
Lemma split_normalizeEntryPath path :
  Js.split Js.SLASH (normalizeEntryPath path)
  = match entrySegments path with
    | [] => [DEFAULT_ENTRY_FILENAME]
    | segments => segments
    end.
Proof.
  destruct (normalizeEntryPath_cases path) as [[E ->]|[Hne ->]].
  - by rewrite E.
  - rewrite split_join; [by destruct (entrySegments path)|done|].
    eapply Forall_impl; [apply entrySegments_spec|]. by intros ? (_ & ? & _).
Qed.

Lemma entrySegments_trimmed path :
  Forall (λ segment, Js.trim segment = segment) (entrySegments path).
Proof.
  apply Forall_forall. intros segment. unfold entrySegments.
  rewrite list_elem_of_filter, list_elem_of_fmap.
  intros [_ (piece & -> & _)]. apply trim_idemp.
Qed.

(** The segments [writeFile] and [getFileAtPath] read from a normalised
    path are the segments the normaliser kept. *)
Lemma toSegments_normalizeEntryPath path :
  toSegments (normalizeEntryPath path)
  = match entrySegments path with
    | [] => [DEFAULT_ENTRY_FILENAME]
    | segments => segments
    end.
Proof.
  unfold toSegments. rewrite split_normalizeEntryPath.
  pose proof (entrySegments_spec path) as Hspec.
  pose proof (entrySegments_trimmed path) as Htrim.
  destruct (entrySegments path) as [|x l]; [by vm_compute|].
  induction (x :: l) as [|y k IH]; [done|].
  apply Forall_cons in Hspec as [([Hy [Hdot _]] & _) Hspec].
  apply Forall_cons in Htrim as [Hty Htrim].
  rewrite fmap_cons, Hty, filter_cons_True.
  - f_equal. by apply IH.
  - split; [|done]. destruct y; [done|simpl; lia].
Qed.

Lemma normalizeEntryPath_nonempty path :
  normalizeEntryPath path ≠ [].
Proof.
  destruct (normalizeEntryPath_cases path) as [[_ ->]|[Hne ->]]; [done|].
  pose proof (entrySegments_spec path) as Hall.
  destruct (entrySegments path) as [|x l]; [done|].
  apply Forall_cons in Hall as [[[Hx _] _] _].
  intros Hnil. pose proof (join_head Js.SLASH x l Hx) as Hh.
  rewrite Hnil in Hh. by destruct x.
Qed.

Lemma toSegments_normalizeEntryPath_nonempty path :
  toSegments (normalizeEntryPath path) ≠ [].
Proof.
  rewrite toSegments_normalizeEntryPath. by destruct (entrySegments path).
Qed.

End Normaliser.

(** C3. For every path string (or none), [normalizeEntryPath] returns a
    non-empty relative path (it does not begin with a slash) without
    backslashes whose slash-separated segments are all non-empty and
    different from [.] and [..]; when no segment survives normalisation the
    result is the default entry file name [main.zig]; and
    [/app/src/../main.zig] normalises to [src/main.zig]. *)
Theorem normalizeEntryPath_relative_clean (path : option JsString) :
  normalizeEntryPath path ≠ []
  ∧ head (normalizeEntryPath path) ≠ Some Js.SLASH
  ∧ (Js.BACKSLASH ∉ normalizeEntryPath path)
  ∧ Forall cleanSegment (Js.split Js.SLASH (normalizeEntryPath path))
  ∧ (Js.join Js.SLASH (entrySegments path) = [] →
     normalizeEntryPath path = DEFAULT_ENTRY_FILENAME)
  ∧ normalizeEntryPath (Some (js "/app/src/../main.zig")) = js "src/main.zig".
Proof.
  pose proof (entrySegments_spec path) as Hall.
  assert (Forall cleanSegment (Js.split Js.SLASH (normalizeEntryPath path))) as Hsegs.
  { rewrite split_normalizeEntryPath.
    destruct (entrySegments path) eqn:E.
    - repeat constructor; by vm_compute.
    - eapply Forall_impl; [exact Hall|]. by intros ? (? & _). }
  assert (normalizeEntryPath (Some (js "/app/src/../main.zig")) = js "src/main.zig")
    as Hex by (vm_compute; reflexivity).
  destruct (normalizeEntryPath_cases path) as [[E Hr]|[Hne Hr]].
  - split_and!; try done.
    + by rewrite Hr.
    + by rewrite Hr.
    + rewrite Hr. vm_compute. intros H.
      repeat (apply elem_of_cons in H as [H|H]; [done|]).
      by apply elem_of_nil in H.
  - destruct (entrySegments path) as [|x l] eqn:E; [done|].
    pose proof Hall as Hall'.
    apply Forall_cons in Hall' as [([Hx _] & Hslash & _) _].
    assert (head (normalizeEntryPath path) = head x) as Hh.
    { rewrite Hr. by apply join_head. }
    split_and!; try done.
    + intros Hnil. rewrite Hnil in Hh. by destruct x.
    + rewrite Hh. destruct x as [|c x]; [done|]. simpl. intros [= ->].
      apply Hslash. left.
    + rewrite Hr. intros [Hc|(piece & Hp & Hc)]%join_subseteq; [done|].
      rewrite Forall_forall in Hall. by destruct (Hall _ Hp) as (_ & _ & Hb).
    + intros Hj. rewrite Hr in Hh. rewrite Hj in Hh. by destruct x.
Qed.

(** The hypothesis of the default-name clause is met by a path made of
    slashes, dots and blanks only. *)
Lemma normalizeEntryPath_relative_clean_witness :
  normalizeEntryPath (Some (js " \./ .. /")) = DEFAULT_ENTRY_FILENAME.
Proof.
  apply (normalizeEntryPath_relative_clean (Some (js " \./ .. /"))).
  vm_compute. reflexivity.
Defined.

(** ** The virtual directory tree *)

Section Hydration.

Implicit Types (root current : Contents) (segments : list JsString)
  (file : PlaygroundFilePayload) (files : list PlaygroundFilePayload)
  (inode : Inode).

Lemma pop_cons {A} (x y : A) (l : list A) :
  pop (x :: y :: l)
  = match pop (y :: l) with
    | Some (z, init) => Some (z, x :: init)
    | None => Some (x, [])
    end.
Proof. done. Qed.

Lemma pop_is_Some {A} (x : A) (l : list A) : ∃ z init, pop (x :: l) = Some (z, init).
Proof.
  revert x. induction l as [|y l IH]; intros x; [by eexists _, _|].
  destruct (IH y) as (z & init & E). rewrite pop_cons, E. by eexists _, _.
Qed.


Lemma putFile_single (x : JsString) inode current :
  putFile [x] inode current = <[x := inode]> current.
Proof. done. Qed.

Lemma putFile_cons (x y : JsString) segments inode current :
  putFile (x :: y :: segments) inode current
  = match current !! x with
    | Some (Directory existing) =>
        <[x := Directory (putFile (y :: segments) inode existing)]> current
    | Some (File _ _) =>
        <[x := Directory (putFile (y :: segments) inode ∅)]> (delete x current)
    | None =>
        <[x := Directory (putFile (y :: segments) inode ∅)]> current
    end.
Proof.
  unfold putFile. rewrite pop_cons.
  destruct (pop_is_Some y segments) as (z & init & ->). done.
Qed.

Lemma getFileAtSegments_empty segments : getFileAtSegments segments ∅ = None.
Proof. destruct segments; [done|]. simpl. by rewrite lookup_empty. Qed.

(** A file just put is the file read back at the same segments. *)
Lemma get_putFile_same segments data readonly current :
  segments ≠ [] →
  getFileAtSegments segments (putFile segments (File data readonly) current)
  = Some (File data readonly).
Proof.
  revert current. induction segments as [|x segments IH]; [done|].
  intros current _. destruct segments as [|y segments].
  - rewrite putFile_single. simpl. by rewrite lookup_insert_eq.
  - rewrite putFile_cons.
    assert (∀ sub m,
      getFileAtSegments (x :: y :: segments)
        (<[x := Directory (putFile (y :: segments) (File data readonly) sub)]> m)
      = Some (File data readonly)) as Hgo.
    { intros sub m.
      change (getFileAtSegments (x :: y :: segments) ?t)
        with (match t !! x with
              | None => None
              | Some (Directory d) => getFileAtSegments (y :: segments) d
              | Some (File _ _) => None
              end).
      rewrite lookup_insert_eq. by apply IH. }
    repeat case_match; apply Hgo.
Qed.


(** Putting a file at segments unrelated to [segments] does not change
    what is read at [segments]. *)
Lemma get_putFile_other segments segments' inode current :
  segments' ≠ [] → unrelated segments segments' →
  getFileAtSegments segments (putFile segments' inode current)
  = getFileAtSegments segments current.
Proof.
  revert segments current.
  induction segments' as [|x segments' IH]; [done|].
  intros segments current _ [Hab Hba].
  destruct segments as [|s rest]; [done|].
  destruct (decide (s = x)) as [->|Hne].
  - (* the first segments agree *)
    destruct segments' as [|y segments'].
    { exfalso. apply Hba. by apply prefix_cons, prefix_nil. }
    destruct rest as [|s2 rest].
    { exfalso. apply Hab. by apply prefix_cons, prefix_nil. }
    assert (unrelated (s2 :: rest) (y :: segments')) as Hun.
    { split; intros Hp; [apply Hab | apply Hba]; by apply prefix_cons. }
    rewrite putFile_cons.
    change (getFileAtSegments (x :: s2 :: rest) ?t)
      with (match t !! x with
            | None => None
            | Some (Directory d) => getFileAtSegments (s2 :: rest) d
            | Some (File _ _) => None
            end).
    destruct (current !! x) as [[d ro|existing]|] eqn:E;
      rewrite lookup_insert_eq, IH by done;
      first [done | by rewrite getFileAtSegments_empty].
  - (* they differ: the entry read first is untouched *)
    assert (putFile (x :: segments') inode current !! s = current !! s) as Hs.
    { destruct segments' as [|y segments'].
      - rewrite putFile_single. by rewrite lookup_insert_ne.
      - rewrite putFile_cons. repeat case_match;
          rewrite lookup_insert_ne by done; try done.
        by rewrite lookup_delete_ne. }
    simpl. by rewrite Hs.
Qed.


Lemma hydrateStep_putFile root file :
  hydrateStep root file = putFile (fileSegments file) (fileNode file) root.
Proof.
  unfold hydrateStep.
  pose proof (normalizeEntryPath_nonempty (Some (path file))) as Hne.
  by rewrite bool_decide_eq_false_2.
Qed.

Lemma fileSegments_nonempty file : fileSegments file ≠ [].
Proof. apply toSegments_normalizeEntryPath_nonempty. Qed.

(** An entry followed only by entries at unrelated paths is read back
    unchanged, whatever came before it. *)
Lemma hydrate_last_writer files1 file files2 :
  Forall (λ later, unrelated (fileSegments file) (fileSegments later)) files2 →
  getFileAtPath (hydrateAppDirectory (files1 ++ file :: files2))
    (normalizeEntryPath (Some (path file)))
  = Some (fileNode file).
Proof.
  intros Hlater. unfold hydrateAppDirectory, getFileAtPath.
  rewrite foldl_app. simpl. fold (fileSegments file).
  set (after := hydrateStep (foldl hydrateStep ∅ files1) file).
  assert (getFileAtSegments (fileSegments file) after = Some (fileNode file)) as Hafter.
  { subst after. rewrite hydrateStep_putFile.
    apply get_putFile_same, fileSegments_nonempty. }
  clearbody after. revert after Hafter.
  induction Hlater as [|later files2 Hun _ IH]; intros after Hafter; [done|].
  simpl. apply IH. rewrite hydrateStep_putFile, get_putFile_other;
    [done | apply fileSegments_nonempty | done].
Qed.

End Hydration.


#[global] Instance unrelated_dec a b : Decision (unrelated a b).
Proof. unfold unrelated. apply _. Defined.

#[global] Instance pairwiseUnrelated_dec files : Decision (pairwiseUnrelated files).
Proof. induction files; simpl; apply _. Defined.

Lemma pairwiseUnrelated_split files1 file files2 :
  pairwiseUnrelated (files1 ++ file :: files2) →
  Forall (λ later, unrelated (fileSegments file) (fileSegments later)) files2.
Proof.
  induction files1 as [|f files1 IH]; simpl; [by intros [? _]|].
  intros [_ ?]. by apply IH.
Qed.

(** C4, as the code has it. For every list of file entries such that the
    normalised path of no entry equals, or is a leading run of directories
    of, the normalised path of another, reading the normalised path of
    any entry from the hydrated tree yields a file node whose bytes are the
    UTF-8 encoding of the entry's contents (and whose flag is the entry's). *)
Theorem hydrate_read_back (files : list PlaygroundFilePayload) :
  pairwiseUnrelated files →
  ∀ file, file ∈ files →
    getFileAtPath (hydrateAppDirectory files) (normalizeEntryPath (Some (path file)))
    = Some (File (Utf8.encode (contents file)) (default false (readOnly file))).
Proof.
  intros Hpw file (files1 & files2 & ->)%list_elem_of_split.
  apply hydrate_last_writer. by eapply pairwiseUnrelated_split.
Qed.

Lemma hydrate_read_back_witness :
  getFileAtPath
    (hydrateAppDirectory [mkFile "src/main.zig" "a"; mkFile "/app/src/util.zig" "b"])
    (normalizeEntryPath (Some (path (mkFile "/app/src/util.zig" "b"))))
  = Some (File (Utf8.encode (contents (mkFile "/app/src/util.zig" "b")))
            (default false (readOnly (mkFile "/app/src/util.zig" "b")))).
Proof.
  refine (hydrate_read_back
            [mkFile "src/main.zig" "a"; mkFile "/app/src/util.zig" "b"]
            _ (mkFile "/app/src/util.zig" "b") _).
  - apply (bool_decide_unpack _). vm_compute. reflexivity.
  - right. left.
Defined.

(** C4 as stated fails: [a] and [a/b] are distinct normalised paths, and the
    second entry turns [a] into a directory, so no file is read at [a]. *)
Lemma hydrate_read_back_distinct_counterexample :
  NoDup ((λ file, normalizeEntryPath (Some (path file)))
           <$> [mkFile "a" "x"; mkFile "a/b" "y"])
  ∧ mkFile "a" "x" ∈ [mkFile "a" "x"; mkFile "a/b" "y"]
  ∧ getFileAtPath (hydrateAppDirectory [mkFile "a" "x"; mkFile "a/b" "y"])
      (normalizeEntryPath (Some (path (mkFile "a" "x"))))
    ≠ Some (File (Utf8.encode (contents (mkFile "a" "x"))) false).
Proof.
  split_and!.
  - apply (bool_decide_unpack _). vm_compute. reflexivity.
  - left.
  - vm_compute. discriminate.
Qed.

(** C5, as the code has it. An entry followed in the list only by entries
    at unrelated paths (so it is the last entry at its own path, and no
    later entry turns that path into a directory or one of its directories
    into a file) is the file read at its normalised path, with the UTF-8
    encoding of its contents, whatever entries precede it; and when
    [ensureDirectory] meets a file under the name of the next segment, that
    name is afterwards bound to a directory built from an empty one, and
    every other name of the directory is as before. *)
Theorem hydrate_last_write_wins :
  (∀ files1 file files2,
     Forall (λ later, unrelated (fileSegments file) (fileSegments later)) files2 →
     getFileAtPath (hydrateAppDirectory (files1 ++ file :: files2))
       (normalizeEntryPath (Some (path file)))
     = Some (File (Utf8.encode (contents file)) (default false (readOnly file))))
  ∧ (∀ (current : Contents) segment rest andThen data readonly,
       current !! segment = Some (File data readonly) →
       ensureDirectory (segment :: rest) andThen current !! segment
       = Some (Directory (ensureDirectory rest andThen ∅))
       ∧ ∀ other, other ≠ segment →
           ensureDirectory (segment :: rest) andThen current !! other
           = current !! other).
Proof.
  split.
  - intros. by apply hydrate_last_writer.
  - intros current segment rest andThen data readonly Hfile. simpl.
    rewrite Hfile. split.
    + by rewrite lookup_insert_eq.
    + intros other Hne. rewrite lookup_insert_ne by done.
      by rewrite lookup_delete_ne.
Qed.

Lemma hydrate_last_write_wins_witness :
  getFileAtPath
    (hydrateAppDirectory
       ([mkFile "main.zig" "old"] ++ mkFile "./main.zig" "new" :: [mkFile "lib/a.zig" "x"]))
    (normalizeEntryPath (Some (path (mkFile "./main.zig" "new"))))
  = Some (File (Utf8.encode (contents (mkFile "./main.zig" "new")))
            (default false (readOnly (mkFile "./main.zig" "new"))))
  ∧ ensureDirectory (js "a" :: [js "b"]) id {[ js "a" := File [] false ]} !! js "a"
    = Some (Directory (ensureDirectory [js "b"] id ∅)).
Proof.
  split.
  - refine (proj1 hydrate_last_write_wins
              [mkFile "main.zig" "old"] (mkFile "./main.zig" "new")
              [mkFile "lib/a.zig" "x"] _).
    apply (bool_decide_unpack _). vm_compute. reflexivity.
  - refine (proj1 (proj2 hydrate_last_write_wins
              {[ js "a" := File [] false ]} (js "a") [js "b"] id [] false _)).
    vm_compute. reflexivity.
Defined.

(** C5 as stated fails: two entries normalise to [a], and a later entry
    [a/b] turns [a] into a directory, so no file node is left at [a]. *)
Lemma hydrate_last_write_wins_counterexample :
  normalizeEntryPath (Some (path (mkFile "a" "x")))
  = normalizeEntryPath (Some (path (mkFile "./a" "y")))
  ∧ getFileAtPath
      (hydrateAppDirectory [mkFile "a" "x"; mkFile "./a" "y"; mkFile "a/b" "z"])
      (normalizeEntryPath (Some (path (mkFile "./a" "y"))))
    = None.
Proof. split; vm_compute; reflexivity. Qed.

(** ** Arrays and cloned payloads *)

Lemma pop_snoc {A} (l : list A) (x : A) : pop (l ++ [x]) = Some (x, l).
Proof.
  induction l as [|y l IH]; [done|].
  simpl. by rewrite IH.
Qed.

Lemma pop_Some_snoc {A} (l init : list A) (x : A) :
  pop l = Some (x, init) → l = init ++ [x].
Proof.
  revert x init. induction l as [|y l IH]; intros x init; [done|].
  simpl. destruct (pop l) as [[z i]|] eqn:E.
  - intros [= <- <-]. simpl. f_equal. by apply IH.
  - intros [= <- <-]. destruct l as [|w l]; [done|].
    destruct (pop_is_Some w l) as (? & ? & E'). congruence.
Qed.

Lemma pop_None {A} (l : list A) : pop l = None → l = [].
Proof.
  destruct l as [|x l]; [done|].
  destruct (pop_is_Some x l) as (? & ? & E). congruence.
Qed.

Lemma asFile_ofFile f : JsVal.asFile (JsVal.ofFile f) = f.
Proof. by destruct f as [p c [ro|]]. Qed.

Lemma asFiles_ofFile files :
  JsVal.asFiles (JsArray (JsVal.ofFile <$> files)) = Some files.
Proof.
  simpl. f_equal. induction files as [|f files IH]; [done|].
  rewrite !fmap_cons, asFile_ofFile. by f_equal.
Qed.

Lemma asStrings_JsStr (l : list JsString) :
  JsVal.asStrings (JsArray (JsStr <$> l)) = Some l.
Proof.
  simpl. f_equal. induction l as [|s l IH]; [done|].
  rewrite fmap_cons. simpl. by f_equal.
Qed.

(** ** The request queue *)

Section QueueMachine.

Context {R : Type}.
Import Queue.
Implicit Types (v : View R) (ev : Event R) (trace : list (Event R)).

Lemma process_idle v request init :
  busy v = false → pending v = init ++ [request] →
  process v = begin request v.
Proof. intros Hb Hq. unfold process. by rewrite Hb, Hq, pop_snoc. Qed.

Lemma process_busy v : busy v = true → process v = v.
Proof. intros Hb. unfold process. by rewrite Hb. Qed.

Lemma initial_singleFlight : singleFlight (initial : View R).
Proof. by right. Qed.

Lemma step_singleFlight v ev : singleFlight v → singleFlight (step v ev).
Proof.
  intros Hinv. destruct ev as [request| |]; simpl; [| done |].
  - unfold arrive. destruct Hinv as [[Hb Hfl]|(Hb & Hfl & Hq)].
    + rewrite process_busy by done. by left.
    + rewrite (process_idle _ request (pending v)) by done.
      left. simpl. rewrite Hfl. eauto.
  - destruct (flying v) as [|request others] eqn:Hfl; [done|].
    destruct Hinv as [[Hb [r Hr]]|(_ & ? & _)]; [|congruence].
    assert (others = []) as -> by congruence.
    unfold resume. case_bool_decide as Hlen.
    + destruct (pop (pending (finish v))) as [[latest init]|] eqn:Hpop.
      * apply pop_Some_snoc in Hpop.
        rewrite (process_idle _ latest init) by done.
        left. simpl. rewrite Hfl. eauto.
      * apply pop_None in Hpop. rewrite Hpop in Hlen. simpl in Hlen. lia.
    + right. simpl. rewrite Hfl. split_and!; [done..|].
      simpl in Hlen. destruct (pending v); [done | simpl in Hlen; lia].
Qed.

Lemma run_singleFlight trace v : singleFlight v → singleFlight (run trace v).
Proof.
  revert v. induction trace as [|ev trace IH]; intros v Hinv; [done|].
  simpl. apply IH. by apply step_singleFlight.
Qed.

Lemma singleFlight_at_most_one v : singleFlight v → length (flying v) ≤ 1.
Proof. intros [[_ [r ->]]|(_ & -> & _)]; simpl; lia. Qed.

(** When the activation in flight settles with requests pending, the
    latest of them is the one begun and none is left pending. *)
Lemma settle_pending v init latest :
  singleFlight v → flying v ≠ [] → pending v = init ++ [latest] →
  step v Settle
  = {| busy := true; pending := []; flying := [latest];
       ran := ran v ++ [latest] |}.
Proof.
  intros [[Hb [r Hr]]|(_ & ? & _)] Hfl Hq; [|done]. simpl. rewrite Hr.
  unfold resume. rewrite bool_decide_eq_true_2
    by (simpl; rewrite Hq, length_app; simpl; lia).
  rewrite (process_idle _ latest init) by done.
  unfold begin. simpl. by rewrite Hr.
Qed.

(** When it settles with nothing pending, the worker is idle. *)
Lemma settle_idle v :
  singleFlight v → pending v = [] →
  step v Settle
  = {| busy := false; pending := []; flying := []; ran := ran v |}.
Proof.
  intros Hinv Hq. simpl. destruct Hinv as [[Hb [r Hr]]|(Hb & Hfl & _)].
  - rewrite Hr. unfold resume, finish. simpl. rewrite Hq, Hr. done.
  - rewrite Hfl. destruct v; simpl in *; by subst.
Qed.

(** Requests that arrive while the worker is busy are appended to the
    pending list and nothing else changes. *)
Lemma arrive_busy v requests :
  busy v = true →
  run (Arrive <$> requests) v
  = {| busy := true; pending := pending v ++ requests; flying := flying v;
       ran := ran v |}.
Proof.
  revert v. induction requests as [|r requests IH]; intros v Hb.
  - simpl. rewrite app_nil_r. destruct v; simpl in *; by subst.
  - rewrite fmap_cons.
    change (run (?e :: ?l) v) with (run l (step v e)).
    simpl step. unfold arrive. rewrite process_busy by done.
    rewrite IH by done. simpl. by rewrite <- app_assoc.
Qed.

Lemma settle_idle_noop v n : flying v = [] → run (replicate n Settle) v = v.
Proof. intros Hfl. induction n as [|n IH]; [done|]. simpl. by rewrite Hfl. Qed.

(** Every execution answers an arrival of its own. *)
Lemma step_executions v ev :
  singleFlight v →
  length (ran (step v ev)) + length (pending (step v ev))
  ≤ length (ran v) + length (pending v) + arrivals [ev].
Proof.
  intros Hinv. destruct ev as [request| |]; [| simpl; lia |].
  - simpl. unfold arrive. destruct Hinv as [[Hb _]|(Hb & _ & Hq)].
    + rewrite process_busy by done. simpl. rewrite length_app. simpl. lia.
    + rewrite (process_idle _ request (pending v)) by done.
      simpl. rewrite length_app. simpl. lia.
  - destruct (pop (pending v)) as [[latest init]|] eqn:Hpop.
    + apply pop_Some_snoc in Hpop.
      destruct (flying v) as [|r others] eqn:Hfl.
      * simpl. rewrite Hfl. simpl. lia.
      * rewrite (settle_pending v init latest); [|done|by rewrite Hfl|done].
        simpl. rewrite Hpop, !length_app. simpl. lia.
    + apply pop_None in Hpop. rewrite settle_idle by done.
      simpl. lia.
Qed.

Lemma run_executions trace v :
  singleFlight v →
  length (ran (run trace v)) + length (pending (run trace v))
  ≤ length (ran v) + length (pending v) + arrivals trace.
Proof.
  revert v. induction trace as [|ev trace IH]; intros v Hinv; [simpl; lia|].
  change (run (ev :: trace) v) with (run trace (step v ev)).
  pose proof (IH _ (step_singleFlight v ev Hinv)) as H1.
  pose proof (step_executions v ev Hinv) as H2.
  assert (arrivals (ev :: trace) = arrivals [ev] + arrivals trace) as ->.
  { destruct ev; simpl; lia. }
  lia.
Qed.

(** One request, then [requests] while it is in flight, then it settles:
    the latest request is in flight and nothing is pending. It settles in
    turn: the worker is idle, and stays so. *)
Lemma burst (first : R) (requests : list R) (n : nat) :
  let busy := run (Arrive first :: (Arrive <$> requests)) initial in
  let next := step busy Settle in
  let final := run (Settle :: replicate n Settle) next in
  (flying busy = [first] ∧ pending busy = requests)
  ∧ (flying next = option_list (last requests) ∧ pending next = [])
  ∧ (flying final = [] ∧ pending final = []
     ∧ ran final = first :: option_list (last requests)
     ∧ length (ran final) ≤ length requests + 1).
Proof.
  intros vbusy next final.
  assert (vbusy = {| busy := true; pending := requests; flying := [first];
                     ran := [first] |}) as Hbusy.
  { subst vbusy. change (run (?e :: ?l) ?v) with (run l (step v e)).
    by rewrite arrive_busy. }
  assert (singleFlight vbusy) as Hinv.
  { apply run_singleFlight, initial_singleFlight. }
  split; [by rewrite Hbusy|].
  assert (singleFlight next) as Hinv' by by apply step_singleFlight.
  assert (next = {| busy := bool_decide (requests ≠ []); pending := [];
                    flying := option_list (last requests);
                    ran := first :: option_list (last requests) |}) as Hnext.
  { unfold next. destruct (pop requests) as [[latest init]|] eqn:Hpop.
    - apply pop_Some_snoc in Hpop.
      rewrite (settle_pending vbusy init latest);
        [|done|by rewrite Hbusy|by rewrite Hbusy].
      rewrite Hbusy, Hpop, last_snoc. simpl.
      rewrite bool_decide_eq_true_2; [done|]. by destruct init.
    - apply pop_None in Hpop.
      rewrite settle_idle; [|done|by rewrite Hbusy].
      by rewrite Hbusy, Hpop. }
  split; [by rewrite Hnext|].
  assert (final = {| busy := false; pending := []; flying := [];
                     ran := first :: option_list (last requests) |}) as ->.
  { subst final. change (run (?e :: ?l) ?v) with (run l (step v e)).
    rewrite (settle_idle next); [|done|by rewrite Hnext].
    rewrite settle_idle_noop by done. by rewrite Hnext. }
  simpl. split_and!; [done..|].
  destruct (last requests) eqn:Hl; simpl; [|lia].
  destruct requests; [done|]. simpl. lia.
Qed.

Lemma burst_trace (first : R) (requests : list R) (n : nat) :
  let final :=
    run (Arrive first :: (Arrive <$> requests)
         ++ Settle :: Settle :: replicate n Settle) initial in
  flying final = [] ∧ pending final = []
  ∧ ran final = first :: option_list (last requests)
  ∧ length (ran final) ≤ length requests + 1.
Proof.
  intros final. subst final. unfold run.
  rewrite app_comm_cons, foldl_app.
  change (foldl step ?v (Settle :: ?l)) with (run l (step v Settle)).
  apply (burst first requests n).
Qed.

End QueueMachine.

(** ** The two workers run the queue machine *)

Section ZigQueue.

Import ZigWorker.

Lemma isCompileRequest_toMessage request :
  isCompileRequest (toMessage request) = true.
Proof. by destruct request as [e f [o|]]. Qed.

Lemma asCompileRequest_toMessage request :
  asCompileRequest (toMessage request) = request.
Proof.
  destruct request as [e f o]. unfold asCompileRequest.
  assert (JsVal.get "entryPath" (toMessage (Build_ZigCompileRequest e f o))
          = JsStr e) as -> by done.
  assert (JsVal.get "files" (toMessage (Build_ZigCompileRequest e f o))
          = JsArray (JsVal.ofFile <$> f)) as -> by done.
  rewrite asFiles_ofFile. simpl. f_equal.
  by destruct o as [[]|].
Qed.

Lemma zigEvent_toMessage request :
  zigEvent (Message (toMessage request)) = Queue.Arrive request.
Proof.
  unfold zigEvent. by rewrite isCompileRequest_toMessage, asCompileRequest_toMessage.
Qed.

Lemma zigView_beginCompile request st :
  zigView (beginCompile request st)
  = {| Queue.busy := true; Queue.pending := compilationQueue st;
       Queue.flying := request :: inFlight st;
       Queue.ran := executed st ++ [request] |}.
Proof. unfold beginCompile. simpl. by case_bool_decide. Qed.

Lemma zigView_finishCompile rt request st :
  zigView (finishCompile rt request st) = Queue.finish (zigView st).
Proof.
  unfold finishCompile. destruct (runCompilation _ _ _) as [response cache'].
  destruct (postMessageThrows rt) as [error|]; [|done].
  unfold catchCompile. by destruct (isStackOverflow error).
Qed.

Lemma zigView_processQueue st :
  zigView (processQueue st) = Queue.process (zigView st).
Proof.
  unfold processQueue, Queue.process. simpl.
  destruct (isCompiling st); [done|].
  destruct (pop (compilationQueue st)) as [[request init]|]; [|done].
  by rewrite zigView_beginCompile.
Qed.

(** A fault listener leaves the queue variables alone when the flag is
    down. *)
Lemma zigView_fault error st :
  isStackOverflow error && isCompiling st = false →
  zigView (onError error st) = zigView st
  ∧ zigView (onUnhandledRejection error st) = zigView st.
Proof.
  intros Hcalm. unfold onError, onUnhandledRejection.
  destruct (isStackOverflow error); [|done]. simpl in Hcalm.
  unfold zigView. cbn [isCompiling compilationQueue inFlight executed
    postMessage postCompileError setCompiling setCount setModule].
  by rewrite Hcalm.
Qed.

(** As long as no fault finds the worker compiling, each event moves the
    queue variables as the machine moves. *)
Lemma zigView_step st ev :
  Queue.singleFlight (zigView st) →
  isFault ev && isCompiling st = false →
  zigView (step st ev) = Queue.step (zigView st) (zigEvent ev).
Proof.
  intros Hinv Hcalm. destruct ev as [payload|rt| |error|reason|n rt].
  - simpl. unfold onMessage. destruct (isCompileRequest payload); simpl; [|done].
    by rewrite zigView_processQueue.
  - simpl. destruct (inFlight st) as [|request others]; [done|].
    unfold resumeQueue, Queue.resume.
    pose proof (zigView_finishCompile rt request st) as Hfin.
    assert (compilationQueue (finishCompile rt request st) = compilationQueue st)
      as Hq by exact (f_equal Queue.pending Hfin).
    rewrite Hq. simpl. case_bool_decide; [|done].
    by rewrite zigView_processQueue, Hfin.
  - done.
  - exact (proj1 (zigView_fault error st Hcalm)).
  - exact (proj2 (zigView_fault reason st Hcalm)).
  - change (Queue.step (zigView st) (zigEvent (SettledEarlier n rt)))
      with (zigView st).
    unfold step. destruct Hinv as [[_ [r Hr]]|(_ & Hfl & _)]; simpl in *.
    + by rewrite Hr.
    + by rewrite Hfl.
Qed.

Lemma zigView_run trace st :
  Queue.singleFlight (zigView st) →
  undisturbed trace st = true →
  zigView (run trace st) = Queue.run (zigEvent <$> trace) (zigView st).
Proof.
  revert st. induction trace as [|ev trace IH]; intros st Hinv Hcalm; [done|].
  cbn [undisturbed] in Hcalm. apply andb_true_iff in Hcalm as [Hev Hrest].
  apply negb_true_iff in Hev.
  pose proof (zigView_step st ev Hinv Hev) as Hstep.
  rewrite fmap_cons.
  change (run (ev :: trace) st) with (run trace (step st ev)).
  change (Queue.run (?e :: ?l) ?v) with (Queue.run l (Queue.step v e)).
  rewrite <- Hstep. apply IH; [|done].
  rewrite Hstep. by apply step_singleFlight.
Qed.

Lemma zig_arrivals trace : arrivals trace = Queue.arrivals (zigEvent <$> trace).
Proof.
  induction trace as [|ev trace IH]; [done|].
  rewrite fmap_cons. destruct ev as [payload| | | | |]; simpl; rewrite IH; [|done..].
  by destruct (isCompileRequest payload).
Qed.

Lemma zig_reachable trace :
  undisturbed trace initial = true →
  Queue.singleFlight (zigView (run trace initial)).
Proof.
  intros Hcalm. rewrite (zigView_run trace initial initial_singleFlight Hcalm).
  apply run_singleFlight, initial_singleFlight.
Qed.

(** A trace without faults is undisturbed. *)
Lemma undisturbed_no_fault trace st :
  Forall (λ ev, isFault ev = false) trace → undisturbed trace st = true.
Proof.
  intros Hall. revert st. induction Hall as [|ev trace Hev _ IH]; intros st; [done|].
  cbn [undisturbed]. by rewrite Hev, IH.
Qed.

End ZigQueue.

Section RunnerQueue.

Import RunnerWorker.

Lemma isRunnerRequest_toMessage request :
  isRunnerRequest (toMessage request) = true.
Proof. by destruct request as [w [a|] [f|]]. Qed.

Lemma asRunnerRequest_toMessage request :
  asRunnerRequest (toMessage request) = request.
Proof.
  destruct request as [w a f]. unfold asRunnerRequest.
  assert (JsVal.get "wasm" (toMessage (Build_RunnerRequest w a f))
          = JsArrayBuffer w) as -> by done.
  assert (JsVal.asStrings (JsVal.get "args" (toMessage (Build_RunnerRequest w a f)))
          = a) as ->.
  { destruct a as [a|]; [|by destruct f]. apply asStrings_JsStr. }
  assert (JsVal.asFiles (JsVal.get "files" (toMessage (Build_RunnerRequest w a f)))
          = f) as ->; [|done].
  destruct f as [f|]; [|by destruct a].
  destruct a; apply asFiles_ofFile.
Qed.

Lemma runnerEvent_toMessage request :
  runnerEvent (Message (toMessage request)) = Queue.Arrive request.
Proof.
  unfold runnerEvent. by rewrite isRunnerRequest_toMessage, asRunnerRequest_toMessage.
Qed.

Lemma runnerView_finishRun rt request st :
  runnerView (finishRun rt request st) = Queue.finish (runnerView st).
Proof.
  unfold finishRun. by destruct (postMessageThrows rt) as [[]|].
Qed.

Lemma runnerView_processQueue st :
  runnerView (processQueue st) = Queue.process (runnerView st).
Proof.
  unfold processQueue, Queue.process. simpl.
  destruct (isRunning st); [done|].
  by destruct (pop (runQueue st)) as [[request init]|].
Qed.

Lemma runnerView_step st ev :
  runnerView (step st ev) = Queue.step (runnerView st) (runnerEvent ev).
Proof.
  destruct ev as [payload|rt| |error|reason]; simpl;
    [| |done|unfold onError; by destruct (isStackOverflow error)
     |unfold onUnhandledRejection; by destruct (isStackOverflow reason)].
  - unfold onMessage. destruct (isRunnerRequest payload); simpl; [|done].
    by rewrite runnerView_processQueue.
  - destruct (inFlight st) as [|request others]; [done|].
    unfold resumeQueue, Queue.resume.
    pose proof (runnerView_finishRun rt request st) as Hfin.
    assert (runQueue (finishRun rt request st) = runQueue st)
      as Hq by exact (f_equal Queue.pending Hfin).
    rewrite Hq. simpl. case_bool_decide; [|done].
    by rewrite runnerView_processQueue, Hfin.
Qed.

Lemma runnerView_run trace st :
  runnerView (run trace st) = Queue.run (runnerEvent <$> trace) (runnerView st).
Proof.
  revert st. induction trace as [|ev trace IH]; intros st; [done|].
  rewrite fmap_cons. simpl. by rewrite IH, runnerView_step.
Qed.

Lemma runner_arrivals trace :
  arrivals trace = Queue.arrivals (runnerEvent <$> trace).
Proof.
  induction trace as [|ev trace IH]; [done|].
  rewrite fmap_cons. destruct ev as [payload| | | |]; simpl; rewrite IH; [|done..].
  by destruct (isRunnerRequest payload).
Qed.

Lemma runner_reachable trace : Queue.singleFlight (runnerView (run trace initial)).
Proof. rewrite runnerView_run. apply run_singleFlight, initial_singleFlight. Qed.

End RunnerQueue.

(** C1. In the run worker after any sequence of events, and in the compile
    worker after any sequence of events in which no stack-exhaustion fault
    finds the worker compiling, at most one request is in flight and no
    more requests have been executed than well-formed messages have
    arrived; when the request in flight completes while requests are
    pending, exactly the most recently arrived one is begun and the pending
    list is emptied; and for one request followed by N requests that arrive
    while it is in flight, once everything has completed nothing is in
    flight, nothing is pending, and the executions are the first request
    and the last of the N, at most N + 1. *)
Theorem single_flight_last_request_wins :
  (∀ trace,
     ZigWorker.undisturbed trace ZigWorker.initial = true →
     let st := ZigWorker.run trace ZigWorker.initial in
     length (ZigWorker.inFlight st) ≤ 1
     ∧ length (ZigWorker.executed st) ≤ ZigWorker.arrivals trace
     ∧ ∀ rt init latest,
         ZigWorker.inFlight st ≠ [] →
         ZigWorker.compilationQueue st = init ++ [latest] →
         let st' := ZigWorker.step st (ZigWorker.Settled rt) in
         ZigWorker.inFlight st' = [latest]
         ∧ ZigWorker.compilationQueue st' = []
         ∧ ZigWorker.executed st' = ZigWorker.executed st ++ [latest])
  ∧ (∀ first requests rt1 rt2 rts,
       let final :=
         ZigWorker.run
           (ZigWorker.Message (ZigWorker.toMessage first)
            :: (ZigWorker.Message ∘ ZigWorker.toMessage <$> requests)
            ++ ZigWorker.Settled rt1 :: ZigWorker.Settled rt2
            :: (ZigWorker.Settled <$> rts))
           ZigWorker.initial in
       ZigWorker.inFlight final = [] ∧ ZigWorker.compilationQueue final = []
       ∧ ZigWorker.executed final = first :: option_list (last requests)
       ∧ length (ZigWorker.executed final) ≤ length requests + 1)
  ∧ (∀ trace,
       let st := RunnerWorker.run trace RunnerWorker.initial in
       length (RunnerWorker.inFlight st) ≤ 1
       ∧ length (RunnerWorker.executed st) ≤ RunnerWorker.arrivals trace
       ∧ ∀ rt init latest,
           RunnerWorker.inFlight st ≠ [] →
           RunnerWorker.runQueue st = init ++ [latest] →
           let st' := RunnerWorker.step st (RunnerWorker.Settled rt) in
           RunnerWorker.inFlight st' = [latest]
           ∧ RunnerWorker.runQueue st' = []
           ∧ RunnerWorker.executed st' = RunnerWorker.executed st ++ [latest])
  ∧ (∀ first requests rt1 rt2 rts,
       let final :=
         RunnerWorker.run
           (RunnerWorker.Message (RunnerWorker.toMessage first)
            :: (RunnerWorker.Message ∘ RunnerWorker.toMessage <$> requests)
            ++ RunnerWorker.Settled rt1 :: RunnerWorker.Settled rt2
            :: (RunnerWorker.Settled <$> rts))
           RunnerWorker.initial in
       RunnerWorker.inFlight final = [] ∧ RunnerWorker.runQueue final = []
       ∧ RunnerWorker.executed final = first :: option_list (last requests)
       ∧ length (RunnerWorker.executed final) ≤ length requests + 1).
Proof.
  split_and!.
  - intros trace Hcalm st. pose proof (zig_reachable trace Hcalm) as Hinv.
    split_and!.
    + apply (singleFlight_at_most_one _ Hinv).
    + pose proof (run_executions (zigEvent <$> trace) Queue.initial
                    initial_singleFlight) as Hle.
      rewrite <- zig_arrivals in Hle.
      change Queue.initial with (zigView ZigWorker.initial) in Hle.
      rewrite <- (zigView_run trace ZigWorker.initial initial_singleFlight Hcalm)
        in Hle.
      simpl in Hle. fold st in Hle. lia.
    + intros rt init latest Hfl Hq st'.
      pose proof (settle_pending (zigView st) init latest Hinv Hfl Hq) as Hst.
      change Queue.Settle with (zigEvent (ZigWorker.Settled rt)) in Hst.
      rewrite <- (zigView_step st (ZigWorker.Settled rt) Hinv eq_refl) in Hst.
      fold st' in Hst.
      split_and!.
      * exact (f_equal Queue.flying Hst).
      * exact (f_equal Queue.pending Hst).
      * exact (f_equal Queue.ran Hst).
  - intros first requests rt1 rt2 rts final.
    pose proof (burst_trace first requests (length rts)) as Hb.
    assert (zigView final
            = Queue.run (Queue.Arrive first :: (Queue.Arrive <$> requests)
                         ++ Queue.Settle :: Queue.Settle
                         :: replicate (length rts) Queue.Settle) Queue.initial)
      as Hv.
    { subst final.
      rewrite (zigView_run _ ZigWorker.initial initial_singleFlight).
      - f_equal.
        rewrite fmap_cons, fmap_app, !fmap_cons, zigEvent_toMessage.
        f_equal. f_equal.
        + rewrite <- list_fmap_compose. apply list_fmap_ext. intros _ r _.
          apply zigEvent_toMessage.
        + do 2 f_equal. clear. induction rts; simpl; by f_equal.
      - apply undisturbed_no_fault. apply Forall_cons. split; [done|].
        apply Forall_app. split; [by apply Forall_fmap, Forall_true|].
        do 2 (apply Forall_cons; split; [done|]).
        by apply Forall_fmap, Forall_true. }
    cbv zeta in Hb. rewrite <- Hv in Hb. exact Hb.
  - intros trace st. pose proof (runner_reachable trace) as Hinv. split_and!.
    + apply (singleFlight_at_most_one _ Hinv).
    + pose proof (run_executions (runnerEvent <$> trace) Queue.initial
                    initial_singleFlight) as Hle.
      rewrite <- runner_arrivals in Hle.
      change Queue.initial with (runnerView RunnerWorker.initial) in Hle.
      rewrite <- runnerView_run in Hle. simpl in Hle. fold st in Hle. lia.
    + intros rt init latest Hfl Hq st'.
      pose proof (settle_pending (runnerView st) init latest Hinv Hfl Hq) as Hst.
      change Queue.Settle with (runnerEvent (RunnerWorker.Settled rt)) in Hst.
      rewrite <- runnerView_step in Hst. fold st' in Hst.
      split_and!.
      * exact (f_equal Queue.flying Hst).
      * exact (f_equal Queue.pending Hst).
      * exact (f_equal Queue.ran Hst).
  - intros first requests rt1 rt2 rts final.
    pose proof (burst_trace first requests (length rts)) as Hb.
    assert (runnerView final
            = Queue.run (Queue.Arrive first :: (Queue.Arrive <$> requests)
                         ++ Queue.Settle :: Queue.Settle
                         :: replicate (length rts) Queue.Settle) Queue.initial)
      as Hv.
    { subst final. rewrite runnerView_run. f_equal.
      rewrite fmap_cons, fmap_app, !fmap_cons, runnerEvent_toMessage.
      f_equal. f_equal.
      - rewrite <- list_fmap_compose. apply list_fmap_ext. intros _ r _.
        apply runnerEvent_toMessage.
      - do 2 f_equal. clear. induction rts; simpl; by f_equal. }
    cbv zeta in Hb. rewrite <- Hv in Hb. exact Hb.
Qed.

Lemma single_flight_last_request_wins_witness :
  ZigWorker.inFlight
    (ZigWorker.step
       (ZigWorker.run
          [ZigWorker.ErrorEvent stackExhaustion;
           ZigWorker.Message (ZigWorker.toMessage (exampleCompileRequest "a.zig"));
           ZigWorker.Message (ZigWorker.toMessage (exampleCompileRequest "b.zig"));
           ZigWorker.Message (ZigWorker.toMessage (exampleCompileRequest "c.zig"))]
          ZigWorker.initial)
       (ZigWorker.Settled (exampleZigRuntime 0)))
  = [exampleCompileRequest "c.zig"]
  ∧ RunnerWorker.inFlight
      (RunnerWorker.step
         (RunnerWorker.run
            [RunnerWorker.Message (RunnerWorker.toMessage (exampleRunRequest [1%N]));
             RunnerWorker.ErrorEvent stackExhaustion;
             RunnerWorker.Message (RunnerWorker.toMessage (exampleRunRequest [2%N]));
             RunnerWorker.Message (RunnerWorker.toMessage (exampleRunRequest [3%N]))]
            RunnerWorker.initial)
         (RunnerWorker.Settled (exampleRunnerRuntime 0)))
    = [exampleRunRequest [3%N]].
Proof.
  split.
  - refine (proj1 (proj2 (proj2 (proj1 single_flight_last_request_wins
      [ZigWorker.ErrorEvent stackExhaustion;
       ZigWorker.Message (ZigWorker.toMessage (exampleCompileRequest "a.zig"));
       ZigWorker.Message (ZigWorker.toMessage (exampleCompileRequest "b.zig"));
       ZigWorker.Message (ZigWorker.toMessage (exampleCompileRequest "c.zig"))] _))
      (exampleZigRuntime 0) [exampleCompileRequest "b.zig"]
      (exampleCompileRequest "c.zig") _ _)).
    + vm_compute. reflexivity.
    + vm_compute. discriminate.
    + vm_compute. reflexivity.
  - refine (proj1 (proj2 (proj2 (proj1 (proj2 (proj2 single_flight_last_request_wins))
      [RunnerWorker.Message (RunnerWorker.toMessage (exampleRunRequest [1%N]));
       RunnerWorker.ErrorEvent stackExhaustion;
       RunnerWorker.Message (RunnerWorker.toMessage (exampleRunRequest [2%N]));
       RunnerWorker.Message (RunnerWorker.toMessage (exampleRunRequest [3%N]))]))
      (exampleRunnerRuntime 0) [exampleRunRequest [2%N]]
      (exampleRunRequest [3%N]) _ _)).
    + vm_compute. discriminate.
    + vm_compute. reflexivity.
Defined.

(** In the compile worker a stack-exhaustion fault that arrives while a
    compilation is in flight lowers [isCompiling] under it, and the next
    well-formed message begins a second compilation beside the first. *)
Lemma single_flight_fault_counterexample :
  let st :=
    ZigWorker.run
      [ZigWorker.Message (ZigWorker.toMessage (exampleCompileRequest "a.zig"));
       ZigWorker.ErrorEvent stackExhaustion;
       ZigWorker.Message (ZigWorker.toMessage (exampleCompileRequest "b.zig"))]
      ZigWorker.initial in
  ZigWorker.inFlight st = [exampleCompileRequest "b.zig"; exampleCompileRequest "a.zig"]
  ∧ ¬ length (ZigWorker.inFlight st) ≤ 1.
Proof. cbv zeta. split; [vm_compute; reflexivity|vm_compute; lia]. Qed.

(** ** The compile pipeline *)

(** C10. [buildZigArgs] returns the same fixed vector whatever the
    optimisation level, and two compile requests that differ only in
    [optimize] compile to the same response and leave the same module
    cache. *)
Theorem optimize_has_no_effect :
  (∀ entryPath o1 o2,
     ZigWorker.buildZigArgs entryPath o1 = ZigWorker.buildZigArgs entryPath o2
     ∧ ZigWorker.buildZigArgs entryPath o1
       = [js "zig.wasm"; js "build-exe"; entryPath; js "-fno-llvm"; js "-fno-lld";
          js "-fno-ubsan-rt"; js "-fno-entry"])
  ∧ (∀ rt cache entryPath files o1 o2,
       ZigWorker.runCompilation rt cache
         {| entryPath := entryPath; files := files; optimize := o1 |}
       = ZigWorker.runCompilation rt cache
           {| entryPath := entryPath; files := files; optimize := o2 |}).
Proof. done. Qed.

(** C2. When the compiler was started and exits with a nonzero code, the
    response of [runCompilation] is a compile-error whose message is
    [Zig exited with code N] and which carries the captured stdout and
    stderr; [handleCompile] posts exactly that response, and the page posts
    nothing to the run worker for it. When the exit code is zero and there
    is no file at [main.wasm] in the workspace the compiler leaves, the
    response is a compile-error with the message
    [Compiled artifact missing at main.wasm], which differs from every
    exit-code message. *)
Theorem compile_failure_is_reported
    (rt : ZigWorker.Runtime) (cache : option N) (request : ZigCompileRequest)
    (stdlibDirectory : Contents) (wasmModule : N) (cache' : option N) (exitCode : Z) :
  let ran :=
    ZigWorker.start rt
      (ZigWorker.buildZigArgs (normalizeEntryPath (Some (entryPath request)))
         (optimize request))
      (hydrateAppDirectory (files request)) stdlibDirectory ∅ in
  ZigWorker.getZigStdlibDirectory rt = Normal stdlibDirectory →
  ZigWorker.loadZigModule rt cache = (Normal wasmModule, cache') →
  ZigWorker.instantiate rt wasmModule = Normal () →
  ZigWorker.exit ran = Normal exitCode →
  (exitCode ≠ 0%Z →
   let response :=
     ZigCompileFailure (ZigWorker.stdoutText ran) (ZigWorker.stderrText ran)
       (ZigWorker.elapsedSince rt)
       (js "Zig exited with code " ++ numberToString exitCode) in
   ZigWorker.runCompilation rt cache request = (response, cache')
   ∧ (∀ st, ZigWorker.zigModulePromise st = cache →
            ZigWorker.postMessageThrows rt = None →
            ZigWorker.outbox (ZigWorker.finishCompile rt request st)
            = ZigWorker.outbox st ++ [response])
   ∧ (∀ runnerAvailable lastCompileFiles,
        Host.handleCompileMessage runnerAvailable lastCompileFiles response = []))
  ∧ (exitCode = 0%Z → extractWasmArtifact (ZigWorker.appAfter ran) = None →
     ZigWorker.runCompilation rt cache request
     = (ZigCompileFailure (ZigWorker.stdoutText ran) (ZigWorker.stderrText ran)
          (ZigWorker.elapsedSince rt)
          (js "Compiled artifact missing at main.wasm"), cache'))
  ∧ (∀ n, js "Zig exited with code " ++ numberToString n
          ≠ js "Compiled artifact missing at main.wasm").
Proof.
  intros ran Hstd Hload Hinst Hexit. split_and!.
  - intros Hne response.
    assert (ZigWorker.runCompilation rt cache request = (response, cache')) as Hrun.
    { unfold ZigWorker.runCompilation. rewrite Hstd, Hload, Hinst.
      fold ran. rewrite Hexit. by rewrite bool_decide_eq_true_2. }
    split_and!; [done| |done].
    intros st Hcache Hpost. unfold ZigWorker.finishCompile.
    by rewrite Hcache, Hrun, Hpost.
  - intros -> Hmissing. unfold ZigWorker.runCompilation.
    rewrite Hstd, Hload, Hinst. fold ran. rewrite Hexit.
    rewrite bool_decide_eq_false_2 by (by intros ?). by rewrite Hmissing.
  - intros n. by vm_compute.
Qed.

Lemma compile_failure_is_reported_witness :
  ZigWorker.runCompilation (exampleZigRuntime 3) None (exampleCompileRequest "main.zig")
  = (ZigCompileFailure [] (js "note") 12 (js "Zig exited with code 3"), Some 1%N)
  ∧ ZigWorker.runCompilation silentZigRuntime None (exampleCompileRequest "main.zig")
    = (ZigCompileFailure [] [] 12 (js "Compiled artifact missing at main.wasm"),
       Some 1%N).
Proof.
  split.
  - refine (proj1 (proj1 (compile_failure_is_reported (exampleZigRuntime 3) None
      (exampleCompileRequest "main.zig") ∅ 1%N (Some 1%N) 3%Z
      eq_refl eq_refl eq_refl eq_refl) _)).
    lia.
  - refine (proj1 (proj2 (compile_failure_is_reported silentZigRuntime None
      (exampleCompileRequest "main.zig") ∅ 1%N (Some 1%N) 0%Z
      eq_refl eq_refl eq_refl eq_refl)) eq_refl _).
    vm_compute. reflexivity.
Defined.

(** ** The run pipeline *)

(** C6. When the artifact compiles and instantiates and the program runs to
    an exit code, [executeProgram] returns a run-success response with that
    exit code and the captured output, whether the code is zero or not, and
    [handleRun] posts exactly that response; a run-error response comes only
    from an error thrown by compilation, instantiation or the run. *)
Theorem nonzero_exit_is_run_success
    (rt : RunnerWorker.Runtime) (request : RunnerRequest) (exitCode : Z) :
  let ran :=
    RunnerWorker.start rt (RunnerWorker.buildArgs (args request))
      (hydrateAppDirectory (default [] (runFiles request))) in
  (RunnerWorker.instantiateProgram rt (wasm request) = Normal () →
   RunnerWorker.exit ran = Normal exitCode →
   let response :=
     RunnerSuccess (RunnerWorker.stdoutText ran) (RunnerWorker.stderrText ran)
       exitCode (RunnerWorker.elapsedSince rt) in
   RunnerWorker.executeProgram rt request = response
   ∧ runnerResponseType response = js "run-success"
   ∧ ∀ st, RunnerWorker.postMessageThrows rt = None →
           RunnerWorker.outbox (RunnerWorker.finishRun rt request st)
           = RunnerWorker.outbox st ++ [response])
  ∧ (runnerResponseType (RunnerWorker.executeProgram rt request) = js "run-error" →
     (∃ error, RunnerWorker.instantiateProgram rt (wasm request) = Throw error)
     ∨ (∃ error, RunnerWorker.exit ran = Throw error)).
Proof.
  intros ran. split.
  - intros Hinst Hexit response.
    assert (RunnerWorker.executeProgram rt request = response) as Hrun.
    { unfold RunnerWorker.executeProgram. rewrite Hinst. fold ran.
      by rewrite Hexit. }
    split_and!; [done..|].
    intros st Hpost. unfold RunnerWorker.finishRun. by rewrite Hrun, Hpost.
  - unfold RunnerWorker.executeProgram.
    destruct (RunnerWorker.instantiateProgram rt (wasm request)) as [[]|error];
      [|intros _; left; by eexists].
    fold ran. destruct (RunnerWorker.exit ran) as [code|error].
    + intros Htype. by vm_compute in Htype.
    + intros _. right. by eexists.
Qed.

Lemma nonzero_exit_is_run_success_witness :
  RunnerWorker.executeProgram (exampleRunnerRuntime 3) (exampleRunRequest [0%N])
  = RunnerSuccess (js "Hello") [] 3 3.
Proof.
  refine (proj1 (proj1 (nonzero_exit_is_run_success (exampleRunnerRuntime 3)
    (exampleRunRequest [0%N]) 3%Z) eq_refl eq_refl)).
Defined.

(** ** Malformed messages *)

(** C7. A message that fails the guard of a worker makes the [message]
    listener post exactly one error response (compile-error in the compile
    worker, run-error in the run worker) and change nothing else; and the
    guard fails for a payload with a wrong [type] tag, with [files] not an
    array or [entryPath] not a string, and, in the run worker, with [wasm]
    not an [ArrayBuffer]. *)
Theorem malformed_message_is_rejected (payload : JsValue) :
  (ZigWorker.isCompileRequest payload = false →
   ∀ st, ZigWorker.onMessage payload st
         = ZigWorker.postMessage
             (ZigCompileFailure [] [] 0
                (js "Invalid message for zig-worker (expected compile request)"))
             st)
  ∧ (RunnerWorker.isRunnerRequest payload = false →
     ∀ st, RunnerWorker.onMessage payload st
           = RunnerWorker.postMessage
               (RunnerFailure (js "Invalid runner request payload") (Some []) None)
               st)
  ∧ (JsVal.isLiteral "compile" (JsVal.get "type" payload) = false
     ∨ JsVal.isArray (JsVal.get "files" payload) = false
     ∨ JsVal.isString (JsVal.get "entryPath" payload) = false →
     ZigWorker.isCompileRequest payload = false)
  ∧ (JsVal.isLiteral "run" (JsVal.get "type" payload) = false
     ∨ JsVal.isArrayBuffer (JsVal.get "wasm" payload) = false →
     RunnerWorker.isRunnerRequest payload = false).
Proof.
  split_and!.
  - intros Hguard st. unfold ZigWorker.onMessage. by rewrite Hguard.
  - intros Hguard st. unfold RunnerWorker.onMessage. by rewrite Hguard.
  - unfold ZigWorker.isCompileRequest. intros [H|[H|H]]; rewrite H;
      destruct (negb _ || negb _); try done;
      rewrite ?andb_false_r; done.
  - unfold RunnerWorker.isRunnerRequest. intros [H|H]; rewrite H;
      destruct (negb _ || negb _); try done;
      rewrite ?andb_false_r; done.
Qed.

Lemma malformed_message_is_rejected_witness :
  ZigWorker.outbox
    (ZigWorker.onMessage (JsObject [(js "type", JsStr (js "run"))]) ZigWorker.initial)
  = [ZigCompileFailure [] [] 0
       (js "Invalid message for zig-worker (expected compile request)")]
  ∧ RunnerWorker.outbox
      (RunnerWorker.onMessage
         (JsObject [(js "type", JsStr (js "run")); (js "wasm", JsStr (js "AGFzbQ=="))])
         RunnerWorker.initial)
    = [RunnerFailure (js "Invalid runner request payload") (Some []) None].
Proof.
  split.
  - refine (f_equal ZigWorker.outbox
      (proj1 (malformed_message_is_rejected (JsObject [(js "type", JsStr (js "run"))]))
         _ ZigWorker.initial)).
    refine (proj1 (proj2 (proj2 (malformed_message_is_rejected
      (JsObject [(js "type", JsStr (js "run"))])))) _).
    left. vm_compute. reflexivity.
  - refine (f_equal RunnerWorker.outbox
      (proj1 (proj2 (malformed_message_is_rejected
         (JsObject [(js "type", JsStr (js "run")); (js "wasm", JsStr (js "AGFzbQ=="))])))
         _ RunnerWorker.initial)).
    refine (proj2 (proj2 (proj2 (malformed_message_is_rejected
      (JsObject [(js "type", JsStr (js "run")); (js "wasm", JsStr (js "AGFzbQ=="))]))))
      _).
    right. vm_compute. reflexivity.
Defined.

(** ** The fault monitor *)

Lemma countType_app {A} (type : A → JsString) tag (l k : list A) :
  countType type tag (l ++ k) = countType type tag l + countType type tag k.
Proof. unfold countType. by rewrite filter_app, length_app. Qed.

Lemma runner_never_fatal (posted : list RunnerResponse) :
  countType runnerResponseType "fatal-error" posted = 0.
Proof.
  unfold countType. induction posted as [|response posted IH]; [done|].
  rewrite filter_cons_False; [done|]. by destruct response.
Qed.

(** C8, as the code has it. A stack-exhaustion-shaped error that reaches the
    [error] listener or the [unhandledrejection] listener of the compile
    worker, or the [catch] of [handleCompile] (as when posting the response
    throws), makes the worker post one compile-error diagnostic and exactly
    one fatal-error message [stack-overflow], and leaves the cached module
    cleared and the compilation counter at zero. In the run worker the two
    listeners post exactly one run-error response and no fatal-error
    message: the run worker has no such message and no module cache. *)
Theorem stack_exhaustion_handling (error : Thrown) :
  isStackOverflow error = true →
  (∀ st,
     let st' := ZigWorker.onError error st in
     ZigWorker.outbox st'
     = ZigWorker.outbox st
       ++ [ZigCompileFailure [] [] 0 ZigWorker.GLOBAL_OVERFLOW_MESSAGE;
           ZigFatalError (js "stack-overflow")]
     ∧ countType zigResponseType "fatal-error" (ZigWorker.outbox st')
       = countType zigResponseType "fatal-error" (ZigWorker.outbox st) + 1
     ∧ ZigWorker.zigModulePromise st' = None
     ∧ ZigWorker.compilationCount st' = 0)
  ∧ (∀ st,
       let st' := ZigWorker.onUnhandledRejection error st in
       ZigWorker.outbox st'
       = ZigWorker.outbox st
         ++ [ZigCompileFailure [] [] 0 ZigWorker.ASYNC_OVERFLOW_MESSAGE;
             ZigFatalError (js "stack-overflow")]
       ∧ countType zigResponseType "fatal-error" (ZigWorker.outbox st')
         = countType zigResponseType "fatal-error" (ZigWorker.outbox st) + 1
       ∧ ZigWorker.zigModulePromise st' = None
       ∧ ZigWorker.compilationCount st' = 0)
  ∧ (∀ rt request st,
       ZigWorker.postMessageThrows rt = Some error →
       let st' := ZigWorker.finishCompile rt request st in
       ZigWorker.outbox st'
       = ZigWorker.outbox st
         ++ [ZigFatalError (js "stack-overflow");
             ZigCompileFailure [] [] 0 ZigWorker.CAUGHT_OVERFLOW_MESSAGE]
       ∧ countType zigResponseType "fatal-error" (ZigWorker.outbox st')
         = countType zigResponseType "fatal-error" (ZigWorker.outbox st) + 1
       ∧ ZigWorker.zigModulePromise st' = None
       ∧ ZigWorker.compilationCount st' = 0)
  ∧ (∀ st,
       RunnerWorker.outbox (RunnerWorker.onError error st)
       = RunnerWorker.outbox st
         ++ [RunnerFailure
               (js "Program caused stack overflow - likely infinite recursion in your code")
               (Some []) None]
       ∧ RunnerWorker.outbox (RunnerWorker.onUnhandledRejection error st)
         = RunnerWorker.outbox st
           ++ [RunnerFailure
                 (js "Program caused stack overflow during async operation")
                 (Some []) None]
       ∧ countType runnerResponseType "fatal-error"
           (RunnerWorker.outbox (RunnerWorker.onError error st)) = 0
       ∧ countType runnerResponseType "fatal-error"
           (RunnerWorker.outbox (RunnerWorker.onUnhandledRejection error st)) = 0).
Proof.
  intros Hshape. split_and!.
  - intros st st'. subst st'. unfold ZigWorker.onError. rewrite Hshape. simpl.
    split_and!; [by rewrite <- app_assoc| |done..].
    by rewrite <- app_assoc, countType_app.
  - intros st st'. subst st'. unfold ZigWorker.onUnhandledRejection.
    rewrite Hshape. simpl.
    split_and!; [by rewrite <- app_assoc| |done..].
    by rewrite <- app_assoc, countType_app.
  - intros rt request st Hpost st'. subst st'. unfold ZigWorker.finishCompile.
    destruct (ZigWorker.runCompilation _ _ _) as [response cache'].
    rewrite Hpost. unfold ZigWorker.catchCompile. rewrite Hshape. simpl.
    split_and!; [by rewrite <- app_assoc| |done..].
    by rewrite <- app_assoc, countType_app.
  - intros st. unfold RunnerWorker.onError, RunnerWorker.onUnhandledRejection.
    rewrite Hshape. split_and!; [done..| |]; apply runner_never_fatal.
Qed.

Lemma stack_exhaustion_handling_witness :
  ZigWorker.outbox (ZigWorker.onError stackExhaustion ZigWorker.initial)
  = ZigWorker.outbox ZigWorker.initial
    ++ [ZigCompileFailure [] [] 0 ZigWorker.GLOBAL_OVERFLOW_MESSAGE;
        ZigFatalError (js "stack-overflow")].
Proof.
  refine (proj1 (proj1 (stack_exhaustion_handling stackExhaustion _)
                   ZigWorker.initial)).
  vm_compute. reflexivity.
Defined.

(** C8 as stated fails in the run worker: a stack exhaustion at its [error]
    listener, or thrown by the program while a run is in flight, yields one
    run-error response and no fatal-error message. *)
Lemma stack_exhaustion_run_worker_counterexample :
  isStackOverflow stackExhaustion = true
  ∧ countType runnerResponseType "fatal-error"
      (RunnerWorker.outbox (RunnerWorker.onError stackExhaustion RunnerWorker.initial))
    ≠ 1
  ∧ runnerResponseType
      <$> RunnerWorker.outbox
            (RunnerWorker.run
               [RunnerWorker.Message (RunnerWorker.toMessage (exampleRunRequest [0%N]));
                RunnerWorker.Settled overflowingRunnerRuntime]
               RunnerWorker.initial)
    = [js "run-error"].
Proof. split_and!; vm_compute; done. Qed.

(** ** The standard-library version check *)

Section StdlibVersion.

Import StdlibDirectory.

Variable PLAYGROUND_ZIG_VERSION : JsString.
Variable decode : Bytes → JsString.
Variable hasConsoleWarn : bool.

Lemma matchVersionAt_nonempty source captured :
  matchVersionAt source = Some captured → captured ≠ [].
Proof.
  unfold matchVersionAt. intros H.
  repeat (apply bind_Some in H as (? & _ & H)).
  case_bool_decide as Hc; [done|].
  apply bind_Some in H as (? & _ & [= <-]). done.
Qed.

(** The capture group of [VERSION_REGEX] is never empty. *)
Lemma versionRegexExec_nonempty source captured :
  versionRegexExec source = Some captured → captured ≠ [].
Proof.
  induction source as [|c source IH]; cbn [versionRegexExec].
  - destruct (matchVersionAt []) eqn:E; [|done].
    intros [= <-]. by eapply matchVersionAt_nonempty.
  - destruct (matchVersionAt (c :: source)) eqn:E; [|done].
    intros [= <-]. by eapply matchVersionAt_nonempty.
Qed.

Lemma extractStdlibVersion_nonempty tree version :
  extractStdlibVersion decode tree = Some version → version ≠ [].
Proof.
  unfold extractStdlibVersion. repeat case_match; try done.
  apply versionRegexExec_nonempty.
Qed.

Lemma warnOnce_at_most_one message c :
  let c' := warnOnce hasConsoleWarn message c in
  stdlibVersionWarningIssued c' = true
  ∧ (stdlibVersionWarningIssued c = true → c' = c)
  ∧ (stdlibVersionWarningIssued c = false →
     warnings c' = warnings c ++ (if hasConsoleWarn then [message] else [])).
Proof.
  unfold warnOnce. destruct (stdlibVersionWarningIssued c) eqn:E; simpl.
  - by split_and!.
  - split_and!; [done..|]. intros _. destruct hasConsoleWarn; [done|].
    by rewrite app_nil_r.
Qed.

End StdlibVersion.

(** C9. When a version string is extracted from [std/builtin.zig] of the
    archive and differs from the expected playground version,
    [assertStdlibVersion] throws, and so does [hydrateStdlibTree]; when no
    version string is found, hydration returns the tree, and the warning is
    issued on the first such call only: the flag is set afterwards, a
    console that has already warned is left as it is, and so is the console
    of any later check. *)
Theorem stdlib_version_check
    (PLAYGROUND_ZIG_VERSION : JsString) (decode : Bytes → JsString)
    (hasConsoleWarn : bool) (entries : list TarLocalFile)
    (c : StdlibDirectory.Console) :
  let tree := foldl StdlibDirectory.addEntry ∅ entries in
  let hydrate :=
    StdlibDirectory.hydrateStdlibTree PLAYGROUND_ZIG_VERSION decode hasConsoleWarn in
  size tree ≠ 0 →
  (∀ version,
     StdlibDirectory.extractStdlibVersion decode tree = Some version →
     version ≠ PLAYGROUND_ZIG_VERSION →
     StdlibDirectory.assertStdlibVersion PLAYGROUND_ZIG_VERSION decode
       hasConsoleWarn tree c
     = (Throw (StdlibDirectory.versionMismatch PLAYGROUND_ZIG_VERSION version), c)
     ∧ hydrate entries c
       = (Throw (StdlibDirectory.versionMismatch PLAYGROUND_ZIG_VERSION version), c))
  ∧ (StdlibDirectory.extractStdlibVersion decode tree = None →
     let c' :=
       StdlibDirectory.warnOnce hasConsoleWarn
         StdlibDirectory.VERSION_UNKNOWN_WARNING c in
     hydrate entries c = (Normal tree, c')
     ∧ StdlibDirectory.stdlibVersionWarningIssued c' = true
     ∧ (StdlibDirectory.stdlibVersionWarningIssued c = true → c' = c)
     ∧ (StdlibDirectory.stdlibVersionWarningIssued c = false →
        StdlibDirectory.warnings c'
        = StdlibDirectory.warnings c
          ++ (if hasConsoleWarn then [StdlibDirectory.VERSION_UNKNOWN_WARNING]
              else []))
     ∧ hydrate entries c' = (Normal tree, c')).
Proof.
  intros tree hydrate Hsize.
  assert (∀ k, hydrate entries k
               = match StdlibDirectory.assertStdlibVersion PLAYGROUND_ZIG_VERSION
                         decode hasConsoleWarn tree k with
                 | (Throw error, k') => (Throw error, k')
                 | (Normal _, k') => (Normal tree, k')
                 end) as Hhyd.
  { intros k. subst hydrate. unfold StdlibDirectory.hydrateStdlibTree.
    fold tree. by rewrite bool_decide_eq_false_2. }
  split.
  - intros version Hver Hne.
    assert (StdlibDirectory.assertStdlibVersion PLAYGROUND_ZIG_VERSION decode
              hasConsoleWarn tree c
            = (Throw (StdlibDirectory.versionMismatch PLAYGROUND_ZIG_VERSION version),
               c)) as Hassert.
    { unfold StdlibDirectory.assertStdlibVersion. rewrite Hver.
      rewrite bool_decide_eq_false_2
        by (by eapply extractStdlibVersion_nonempty).
      by rewrite bool_decide_eq_true_2. }
    split; [done|]. by rewrite Hhyd, Hassert.
  - intros Hnone c'.
    assert (∀ k, StdlibDirectory.assertStdlibVersion PLAYGROUND_ZIG_VERSION decode
                   hasConsoleWarn tree k
                 = (Normal (),
                    StdlibDirectory.warnOnce hasConsoleWarn
                      StdlibDirectory.VERSION_UNKNOWN_WARNING k)) as Hassert.
    { intros k. unfold StdlibDirectory.assertStdlibVersion. by rewrite Hnone. }
    destruct (warnOnce_at_most_one hasConsoleWarn
                StdlibDirectory.VERSION_UNKNOWN_WARNING c) as (Hset & Hkeep & Hwarn).
    fold c' in Hset, Hkeep, Hwarn.
    split_and!; [by rewrite Hhyd, Hassert|done..|].
    rewrite Hhyd, Hassert. f_equal.
    by apply (warnOnce_at_most_one hasConsoleWarn).
Qed.

Lemma stdlib_version_check_witness :
  StdlibDirectory.hydrateStdlibTree (js "0.15.1") id true
    (exampleArchive exampleBuiltin) freshConsole
  = (Throw (StdlibDirectory.versionMismatch (js "0.15.1") (js "0.15.2")), freshConsole)
  ∧ StdlibDirectory.hydrateStdlibTree (js "0.15.1") id true
      (exampleArchive (js "const std = 1;")) freshConsole
    = (Normal (foldl StdlibDirectory.addEntry ∅ (exampleArchive (js "const std = 1;"))),
       StdlibDirectory.warnOnce true StdlibDirectory.VERSION_UNKNOWN_WARNING
         freshConsole).
Proof.
  split.
  - refine (proj2 (proj1 (stdlib_version_check (js "0.15.1") id true
      (exampleArchive exampleBuiltin) freshConsole _) (js "0.15.2") _ _)).
    + vm_compute. discriminate.
    + vm_compute. reflexivity.
    + vm_compute. discriminate.
  - refine (proj1 (proj2 (stdlib_version_check (js "0.15.1") id true
      (exampleArchive (js "const std = 1;")) freshConsole _) _)).
    + vm_compute. discriminate.
    + vm_compute. reflexivity.
Defined.

(** * Further properties of the same code *)

(** ** The normaliser applied to its own output *)

Section NormaliserFixpoint.

Implicit Types (s : JsString) (l : list JsString).

Lemma trim_fixed s : edgesClean s → Js.trim s = s.
Proof.
  intros [Hh Hl]. unfold Js.trim, Js.trimEnd, Js.trimStart.
  rewrite (dropWhile_keep _ s Hh).
  rewrite dropWhile_keep; [apply reverse_involutive|].
  intros c Hc. apply Hl. by rewrite <- head_reverse.
Qed.

Lemma trim_fixed_edges s : Js.trim s = s → edgesClean s.
Proof.
  unfold Js.trim, Js.trimEnd, Js.trimStart. intros Heq.
  set (a := Js.dropWhile Js.isWhiteSpace s) in *.
  set (b := Js.dropWhile Js.isWhiteSpace (reverse a)) in *.
  split; intros c Hc.
  - destruct (dropWhile_suffix Js.isWhiteSpace (reverse a)) as [k Hk].
    fold b in Hk. apply (f_equal reverse) in Hk.
    rewrite reverse_involutive, reverse_app, Heq in Hk.
    apply (dropWhile_head Js.isWhiteSpace s). fold a. rewrite Hk.
    destruct s; [done|]. exact Hc.
  - apply (dropWhile_head Js.isWhiteSpace (reverse a)). fold b.
    rewrite <- Heq in Hc. by rewrite last_reverse in Hc.
Qed.

Lemma join_last sep l y : y ≠ [] → last (Js.join sep (l ++ [y])) = last y.
Proof.
  intros Hy. induction l as [|x l IH]; [done|].
  change ((x :: l) ++ [y]) with (x :: (l ++ [y])).
  assert (Js.join sep (x :: (l ++ [y])) = x ++ sep :: Js.join sep (l ++ [y])) as ->.
  { simpl. destruct (l ++ [y]) eqn:E; [by destruct l|done]. }
  rewrite last_app, last_cons, IH.
  destruct (last y) eqn:El; [done|]. by apply last_None in El.
Qed.

Lemma join_edgesClean sep l :
  l ≠ [] → Forall (λ x, x ≠ [] ∧ edgesClean x) l → edgesClean (Js.join sep l).
Proof.
  intros Hne Hall. split; intros c Hc.
  - destruct l as [|x l]; [done|].
    apply Forall_cons in Hall as [[Hx [Hxh _]] _].
    rewrite join_head in Hc by done. by apply Hxh.
  - destruct l as [|x l] using rev_ind; [done|].
    apply Forall_app in Hall as [_ [[Hx [_ Hxl]] _]%Forall_cons].
    rewrite join_last in Hc by done. by apply Hxl.
Qed.

Lemma startsWith_head_ne (p s : JsString) c :
  head p = Some c → head s ≠ Some c → Js.startsWith p s = false.
Proof.
  destruct p as [|a p]; [done|]. intros [= ->]. destruct s as [|b s]; [done|].
  simpl. intros Hne. destruct (N.eqb_spec c b) as [->|]; [by destruct Hne|done].
Qed.

Lemma backslashesToSlashes_fixed s :
  Js.BACKSLASH ∉ s → Js.backslashesToSlashes s = s.
Proof.
  unfold Js.backslashesToSlashes. induction s as [|c s IH]; [done|].
  intros [Hc Hs]%not_elem_of_cons. rewrite fmap_cons, IH by done.
  by destruct (N.eqb_spec c Js.BACKSLASH).
Qed.

Lemma keptSegments_spec path :
  keptSegments path ≠ []
  ∧ Forall (λ segment, cleanSegment segment ∧ (Js.SLASH ∉ segment)
                       ∧ (Js.BACKSLASH ∉ segment) ∧ Js.trim segment = segment)
      (keptSegments path)
  ∧ normalizeEntryPath path = Js.join Js.SLASH (keptSegments path).
Proof.
  unfold keptSegments.
  pose proof (entrySegments_spec path) as Hspec.
  pose proof (entrySegments_trimmed path) as Htrim.
  destruct (normalizeEntryPath_cases path) as [[E ->]|[Hne ->]].
  - rewrite E. split_and!; [done| |done].
    apply Forall_singleton. split_and!.
    + by vm_compute.
    + by apply (bool_decide_unpack _).
    + by apply (bool_decide_unpack _).
    + by vm_compute.
  - destruct (entrySegments path) as [|x l] eqn:E; [done|].
    split_and!; [done| |done].
    apply Forall_forall. intros segment Hin.
    rewrite Forall_forall in Hspec. rewrite Forall_forall in Htrim.
    destruct (Hspec _ Hin) as (? & ? & ?). split_and!; auto.
Qed.

Lemma entrySegments_join path :
  entrySegments (Some (Js.join Js.SLASH (keptSegments path))) = keptSegments path.
Proof.
  destruct (keptSegments_spec path) as (Hne & Hall & _).
  set (l := keptSegments path) in *. set (r := Js.join Js.SLASH l).
  assert (Forall (λ x : JsString, x ≠ [] ∧ edgesClean x) l) as Hedges.
  { eapply Forall_impl; [exact Hall|]. intros x ([Hx _] & _ & _ & Ht).
    split; [done|]. by apply trim_fixed_edges. }
  assert (Js.BACKSLASH ∉ r) as Hback.
  { intros [Hc|(piece & Hp & Hc)]%join_subseteq; [done|].
    rewrite Forall_forall in Hall. by destruct (Hall _ Hp) as (_ & _ & Hb & _). }
  assert (head r ≠ Some Js.SLASH) as Hhead.
  { destruct l as [|x k] eqn:El; [done|]. subst r.
    apply Forall_cons in Hall as [([Hx _] & Hs & _) _].
    rewrite join_head by done. destruct x as [|c x]; [done|].
    simpl. intros [= ->]. apply Hs. left. }
  unfold entrySegments. simpl default.
  rewrite (trim_fixed r) by by apply join_edgesClean.
  rewrite backslashesToSlashes_fixed by done.
  rewrite (startsWith_head_ne (LEGACY_APP_PREFIX ++ [Js.SLASH]) r Js.SLASH)
    by done.
  rewrite (startsWith_head_ne LEGACY_APP_PREFIX r Js.SLASH) by done.
  assert (Js.stripLeadingSlashes r = r) as ->.
  { unfold Js.stripLeadingSlashes. apply dropWhile_keep. intros c Hc.
    destruct (N.eqb_spec c Js.SLASH) as [->|]; [|done]. by destruct Hhead. }
  subst r. rewrite split_join; [|done|].
  2:{ eapply Forall_impl; [exact Hall|]. by intros x (_ & ? & _). }
  clear Hne Hedges Hback Hhead. induction Hall as [|x k (Hc & _ & _ & Ht) _ IH];
    [done|].
  rewrite fmap_cons, Ht, filter_cons_True; [by rewrite IH|].
  destruct Hc as (Hx & ? & ?). split_and!; [|done..].
  destruct x; [done|simpl; lia].
Qed.

Lemma normalizeEntryPath_fixed path :
  normalizeEntryPath (Some (normalizeEntryPath path)) = normalizeEntryPath path.
Proof.
  destruct (keptSegments_spec path) as (Hne & _ & Hr).
  rewrite Hr at 1. unfold normalizeEntryPath at 1. rewrite entrySegments_join.
  rewrite <- Hr. rewrite bool_decide_eq_true_2; [done|].
  pose proof (normalizeEntryPath_nonempty path).
  destruct (normalizeEntryPath path); [done|simpl; lia].
Qed.

End NormaliserFixpoint.

Lemma normalizeWorkerPath_eq path :
  Playground.normalizeWorkerPath path = normalizeEntryPath path.
Proof. reflexivity. Qed.

(** X1. Normalising a normalised path changes nothing, and a path the page
    has normalised with [normalizeWorkerPath] passes the workers'
    [normalizeEntryPath] unchanged. *)
Theorem normalizeEntryPath_idempotent (path : option JsString) :
  normalizeEntryPath (Some (normalizeEntryPath path)) = normalizeEntryPath path
  ∧ normalizeEntryPath (Some (Playground.normalizeWorkerPath path))
    = Playground.normalizeWorkerPath path.
Proof.
  split; exact (normalizeEntryPath_fixed path).
Qed.

(** X2. For the request the page posts for the editor's source, the entry
    path the compile worker hands to the compiler (third argument) is the
    page's entry path, and the workspace the worker hydrates has, at that
    path, a writable file holding the UTF-8 encoding of the source. *)
Theorem page_request_entry_file (initialEntry : option Playground.PlaygroundFile)
    (source : JsString) :
  let entry := Playground.entryPath initialEntry in
  let request := Playground.compileRequest entry source in
  ZigWorker.buildZigArgs (normalizeEntryPath (Some (entryPath request)))
    (optimize request) !! 2 = Some entry
  ∧ getFileAtPath (hydrateAppDirectory (files request))
      (normalizeEntryPath (Some (entryPath request)))
    = Some (File (Utf8.encode source) false)
  ∧ ZigWorker.isCompileRequest (ZigWorker.toMessage request) = true.
Proof.
  intros entry request.
  assert (normalizeEntryPath (Some entry) = entry) as Hfix.
  { unfold entry, Playground.entryPath.
    exact (normalizeEntryPath_fixed _). }
  split_and!.
  - simpl. by rewrite Hfix.
  - pose proof (hydrate_last_writer [] (filePayload entry source (Some false)) []
                  (Forall_nil_2 _)) as Hread.
    simpl in Hread. simpl. by rewrite Hfix in *.
  - apply isCompileRequest_toMessage.
Qed.

(** ** Writing and reading the workspace tree *)

Section TreeAccess.

Implicit Types (root current : Contents) (segments : list JsString).

Lemma getFileAtSegments_is_file segments current node :
  getFileAtSegments segments current = Some node → ∃ data readonly, node = File data readonly.
Proof.
  revert current. induction segments as [|x segments IH]; intros current; [done|].
  simpl. destruct (current !! x) as [entry|]; [|done].
  destruct segments as [|y segments].
  - destruct entry; [|done]. intros [= <-]. eauto.
  - destruct entry as [|sub]; [done|]. apply IH.
Qed.

(** What is read after a file is put somewhere was either just put, at
    exactly these segments, or was read before. *)
Lemma get_putFile_inv segments segments' data readonly current node :
  getFileAtSegments segments (putFile segments' (File data readonly) current)
  = Some node →
  (segments = segments' ∧ node = File data readonly)
  ∨ getFileAtSegments segments current = Some node.
Proof.
  revert segments current.
  induction segments' as [|x segments' IH]; intros segments current; [by right|].
  destruct segments as [|s rest]; [done|].
  destruct (decide (s = x)) as [->|Hne].
  - destruct segments' as [|y segments'].
    + rewrite putFile_single. simpl. rewrite lookup_insert_eq.
      destruct rest; [|done]. intros [= <-]. by left.
    + rewrite putFile_cons.
      assert (∀ sub m,
        getFileAtSegments (x :: rest)
          (<[x := Directory (putFile (y :: segments') (File data readonly) sub)]> m)
        = Some node →
        (rest = y :: segments' ∧ node = File data readonly)
        ∨ (rest ≠ [] ∧ getFileAtSegments rest sub = Some node)) as Hgo.
      { intros sub m. simpl. rewrite lookup_insert_eq.
        destruct rest as [|s2 rest]; [done|]. intros Hget.
        destruct (IH _ _ Hget) as [[-> ->]|Hold]; [by left|by right]. }
      destruct (current !! x) as [[d ro|existing]|] eqn:E; intros Hget;
        destruct (Hgo _ _ Hget) as [[-> ->]|[Hrest Hold]];
        try (by left);
        try (by rewrite getFileAtSegments_empty in Hold).
      right. simpl. rewrite E. by destruct rest.
  - assert (putFile (x :: segments') (File data readonly) current !! s = current !! s)
      as Hs.
    { destruct segments' as [|y segments'].
      - rewrite putFile_single. by rewrite lookup_insert_ne.
      - rewrite putFile_cons. repeat case_match;
          rewrite lookup_insert_ne by done; try done.
        by rewrite lookup_delete_ne. }
    simpl. rewrite Hs. by right.
Qed.

Lemma hydrate_reads_only_entries files segments node :
  getFileAtSegments segments (hydrateAppDirectory files) = Some node →
  ∃ file, file ∈ files ∧ fileSegments file = segments ∧ node = fileNode file.
Proof.
  unfold hydrateAppDirectory.
  induction files as [|file files IH] using rev_ind.
  - simpl. by rewrite getFileAtSegments_empty.
  - rewrite foldl_snoc, hydrateStep_putFile. intros Hget.
    apply get_putFile_inv in Hget as [[-> ->]|Hold].
    + exists file. split_and!; [|done..]. apply elem_of_app. right. left.
    + destruct (IH Hold) as (f & Hin & ? & ?). exists f.
      split_and!; [|done..]. apply elem_of_app. by left.
Qed.

End TreeAccess.

(** X3. After [writeFile] at a path that has at least one segment, reading
    the same path gives a file with the UTF-8 encoding of the contents and
    the given flag, and reading a path neither of whose segment lists
    extends the other gives what it gave before. *)
Theorem writeFile_then_read (root : Contents) (relativePath contents : JsString)
    (readOnly : bool) :
  toSegments relativePath ≠ [] →
  getFileAtPath (writeFile root relativePath contents readOnly) relativePath
  = Some (File (Utf8.encode contents) readOnly)
  ∧ ∀ other,
      unrelated (toSegments other) (toSegments relativePath) →
      getFileAtPath (writeFile root relativePath contents readOnly) other
      = getFileAtPath root other.
Proof.
  intros Hne. split.
  - by apply get_putFile_same.
  - intros other Hun. by apply get_putFile_other.
Qed.

Lemma writeFile_then_read_witness :
  getFileAtPath (writeFile ∅ (js " src/./a.zig") (js "x") true) (js " src/./a.zig")
  = Some (File (Utf8.encode (js "x")) true).
Proof.
  refine (proj1 (writeFile_then_read ∅ (js " src/./a.zig") (js "x") true _)).
  vm_compute. discriminate.
Defined.

(** X4. A path without segments (only slashes, dots and blanks) is never
    written and never read: [writeFile] leaves the tree as it is and
    [getFileAtPath] returns null; and whatever [getFileAtPath] returns is a
    file, never a directory. *)
Theorem segmentless_paths_and_directories (root : Contents) (relativePath : JsString) :
  (toSegments relativePath = [] →
   (∀ contents readOnly, writeFile root relativePath contents readOnly = root)
   ∧ getFileAtPath root relativePath = None)
  ∧ (∀ node, getFileAtPath root relativePath = Some node →
             ∃ data readonly, node = File data readonly).
Proof.
  split.
  - intros Hnone. unfold writeFile, getFileAtPath. by rewrite Hnone.
  - intros node. apply getFileAtSegments_is_file.
Qed.

Lemma segmentless_paths_and_directories_witness :
  (∀ contents readOnly,
     writeFile {[ js "a" := File [] false ]} (js "/ ./ /") contents readOnly
     = {[ js "a" := File [] false ]})
  ∧ getFileAtPath {[ js "a" := File [] false ]} (js "/ ./ /") = None.
Proof.
  refine (proj1 (segmentless_paths_and_directories
                   {[ js "a" := File [] false ]} (js "/ ./ /")) _).
  vm_compute. reflexivity.
Defined.

(** X5. Hydration invents nothing: a file read from the hydrated tree at
    some path is the file node of an entry of the list whose normalised
    path has the same segments; in particular nothing can be read from the
    tree of an empty list. *)
Theorem hydrate_reads_entries_only (files : list PlaygroundFilePayload)
    (relativePath : JsString) (node : Inode) :
  getFileAtPath (hydrateAppDirectory files) relativePath = Some node →
  ∃ file, file ∈ files
          ∧ toSegments (normalizeEntryPath (Some (path file)))
            = toSegments relativePath
          ∧ node = File (Utf8.encode (contents file)) (default false (readOnly file)).
Proof. apply hydrate_reads_only_entries. Qed.

Lemma hydrate_reads_entries_only_witness :
  ∃ file, file ∈ [mkFile "a.zig" "x"; mkFile "b.zig" "y"]
          ∧ toSegments (normalizeEntryPath (Some (path file)))
            = toSegments (js "./b.zig")
          ∧ File (Utf8.encode (js "y")) false
            = File (Utf8.encode (contents file)) (default false (readOnly file)).
Proof.
  refine (hydrate_reads_entries_only [mkFile "a.zig" "x"; mkFile "b.zig" "y"]
            (js "./b.zig") (File (Utf8.encode (js "y")) false) _).
  vm_compute. reflexivity.
Defined.

(** ** The compile pipeline, continued *)

(** X6. [runCompilation] never answers with a fatal-error message, and it
    answers compile-success only when the standard library loaded, the
    module loaded and instantiated, the compiler exited with code 0 and a
    file is at [main.wasm] in the workspace it left; the response then
    carries the bytes of that file and the captured output. *)
Theorem compile_success_means_artifact
    (rt : ZigWorker.Runtime) (cache : option N) (request : ZigCompileRequest) :
  zigResponseType (ZigWorker.runCompilation rt cache request).1 ≠ js "fatal-error"
  ∧ ∀ wasm stdout stderr durationMs,
      (ZigWorker.runCompilation rt cache request).1
      = ZigCompileSuccess wasm stdout stderr durationMs →
      ∃ stdlibDirectory wasmModule,
        ZigWorker.getZigStdlibDirectory rt = Normal stdlibDirectory
        ∧ (ZigWorker.loadZigModule rt cache).1 = Normal wasmModule
        ∧ ZigWorker.instantiate rt wasmModule = Normal ()
        ∧ let ran :=
            ZigWorker.start rt
              (ZigWorker.buildZigArgs (normalizeEntryPath (Some (entryPath request)))
                 (optimize request))
              (hydrateAppDirectory (files request)) stdlibDirectory ∅ in
          ZigWorker.exit ran = Normal 0%Z
          ∧ extractWasmArtifact (ZigWorker.appAfter ran) = Some wasm
          ∧ stdout = ZigWorker.stdoutText ran
          ∧ stderr = ZigWorker.stderrText ran
          ∧ durationMs = ZigWorker.elapsedSince rt.
Proof.
  unfold ZigWorker.runCompilation.
  destruct (ZigWorker.getZigStdlibDirectory rt) as [stdlibDirectory|e1];
    [|by split].
  destruct (ZigWorker.loadZigModule rt cache) as [[wasmModule|e2] cache'];
    [|by split].
  destruct (ZigWorker.instantiate rt wasmModule) as [[]|e3] eqn:Hinst; [|by split].
  set (ran := ZigWorker.start rt _ _ _ _).
  destruct (ZigWorker.exit ran) as [exitCode|e4] eqn:Hexit; [|by split].
  case_bool_decide as Hcode; [by split|].
  destruct (extractWasmArtifact (ZigWorker.appAfter ran)) as [wasmBuffer|] eqn:Hart;
    [|by split].
  split; [done|]. intros wasm stdout stderr durationMs [= <- <- <- <-].
  exists stdlibDirectory, wasmModule. split_and!; try done.
  fold ran. by rewrite Hexit, Hcode.
Qed.

Lemma compile_success_means_artifact_witness :
  ∃ stdlibDirectory wasmModule,
    ZigWorker.getZigStdlibDirectory (exampleZigRuntime 0) = Normal stdlibDirectory
    ∧ (ZigWorker.loadZigModule (exampleZigRuntime 0) None).1 = Normal wasmModule
    ∧ ZigWorker.instantiate (exampleZigRuntime 0) wasmModule = Normal ()
    ∧ let ran :=
        ZigWorker.start (exampleZigRuntime 0)
          (ZigWorker.buildZigArgs
             (normalizeEntryPath (Some (entryPath (exampleCompileRequest "main.zig"))))
             (optimize (exampleCompileRequest "main.zig")))
          (hydrateAppDirectory (files (exampleCompileRequest "main.zig")))
          stdlibDirectory ∅ in
      ZigWorker.exit ran = Normal 0%Z
      ∧ extractWasmArtifact (ZigWorker.appAfter ran) = Some [0; 97; 115; 109]%N
      ∧ [] = ZigWorker.stdoutText ran
      ∧ js "note" = ZigWorker.stderrText ran
      ∧ 12%Z = ZigWorker.elapsedSince (exampleZigRuntime 0).
Proof.
  refine (proj2 (compile_success_means_artifact (exampleZigRuntime 0) None
                   (exampleCompileRequest "main.zig"))
            [0; 97; 115; 109]%N [] (js "note") 12%Z _).
  vm_compute. reflexivity.
Defined.

(** X7. The module cache across one compilation: a cached module is still
    cached afterwards and the fetch of zig.wasm is not consulted; from an
    empty cache, a module is cached afterwards only if the fetch and
    compilation of zig.wasm returned it, and a failed fetch leaves the
    cache empty and gives a compile-error with the error's description. *)
Theorem module_cache_across_compilation
    (rt : ZigWorker.Runtime) (request : ZigCompileRequest) :
  (∀ wasmModule fetched,
     (ZigWorker.runCompilation rt (Some wasmModule) request).2 = Some wasmModule
     ∧ ZigWorker.runCompilation
         {| ZigWorker.getZigStdlibDirectory := ZigWorker.getZigStdlibDirectory rt;
            ZigWorker.fetchAndCompileZig := fetched;
            ZigWorker.instantiate := ZigWorker.instantiate rt;
            ZigWorker.start := ZigWorker.start rt;
            ZigWorker.elapsedSince := ZigWorker.elapsedSince rt;
            ZigWorker.postMessageThrows := ZigWorker.postMessageThrows rt |}
         (Some wasmModule) request
       = ZigWorker.runCompilation rt (Some wasmModule) request)
  ∧ (∀ wasmModule,
       (ZigWorker.runCompilation rt None request).2 = Some wasmModule →
       ZigWorker.fetchAndCompileZig rt = Normal wasmModule)
  ∧ (∀ stdlibDirectory error,
       ZigWorker.getZigStdlibDirectory rt = Normal stdlibDirectory →
       ZigWorker.fetchAndCompileZig rt = Throw error →
       ZigWorker.runCompilation rt None request
       = (ZigCompileFailure [] [] (ZigWorker.elapsedSince rt) (describeThrown error),
          None)).
Proof.
  split_and!.
  - intros wasmModule fetched. unfold ZigWorker.runCompilation. simpl.
    split; [|done]. repeat case_match; simplify_eq; done.
  - intros wasmModule. unfold ZigWorker.runCompilation, ZigWorker.loadZigModule.
    destruct (ZigWorker.fetchAndCompileZig rt) as [m|e];
      repeat case_match; simplify_eq; simpl; intros; simplify_eq; done.
  - intros stdlibDirectory error Hstd Hfetch.
    unfold ZigWorker.runCompilation, ZigWorker.loadZigModule.
    by rewrite Hstd, Hfetch.
Qed.

Lemma module_cache_across_compilation_witness :
  ZigWorker.fetchAndCompileZig (exampleZigRuntime 0) = Normal 1%N.
Proof.
  refine (proj1 (proj2 (module_cache_across_compilation (exampleZigRuntime 0)
                          (exampleCompileRequest "main.zig"))) 1%N _).
  vm_compute. reflexivity.
Defined.

(** ** The periodic refresh of the compiler module *)

Section Refresh.

Import ZigWorker.

Lemma beginCompile_count request st :
  compilationCount (beginCompile request st)
  = (if bool_decide (MAX_COMPILATIONS_BEFORE_REFRESH ≤ S (compilationCount st))
     then 0 else S (compilationCount st))
  ∧ zigModulePromise (beginCompile request st)
    = (if bool_decide (MAX_COMPILATIONS_BEFORE_REFRESH ≤ S (compilationCount st))
       then None else zigModulePromise st).
Proof. unfold beginCompile. simpl. by case_bool_decide. Qed.

Lemma processQueue_count st :
  compilationCount st < MAX_COMPILATIONS_BEFORE_REFRESH →
  compilationCount (processQueue st) < MAX_COMPILATIONS_BEFORE_REFRESH.
Proof.
  intros Hlt. unfold processQueue. destruct (isCompiling st); [done|].
  destruct (pop (compilationQueue st)) as [[request init]|]; [|done].
  rewrite (proj1 (beginCompile_count _ _)). unfold MAX_COMPILATIONS_BEFORE_REFRESH.
  case_bool_decide; simpl in *; lia.
Qed.

Lemma finishCompile_count rt request st :
  compilationCount (finishCompile rt request st) = compilationCount st
  ∨ compilationCount (finishCompile rt request st) = 0.
Proof.
  unfold finishCompile. destruct (runCompilation _ _ _) as [response cache'].
  destruct (postMessageThrows rt) as [error|]; [|by left].
  unfold catchCompile. destruct (isStackOverflow error); [by right|by left].
Qed.

Lemma step_count st ev :
  compilationCount st < MAX_COMPILATIONS_BEFORE_REFRESH →
  compilationCount (step st ev) < MAX_COMPILATIONS_BEFORE_REFRESH.
Proof.
  intros Hlt.
  assert (∀ rt request st',
            compilationCount st' = compilationCount st →
            compilationCount (resumeQueue (finishCompile rt request st'))
            < MAX_COMPILATIONS_BEFORE_REFRESH) as Hsettle.
  { intros rt request st' Hst'.
    assert (compilationCount (finishCompile rt request st')
            < MAX_COMPILATIONS_BEFORE_REFRESH) as Hfin.
    { destruct (finishCompile_count rt request st') as [-> | ->];
        [by rewrite Hst'|].
      unfold MAX_COMPILATIONS_BEFORE_REFRESH. lia. }
    unfold resumeQueue. case_bool_decide; [|done]. by apply processQueue_count. }
  destruct ev as [payload|rt| |error|reason|n rt]; unfold step.
  - unfold onMessage. destruct (isCompileRequest payload); simpl; [|done].
    by apply processQueue_count.
  - destruct (inFlight st) as [|request others]; [done|]. by apply Hsettle.
  - done.
  - unfold onError. destruct (isStackOverflow error); [|done].
    unfold MAX_COMPILATIONS_BEFORE_REFRESH. simpl. lia.
  - unfold onUnhandledRejection. destruct (isStackOverflow reason); [|done].
    unfold MAX_COMPILATIONS_BEFORE_REFRESH. simpl. lia.
  - destruct (inFlight st) as [|latest earlier]; [done|].
    destruct (earlier !! n) as [request|]; [|done]. by apply Hsettle.
Qed.

Lemma run_count trace st :
  compilationCount st < MAX_COMPILATIONS_BEFORE_REFRESH →
  compilationCount (run trace st) < MAX_COMPILATIONS_BEFORE_REFRESH.
Proof.
  revert st. induction trace as [|ev trace IH]; intros st Hlt; [done|].
  simpl. apply IH. by apply step_count.
Qed.

(** One request that completes, from an idle worker. *)
Lemma round_idle st request rt :
  isCompiling st = false → inFlight st = [] → compilationQueue st = [] →
  postMessageThrows rt = None →
  let st' := step (step st (Message (toMessage request))) (Settled rt) in
  isCompiling st' = false ∧ inFlight st' = [] ∧ compilationQueue st' = []
  ∧ compilationCount st'
    = (if bool_decide (MAX_COMPILATIONS_BEFORE_REFRESH ≤ S (compilationCount st))
       then 0 else S (compilationCount st)).
Proof.
  intros Hidle Hfl Hq Hpost.
  destruct st as [m b q c o f e]. simpl in Hidle, Hfl, Hq. subst b f q.
  set (st0 := Build_State m false [] c o [] e).
  set (st1 := step st0 (Message (toMessage request))).
  assert (inFlight st1 = [request] ∧ compilationQueue st1 = []
          ∧ compilationCount st1
            = (if bool_decide (MAX_COMPILATIONS_BEFORE_REFRESH ≤ S c)
               then 0 else S c)) as (Hf1 & Hq1 & Hc1).
  { subst st1. unfold step, onMessage.
    rewrite isCompileRequest_toMessage, asCompileRequest_toMessage.
    change (negb true) with false. cbv iota.
    unfold processQueue, beginCompile. simpl. by case_bool_decide. }
  intros st'.
  assert (isCompiling (finishCompile rt request st1) = false
          ∧ inFlight (finishCompile rt request st1) = []
          ∧ compilationQueue (finishCompile rt request st1) = []
          ∧ compilationCount (finishCompile rt request st1) = compilationCount st1)
    as (Hb2 & Hf2 & Hq2 & Hc2).
  { unfold finishCompile. destruct (runCompilation _ _ _) as [response cache'].
    rewrite Hpost. simpl. by rewrite Hf1, Hq1. }
  assert (st' = finishCompile rt request st1) as ->.
  { subst st'. change (step st0 (Message (toMessage request))) with st1.
    unfold step. rewrite Hf1. unfold resumeQueue. rewrite Hq2.
    by rewrite bool_decide_eq_false_2 by (simpl; lia). }
  by rewrite Hb2, Hf2, Hq2, Hc2, Hc1.
Qed.

Lemma succ_mod_50 n :
  S n `mod` 50 = if bool_decide (50 ≤ S (n `mod` 50)) then 0 else S (n `mod` 50).
Proof.
  pose proof (Nat.div_mod_eq n 50) as Hdm.
  pose proof (Nat.mod_upper_bound n 50 ltac:(lia)) as Hub.
  case_bool_decide; symmetry.
  - apply (Nat.mod_unique _ 50 (S (n `div` 50))); lia.
  - apply (Nat.mod_unique _ 50 (n `div` 50)); lia.
Qed.

Lemma rounds_count rounds :
  Forall (λ round, postMessageThrows round.2 = None) rounds →
  let st := run (roundsTrace rounds) initial in
  isCompiling st = false ∧ inFlight st = [] ∧ compilationQueue st = []
  ∧ compilationCount st = length rounds `mod` MAX_COMPILATIONS_BEFORE_REFRESH.
Proof.
  induction rounds as [|[request rt] rounds IH] using rev_ind; intros Hall st.
  - by subst st.
  - apply Forall_app in Hall as [Hall [Hpost _]%Forall_cons]. simpl in Hpost.
    destruct (IH Hall) as (Hb & Hf & Hq & Hc).
    subst st.
    assert (run (roundsTrace (rounds ++ [(request, rt)])) initial
            = step (step (run (roundsTrace rounds) initial)
                      (Message (toMessage request))) (Settled rt)) as ->.
    { unfold roundsTrace, run. by rewrite bind_app, foldl_app. }
    destruct (round_idle (run (roundsTrace rounds) initial) request rt Hb Hf Hq Hpost)
      as (Hb' & Hf' & Hq' & Hc').
    split_and!; [done..|]. rewrite Hc', Hc, length_app.
    unfold MAX_COMPILATIONS_BEFORE_REFRESH.
    replace (length rounds + length [(request, rt)]) with (S (length rounds))
      by (simpl; lia).
    symmetry. apply succ_mod_50.
Qed.

End Refresh.

(** X8. The compilation counter stays below the refresh threshold of 50 in
    every state the compile worker reaches, and the fault listeners keep it
    there; [handleCompile] discards the cached module exactly when the
    counter reaches 50, resetting it; and after n requests each of which
    completes (its response posted) before the next arrives, the worker is
    idle and the counter is n modulo 50. *)
Theorem refresh_counter :
  (∀ trace,
     ZigWorker.compilationCount (ZigWorker.run trace ZigWorker.initial)
     < ZigWorker.MAX_COMPILATIONS_BEFORE_REFRESH)
  ∧ (∀ error st,
       ZigWorker.compilationCount st < ZigWorker.MAX_COMPILATIONS_BEFORE_REFRESH →
       ZigWorker.compilationCount (ZigWorker.onError error st)
       < ZigWorker.MAX_COMPILATIONS_BEFORE_REFRESH
       ∧ ZigWorker.compilationCount (ZigWorker.onUnhandledRejection error st)
         < ZigWorker.MAX_COMPILATIONS_BEFORE_REFRESH)
  ∧ (∀ request st,
       ZigWorker.compilationCount st < ZigWorker.MAX_COMPILATIONS_BEFORE_REFRESH →
       let st' := ZigWorker.beginCompile request st in
       if bool_decide (ZigWorker.compilationCount st = 49)
       then ZigWorker.zigModulePromise st' = None
            ∧ ZigWorker.compilationCount st' = 0
       else ZigWorker.zigModulePromise st' = ZigWorker.zigModulePromise st
            ∧ ZigWorker.compilationCount st' = S (ZigWorker.compilationCount st))
  ∧ (∀ rounds,
       Forall (λ round, ZigWorker.postMessageThrows round.2 = None) rounds →
       let st := ZigWorker.run (roundsTrace rounds) ZigWorker.initial in
       ZigWorker.isCompiling st = false
       ∧ ZigWorker.compilationCount st = length rounds `mod` 50).
Proof.
  split_and!.
  - intros trace. apply run_count. unfold ZigWorker.MAX_COMPILATIONS_BEFORE_REFRESH.
    simpl. lia.
  - intros error st Hlt.
    unfold ZigWorker.onError, ZigWorker.onUnhandledRejection.
    destruct (isStackOverflow error); simpl; [|done].
    unfold ZigWorker.MAX_COMPILATIONS_BEFORE_REFRESH. lia.
  - intros request st Hlt st'. subst st'.
    destruct (beginCompile_count request st) as [-> ->].
    unfold ZigWorker.MAX_COMPILATIONS_BEFORE_REFRESH in *.
    repeat case_bool_decide; try done; lia.
  - intros rounds Hall st. by destruct (rounds_count rounds Hall) as (? & _ & _ & ?).
Qed.

Lemma refresh_counter_witness :
  ZigWorker.compilationCount
    (ZigWorker.run
       (roundsTrace (replicate 51 (exampleCompileRequest "main.zig", exampleZigRuntime 0)))
       ZigWorker.initial)
  = length (replicate 51 (exampleCompileRequest "main.zig", exampleZigRuntime 0))
    `mod` 50.
Proof.
  refine (proj2 (proj2 (proj2 (proj2 refresh_counter)) 
    (replicate 51 (exampleCompileRequest "main.zig", exampleZigRuntime 0)) _)).
  apply Forall_replicate. reflexivity.
Defined.

(** ** From a compile-success to a run *)

(** X9. The page forwards a compile-success response to an available run
    worker as one message that passes the run worker's guard; an idle run
    worker executes it with the artifact bytes of the response, the files
    of the last compile request and the single argument [main.wasm], and
    posts the response of that execution. With no run worker available
    nothing is posted. *)
Theorem compile_success_is_run
    (wasm : Bytes) (stdout stderr : JsString) (durationMs : Z)
    (lastCompileFiles : list PlaygroundFilePayload) (rt : RunnerWorker.Runtime) :
  let response := ZigCompileSuccess wasm stdout stderr durationMs in
  let request := {| wasm := wasm; args := None; runFiles := Some lastCompileFiles |} in
  Host.handleCompileMessage true lastCompileFiles response
  = [RunnerWorker.toMessage request]
  ∧ Host.handleCompileMessage false lastCompileFiles response = []
  ∧ RunnerWorker.isRunnerRequest (RunnerWorker.toMessage request) = true
  ∧ RunnerWorker.buildArgs (args request) = [js "main.wasm"]
  ∧ (RunnerWorker.postMessageThrows rt = None →
     let final :=
       RunnerWorker.run
         ((RunnerWorker.Message
             <$> Host.handleCompileMessage true lastCompileFiles response)
          ++ [RunnerWorker.Settled rt])
         RunnerWorker.initial in
     RunnerWorker.executed final = [request]
     ∧ RunnerWorker.outbox final = [RunnerWorker.executeProgram rt request]
     ∧ RunnerWorker.isRunning final = false).
Proof.
  intros response request. split_and!; [done..|].
  intros Hpost final. subst final. simpl.
  unfold RunnerWorker.onMessage.
  rewrite isRunnerRequest_toMessage, asRunnerRequest_toMessage. simpl.
  unfold RunnerWorker.finishRun. rewrite Hpost. done.
Qed.

Lemma compile_success_is_run_witness :
  RunnerWorker.outbox
    (RunnerWorker.run
       ((RunnerWorker.Message
           <$> Host.handleCompileMessage true [mkFile "main.zig" "x"]
                 (ZigCompileSuccess [0%N] [] [] 5))
        ++ [RunnerWorker.Settled (exampleRunnerRuntime 7)])
       RunnerWorker.initial)
  = [RunnerWorker.executeProgram (exampleRunnerRuntime 7)
       {| wasm := [0%N]; args := None; runFiles := Some [mkFile "main.zig" "x"] |}].
Proof.
  refine (proj1 (proj2 (proj2 (proj2 (proj2 (proj2 (compile_success_is_run [0%N] [] [] 5
    [mkFile "main.zig" "x"] (exampleRunnerRuntime 7))))) eq_refl))).
Defined.

(** ** The page's log *)

Section Log.

Context {LogEntry : Type}.
Implicit Types (l prev : list LogEntry) (entry : LogEntry).

Lemma sliceLast_length n l : length (Playground.sliceLast n l) = length l `min` n.
Proof. unfold Playground.sliceLast. rewrite length_drop. lia. Qed.

Lemma sliceLast_snoc n l entry :
  0 < n →
  Playground.sliceLast n (Playground.sliceLast n l ++ [entry])
  = Playground.sliceLast n (l ++ [entry]).
Proof.
  intros Hn. unfold Playground.sliceLast.
  rewrite !length_app, length_drop. simpl.
  destruct (decide (length l ≤ n)) as [Hle|Hgt].
  - replace (length l - n) with 0 by lia. simpl.
    by replace (length l - 0) with (length l) by lia.
  - replace (length l - (length l - n) + 1 - n) with 1 by lia.
    replace (length l + 1 - n) with (length l - n + 1) by lia.
    rewrite !drop_app_le by (rewrite ?length_drop; lia).
    by rewrite drop_drop.
Qed.

Lemma logEvent_fold (entries : list LogEntry) :
  foldl Playground.logEvent [] entries = Playground.sliceLast 200 entries.
Proof.
  induction entries as [|entry entries IH] using rev_ind; [done|].
  rewrite foldl_snoc, IH. unfold Playground.logEvent.
  apply sliceLast_snoc. lia.
Qed.

End Log.

(** X10. The page's log never holds more than 200 entries: after any
    sequence of [logEvent] calls it holds exactly the last 200 entries
    logged (all of them when there are fewer), the newest last. *)
Theorem log_keeps_last_200 {LogEntry : Type} (entries : list LogEntry) :
  let logs := foldl Playground.logEvent [] entries in
  logs = drop (length entries - 200) entries
  ∧ length logs = length entries `min` 200
  ∧ last logs = last entries.
Proof.
  intros logs. subst logs. rewrite logEvent_fold. split_and!.
  - done.
  - apply sliceLast_length.
  - unfold Playground.sliceLast.
    destruct entries as [|entry entries] using rev_ind; [done|].
    rewrite length_app. simpl.
    rewrite drop_app_le by lia. by rewrite !last_snoc.
Qed.

(** ** The version pattern *)

Section VersionPattern.

Import StdlibDirectory.
Implicit Types (s w lit version : JsString).

Lemma expect_app lit s : expect lit (lit ++ s) = Some s.
Proof.
  unfold expect.
  assert (Js.startsWith lit (lit ++ s) = true) as ->.
  { induction lit as [|c lit IH]; [done|]. simpl. by rewrite N.eqb_refl. }
  by rewrite drop_app_length.
Qed.

Lemma expect_Some lit s s' : expect lit s = Some s' → s = lit ++ s'.
Proof.
  unfold expect. destruct (Js.startsWith lit s) eqn:E; [|done]. intros [= <-].
  revert s E. induction lit as [|c lit IH]; intros s E; [done|].
  destruct s as [|d s]; [done|]. simpl in E.
  apply andb_true_iff in E as [->%N.eqb_eq E]. simpl. f_equal. by apply IH.
Qed.

Lemma dropWhile_white_app w s :
  allWhite w → (∀ c, head s = Some c → Js.isWhiteSpace c = false) →
  Js.dropWhile Js.isWhiteSpace (w ++ s) = s.
Proof.
  intros Hw Hs. induction Hw as [|c w Hc _ IH]; simpl.
  - by apply dropWhile_keep.
  - by rewrite Hc.
Qed.

Lemma spaces1_app w s :
  w ≠ [] → allWhite w → (∀ c, head s = Some c → Js.isWhiteSpace c = false) →
  spaces1 (w ++ s) = Some s.
Proof.
  intros Hne Hw Hs. unfold spaces1. destruct w as [|c w]; [done|].
  pose proof Hw as [Hc _]%Forall_cons.
  change ((c :: w) ++ s) with (c :: (w ++ s)). cbv beta iota. rewrite Hc.
  f_equal. by apply (dropWhile_white_app (c :: w)).
Qed.

Lemma spaces0_app w s :
  allWhite w → (∀ c, head s = Some c → Js.isWhiteSpace c = false) →
  spaces0 (w ++ s) = Some s.
Proof. intros Hw Hs. unfold spaces0. f_equal. by apply dropWhile_white_app. Qed.

Lemma dropWhile_split f s :
  ∃ skipped, s = skipped ++ Js.dropWhile f s.
Proof.
  induction s as [|c s [k IH]]; [by exists []|]. simpl.
  destruct (f c); [|by exists []]. exists (c :: k). simpl. by f_equal.
Qed.

Lemma takeWhile_dropWhile f s : s = takeWhile f s ++ Js.dropWhile f s.
Proof.
  induction s as [|c s IH]; [done|]. simpl. destruct (f c); [|done].
  simpl. by f_equal.
Qed.

Lemma takeWhile_notQuote s : Js.QUOTE ∉ takeWhile notQuote s.
Proof.
  induction s as [|c s IH]; simpl; [by intros ?%elem_of_nil|].
  destruct (notQuote c) eqn:E; [|by intros ?%elem_of_nil].
  intros [<-|?]%elem_of_cons; [|done]. by vm_compute in E.
Qed.

Lemma takeWhile_quote_app version s :
  Js.QUOTE ∉ version →
  takeWhile notQuote (version ++ Js.QUOTE :: s) = version
  ∧ Js.dropWhile notQuote (version ++ Js.QUOTE :: s) = Js.QUOTE :: s.
Proof.
  induction version as [|c version IH]; [done|].
  intros [Hc Hv]%not_elem_of_cons. destruct (IH Hv) as [IH1 IH2]. simpl.
  assert (notQuote c = true) as ->.
  { unfold notQuote. by destruct (N.eqb_spec c Js.QUOTE). }
  by rewrite IH1, IH2.
Qed.

Local Ltac next := change (Some ?x ≫= ?f) with (f x); cbv beta.

(** The declaration is matched where it starts. *)
Lemma matchVersionAt_declaration w1 w2 w3 w4 version after :
  w1 ≠ [] → w2 ≠ [] → allWhite w1 → allWhite w2 → allWhite w3 → allWhite w4 →
  version ≠ [] → Js.QUOTE ∉ version →
  matchVersionAt (versionDeclaration w1 w2 w3 w4 version ++ after) = Some version.
Proof.
  intros Hn1 Hn2 H1 H2 H3 H4 Hv Hq.
  unfold matchVersionAt, versionDeclaration. rewrite <- !app_assoc.
  rewrite expect_app. next.
  rewrite spaces1_app by (try done; by intros c [= <-]). next.
  rewrite expect_app. next.
  rewrite spaces1_app by (try done; by intros c [= <-]). next.
  rewrite expect_app. next.
  rewrite spaces0_app by (try done; by intros c [= <-]). next.
  rewrite expect_app. next.
  rewrite spaces0_app by (try done; by intros c [= <-]). next.
  rewrite expect_app. next.
  change ([Js.QUOTE] ++ after) with (Js.QUOTE :: after).
  destruct (takeWhile_quote_app version after Hq) as [-> ->].
  rewrite bool_decide_eq_false_2 by done.
  change (Js.QUOTE :: after) with ([Js.QUOTE] ++ after).
  by rewrite (expect_app [Js.QUOTE] after).
Qed.

Lemma versionRegexExec_head s version :
  matchVersionAt s = Some version → versionRegexExec s = Some version.
Proof. intros Hm. destruct s; cbn [versionRegexExec]; by rewrite Hm. Qed.

Lemma versionRegexExec_found before s version :
  matchVersionAt s = Some version → is_Some (versionRegexExec (before ++ s)).
Proof.
  intros Hm. induction before as [|c before IH].
  - change ([] ++ s) with s. rewrite (versionRegexExec_head _ _ Hm). eauto.
  - change ((c :: before) ++ s) with (c :: (before ++ s)).
    cbn [versionRegexExec]. destruct (matchVersionAt (c :: before ++ s)); eauto.
Qed.

Lemma matchVersionAt_quoted s version :
  matchVersionAt s = Some version →
  version ≠ [] ∧ (Js.QUOTE ∉ version)
  ∧ ∃ before after, s = before ++ Js.QUOTE :: version ++ Js.QUOTE :: after.
Proof.
  unfold matchVersionAt. intros H.
  apply bind_Some in H as (s1 & E1%expect_Some & H).
  apply bind_Some in H as (s2 & E2 & H).
  apply bind_Some in H as (s3 & E3%expect_Some & H).
  apply bind_Some in H as (s4 & E4 & H).
  apply bind_Some in H as (s5 & E5%expect_Some & H).
  apply bind_Some in H as (s6 & E6 & H).
  apply bind_Some in H as (s7 & E7%expect_Some & H).
  apply bind_Some in H as (s8 & E8 & H).
  apply bind_Some in H as (s9 & E9%expect_Some & H).
  case_bool_decide as Hc; [done|].
  apply bind_Some in H as (s10 & E10%expect_Some & [= <-]).
  split_and!; [done|apply takeWhile_notQuote|].
  assert (∀ a b, spaces1 a = Some b → ∃ k, a = k ++ b) as Hsp1.
  { intros a b. unfold spaces1. destruct a as [|c a]; [done|].
    destruct (Js.isWhiteSpace c); [|done]. intros [= <-].
    exact (dropWhile_split Js.isWhiteSpace (c :: a)). }
  assert (∀ a b, spaces0 a = Some b → ∃ k, a = k ++ b) as Hsp0.
  { intros a b [= <-]. apply dropWhile_split. }
  destruct (Hsp1 _ _ E2) as [k2 Hk2]. destruct (Hsp1 _ _ E4) as [k4 Hk4].
  destruct (Hsp0 _ _ E6) as [k6 Hk6]. destruct (Hsp0 _ _ E8) as [k8 Hk8].
  exists (js "pub" ++ k2 ++ js "const" ++ k4 ++ js "Version" ++ k6 ++ js "=" ++ k8), s10.
  rewrite E1, Hk2, E3, Hk4, E5, Hk6, E7, Hk8, E9. rewrite <- !app_assoc.
  do 8 f_equal. change ([Js.QUOTE] ++ s9) with (Js.QUOTE :: s9). f_equal.
  rewrite (takeWhile_dropWhile notQuote s9) at 1. by rewrite E10.
Qed.

Lemma versionRegexExec_quoted source version :
  versionRegexExec source = Some version →
  version ≠ [] ∧ (Js.QUOTE ∉ version)
  ∧ ∃ before after, source = before ++ Js.QUOTE :: version ++ Js.QUOTE :: after.
Proof.
  induction source as [|c source IH]; cbn [versionRegexExec].
  - destruct (matchVersionAt []) eqn:E; [|done]. intros [= <-].
    by apply matchVersionAt_quoted.
  - destruct (matchVersionAt (c :: source)) eqn:E.
    + intros [= <-]. by apply matchVersionAt_quoted.
    + intros (? & ? & before & after & ->)%IH. split_and!; [done..|].
      by exists (c :: before), after.
Qed.

End VersionPattern.

(** X11. A version declaration [pub const Version = Q...Q] (Q the double
    quote; any white space between the words, none needed around [=]) with
    a non-empty, quote-free version is always detected by the version
    pattern wherever it stands in the source, and when the source starts
    with it the version found is the declared one. *)
Theorem version_declaration_is_found (w1 w2 w3 w4 version before after : JsString) :
  w1 ≠ [] → w2 ≠ [] → allWhite w1 → allWhite w2 → allWhite w3 → allWhite w4 →
  version ≠ [] → Js.QUOTE ∉ version →
  is_Some (StdlibDirectory.versionRegexExec
             (before ++ versionDeclaration w1 w2 w3 w4 version ++ after))
  ∧ StdlibDirectory.versionRegexExec (versionDeclaration w1 w2 w3 w4 version ++ after)
    = Some version.
Proof.
  intros. split.
  - eapply versionRegexExec_found. by apply matchVersionAt_declaration.
  - apply versionRegexExec_head. by apply matchVersionAt_declaration.
Qed.

Lemma version_declaration_is_found_witness :
  StdlibDirectory.versionRegexExec
    (versionDeclaration [32; 9]%N [32%N] [] [10%N] (js "0.15.2") ++ js ";")
  = Some (js "0.15.2").
Proof.
  refine (proj2 (version_declaration_is_found [32; 9]%N [32%N] [] [10%N]
    (js "0.15.2") [] (js ";") _ _ _ _ _ _ _ _)).
  - discriminate.
  - discriminate.
  - by repeat constructor.
  - by repeat constructor.
  - constructor.
  - by repeat constructor.
  - vm_compute. discriminate.
  - apply (bool_decide_unpack _). vm_compute. reflexivity.
Defined.

(** X12. Whatever version the pattern extracts is non-empty, contains no
    double quote, and stands between two double quotes in the source. *)
Theorem extracted_version_is_quoted (source version : JsString) :
  StdlibDirectory.versionRegexExec source = Some version →
  version ≠ [] ∧ (Js.QUOTE ∉ version)
  ∧ ∃ before after, source = before ++ Js.QUOTE :: version ++ Js.QUOTE :: after.
Proof. apply versionRegexExec_quoted. Qed.

Lemma extracted_version_is_quoted_witness :
  js "0.15.2" ≠ [] ∧ (Js.QUOTE ∉ js "0.15.2")
  ∧ ∃ before after,
      js "// x" ++ [10%N] ++ exampleBuiltin
      = before ++ Js.QUOTE :: js "0.15.2" ++ Js.QUOTE :: after.
Proof.
  refine (extracted_version_is_quoted (js "// x" ++ [10%N] ++ exampleBuiltin)
            (js "0.15.2") _).
  vm_compute. reflexivity.
Defined.

(** ** Building and converting the standard-library tree *)

Section StdlibTree.

Import StdlibDirectory.
Implicit Types (tree : Tree) (segments parents : list JsString).

Lemma getTreeEntry_ensure_set parents (filename : JsString) node tree :
  getTreeEntry
    (TreeNode (ensureTreeNode parents (λ parent, <[filename := node]> parent) tree))
    (parents ++ [filename])
  = Some node.
Proof.
  revert tree. induction parents as [|x parents IH]; intros tree; simpl.
  - by rewrite lookup_insert_eq.
  - destruct (tree !! x) as [[d|existing]|]; rewrite lookup_insert_eq; apply IH.
Qed.

Lemma getTreeEntry_ensure_id segments tree :
  ∃ children,
    getTreeEntry (TreeNode (ensureTreeNode segments id tree)) segments
    = Some (TreeNode children).
Proof.
  revert tree. induction segments as [|x segments IH]; intros tree; simpl.
  - by eexists.
  - destruct (tree !! x) as [[d|existing]|]; rewrite lookup_insert_eq; apply IH.
Qed.

Lemma addEntry_skipped tree entry :
  Js.startsWith (js "lib/") (normalizeEntryPath entry) = false
  ∨ toSegments (drop 4 (normalizeEntryPath entry)) = [] →
  addEntry tree entry = tree.
Proof.
  unfold addEntry. intros [Hlib|Hseg].
  - rewrite Hlib. simpl. by rewrite orb_true_r.
  - rewrite Hseg. simpl. by repeat case_match.
Qed.

Lemma addEntry_kept tree entry :
  Js.startsWith (js "lib/") (normalizeEntryPath entry) = true →
  toSegments (drop 4 (normalizeEntryPath entry)) ≠ [] →
  ∃ filename parents,
    toSegments (drop 4 (normalizeEntryPath entry)) = parents ++ [filename]
    ∧ addEntry tree entry
      = if isDirectoryEntry entry
        then ensureTreeNode (parents ++ [filename]) id tree
        else ensureTreeNode parents
               (λ parent, <[filename := Blob (fileData entry)]> parent) tree.
Proof.
  intros Hlib Hseg. unfold addEntry. rewrite Hlib.
  assert (normalizeEntryPath entry ≠ []) as Hn.
  { intros E. by rewrite E in Hlib. }
  rewrite bool_decide_eq_false_2 by done. simpl.
  assert (drop 4 (normalizeEntryPath entry) ≠ []) as Hd.
  { intros E. rewrite E in Hseg. by apply Hseg. }
  rewrite bool_decide_eq_false_2 by done.
  destruct (pop (toSegments (drop 4 (normalizeEntryPath entry))))
    as [[filename parents]|] eqn:Hpop.
  - apply pop_Some_snoc in Hpop. exists filename, parents. by rewrite Hpop.
  - by apply pop_None in Hpop.
Qed.

Lemma convert_read segments tree :
  getFileAtSegments segments (convertTreeToDirectory tree)
  = match getTreeEntry (TreeNode tree) segments with
    | Some (Blob data) => Some (File data true)
    | _ => None
    end.
Proof.
  revert tree. induction segments as [|x segments IH]; intros tree; [done|].
  unfold convertTreeToDirectory. cbn [getFileAtSegments getTreeEntry].
  rewrite lookup_fmap. destruct (tree !! x) as [entry|]; [|done]. simpl.
  destruct segments as [|y segments].
  - by destruct entry.
  - destruct entry as [data|children]; [done|].
    exact (IH children).
Qed.

End StdlibTree.

(** X13. Archive entries whose path is not under [lib/], or names nothing
    below it, are ignored; an archive made only of such entries is refused
    with the error [Zig stdlib archive did not contain any lib/ entries]
    and the console is left as it is. *)
Theorem archive_without_lib_is_refused
    (PLAYGROUND_ZIG_VERSION : JsString) (decode : Bytes → JsString)
    (hasConsoleWarn : bool) (entries : list TarLocalFile)
    (c : StdlibDirectory.Console) :
  Forall (λ entry,
            Js.startsWith (js "lib/") (StdlibDirectory.normalizeEntryPath entry) = false
            ∨ toSegments (drop 4 (StdlibDirectory.normalizeEntryPath entry)) = [])
         entries →
  (∀ tree, foldl StdlibDirectory.addEntry tree entries = tree)
  ∧ StdlibDirectory.hydrateStdlibTree PLAYGROUND_ZIG_VERSION decode hasConsoleWarn
      entries c
    = (Throw (ThrownError (js "Error")
                (js "Zig stdlib archive did not contain any lib/ entries") []), c).
Proof.
  intros Hall.
  assert (∀ tree, foldl StdlibDirectory.addEntry tree entries = tree) as Hfold.
  { induction Hall as [|entry entries Hskip _ IH]; intros tree; [done|].
    simpl. by rewrite addEntry_skipped. }
  split; [done|]. unfold StdlibDirectory.hydrateStdlibTree. by rewrite Hfold.
Qed.

Lemma archive_without_lib_is_refused_witness :
  StdlibDirectory.hydrateStdlibTree (js "0.15.2") id true
    [ {| name := js "README.md"; filename := None; typeflag := js "0";
         fileData := [1%N] |};
      {| name := js "./lib/"; filename := None; typeflag := js "5";
         fileData := [] |} ]
    freshConsole
  = (Throw (ThrownError (js "Error")
              (js "Zig stdlib archive did not contain any lib/ entries") []),
     freshConsole).
Proof.
  refine (proj2 (archive_without_lib_is_refused (js "0.15.2") id true _ freshConsole _)).
  apply Forall_cons. split; [left; vm_compute; reflexivity|].
  apply Forall_cons. split; [right; vm_compute; reflexivity|].
  constructor.
Defined.

(** X14. An archive entry under [lib/] whose path names something is found
    in the tree right after it is added, at the segments of its path below
    [lib/]: as a blob with the entry's bytes for a file entry, as a node for
    a directory entry. *)
Theorem archive_entry_is_found (tree : Tree) (entry : TarLocalFile) :
  let segments := toSegments (drop 4 (StdlibDirectory.normalizeEntryPath entry)) in
  Js.startsWith (js "lib/") (StdlibDirectory.normalizeEntryPath entry) = true →
  segments ≠ [] →
  let added := TreeNode (StdlibDirectory.addEntry tree entry) in
  if StdlibDirectory.isDirectoryEntry entry
  then ∃ children, StdlibDirectory.getTreeEntry added segments = Some (TreeNode children)
  else StdlibDirectory.getTreeEntry added segments = Some (Blob (fileData entry)).
Proof.
  intros segments Hlib Hseg added. subst added.
  destruct (addEntry_kept tree entry Hlib Hseg) as (filename & parents & Hs & ->).
  subst segments. rewrite Hs.
  destruct (StdlibDirectory.isDirectoryEntry entry).
  - apply getTreeEntry_ensure_id.
  - apply getTreeEntry_ensure_set.
Qed.

Lemma archive_entry_is_found_witness :
  StdlibDirectory.getTreeEntry
    (TreeNode (StdlibDirectory.addEntry ∅
       {| name := js ".\lib\std\fs.zig"; filename := None; typeflag := js "0";
          fileData := [7%N] |}))
    [js "std"; js "fs.zig"]
  = Some (Blob [7%N]).
Proof.
  refine (archive_entry_is_found ∅
    {| name := js ".\lib\std\fs.zig"; filename := None; typeflag := js "0";
       fileData := [7%N] |} _ _).
  - vm_compute. reflexivity.
  - vm_compute. discriminate.
Defined.

(** X15. When the last entry of the archive is the file [lib/std/builtin.zig]
    and the version pattern finds the expected playground version in its
    decoded bytes, hydration succeeds with the tree built from the entries
    and the console is left as it is: no warning, no error. *)
Theorem matching_version_is_accepted
    (PLAYGROUND_ZIG_VERSION : JsString) (decode : Bytes → JsString)
    (hasConsoleWarn : bool) (entries : list TarLocalFile) (builtin : TarLocalFile)
    (c : StdlibDirectory.Console) :
  Js.startsWith (js "lib/") (StdlibDirectory.normalizeEntryPath builtin) = true →
  toSegments (drop 4 (StdlibDirectory.normalizeEntryPath builtin))
  = StdlibDirectory.STDLIB_VERSION_PATH →
  StdlibDirectory.isDirectoryEntry builtin = false →
  StdlibDirectory.versionRegexExec (decode (fileData builtin))
  = Some PLAYGROUND_ZIG_VERSION →
  StdlibDirectory.hydrateStdlibTree PLAYGROUND_ZIG_VERSION decode hasConsoleWarn
    (entries ++ [builtin]) c
  = (Normal (foldl StdlibDirectory.addEntry ∅ (entries ++ [builtin])), c).
Proof.
  intros Hlib Hseg Hfile Hver.
  unfold StdlibDirectory.hydrateStdlibTree. rewrite foldl_snoc.
  set (before := foldl StdlibDirectory.addEntry ∅ entries).
  pose proof (archive_entry_is_found before builtin Hlib) as Hfound.
  cbv zeta in Hfound. rewrite Hseg, Hfile in Hfound.
  specialize (Hfound ltac:(done)).
  set (tree := StdlibDirectory.addEntry before builtin) in *.
  assert (size tree ≠ 0) as Hsize.
  { intros Hz. apply map_size_empty_iff in Hz. rewrite Hz in Hfound.
    simpl in Hfound. by rewrite lookup_empty in Hfound. }
  rewrite bool_decide_eq_false_2 by done.
  unfold StdlibDirectory.assertStdlibVersion, StdlibDirectory.extractStdlibVersion.
  rewrite Hfound, Hver.
  rewrite bool_decide_eq_false_2
    by (by eapply versionRegexExec_nonempty).
  rewrite bool_decide_eq_false_2; [done|]. by intros Hne.
Qed.

Lemma matching_version_is_accepted_witness :
  StdlibDirectory.hydrateStdlibTree (js "0.15.2") id true
    ([ {| name := js "./lib/std/"; filename := None; typeflag := js "5";
          fileData := [] |} ]
     ++ [ {| name := js "lib/std/builtin.zig"; filename := None; typeflag := js "0";
             fileData := exampleBuiltin |} ])
    freshConsole
  = (Normal (foldl StdlibDirectory.addEntry ∅
               ([ {| name := js "./lib/std/"; filename := None; typeflag := js "5";
                     fileData := [] |} ]
                ++ [ {| name := js "lib/std/builtin.zig"; filename := None;
                        typeflag := js "0"; fileData := exampleBuiltin |} ])),
     freshConsole).
Proof.
  refine (matching_version_is_accepted (js "0.15.2") id true _ _ freshConsole
            _ _ _ _); vm_compute; reflexivity.
Defined.

(** X16. In the directory made from the standard-library tree, what is read
    at a segment list is exactly the blob the tree has there, as a
    read-only file with the same bytes; where the tree has a node or
    nothing, no file is read. *)
Theorem stdlib_directory_is_read_only (tree : Tree) (segments : list JsString) :
  getFileAtSegments segments (convertTreeToDirectory tree)
  = match StdlibDirectory.getTreeEntry (TreeNode tree) segments with
    | Some (Blob data) => Some (File data true)
    | _ => None
    end.
Proof. apply convert_read. Qed.

(** ** Asset warm-up *)

Section WarmUp.

Import AssetRegistry.
Implicit Types (r : State) (key : AssetKey) (action : Completion unit).

Lemma formatAssetError_nonempty key error : formatAssetError key error ≠ [].
Proof. by destruct key. Qed.

Lemma status_withStatus key key' st s :
  status key' (withStatus key st s) = if bool_decide (position key' = position key)
                                      then st else status key' s.
Proof. by destruct key, key'. Qed.

Lemma setAssetStatus_snapshot key st r :
  snapshot (setAssetStatus key st r) = withStatus key st (snapshot r).
Proof.
  unfold setAssetStatus. case_bool_decide as E; [|done].
  destruct (snapshot r) as [z l d e], key; simpl in *; by subst.
Qed.

Lemma clearSnapshotError_snapshot r :
  snapshot (clearSnapshotError r)
  = {| zig := zig (snapshot r); zls := zls (snapshot r);
       stdlib := stdlib (snapshot r); error := None |}.
Proof.
  unfold clearSnapshotError. destruct (snapshot r) as [z l d [m|]] eqn:E; simpl; [done|].
  by rewrite E.
Qed.

Lemma setSnapshotError_snapshot message r :
  message ≠ [] →
  snapshot (setSnapshotError (Some message) r)
  = {| zig := zig (snapshot r); zls := zls (snapshot r);
       stdlib := stdlib (snapshot r); error := Some message |}.
Proof.
  intros Hne. unfold setSnapshotError. rewrite bool_decide_eq_false_2 by done.
  case_bool_decide as E; [|done].
  destruct (snapshot r) as [z l d e]; simpl in *; by subst.
Qed.

(** What one [warmAsset] does to the snapshot. *)
Lemma warmAsset_snapshot key action r :
  (warmAsset key action r).1
  = (if bool_decide (status key (snapshot r) = Ready) then Normal ()
     else match action with
          | Normal _ => Normal ()
          | Throw e => Throw (ThrownError (js "Error") (formatAssetError key e) [])
          end)
  ∧ snapshot (warmAsset key action r).2
    = (if bool_decide (status key (snapshot r) = Ready) then snapshot r
       else match action with
            | Normal _ =>
                let s := withStatus key Ready (snapshot r) in
                if hasErroredAsset s then s
                else {| zig := zig s; zls := zls s; stdlib := stdlib s;
                        error := None |}
            | Throw e =>
                let s := withStatus key Failed (snapshot r) in
                {| zig := zig s; zls := zls s; stdlib := stdlib s;
                   error := Some (formatAssetError key e) |}
            end).
Proof.
  unfold warmAsset. case_bool_decide as Hready; [done|].
  destruct action as [[]|e]; cbv zeta; cbn [fst snd].
  - split; [done|].
    assert (snapshot (setAssetStatus key Ready (setAssetStatus key Warming r))
            = withStatus key Ready (snapshot r)) as Hs.
    { rewrite !setAssetStatus_snapshot. by destruct key. }
    rewrite Hs. destruct (hasErroredAsset _); [done|].
    by rewrite clearSnapshotError_snapshot, Hs.
  - split; [done|].
    rewrite setSnapshotError_snapshot by apply formatAssetError_nonempty.
    rewrite !setAssetStatus_snapshot. by destruct key.
Qed.

(** The two ways one [warmAsset] ends when no error message is set. *)
Lemma warmAsset_cases key action r :
  error (snapshot r) = None →
  (∃ r', warmAsset key action r = (Normal (), r')
         ∧ snapshot r' = withStatus key Ready (snapshot r)
         ∧ (status key (snapshot r) = Ready ∨ action = Normal ()))
  ∨ (∃ e r',
       action = Throw e
       ∧ status key (snapshot r) ≠ Ready
       ∧ warmAsset key action r
         = (Throw (ThrownError (js "Error") (formatAssetError key e) []), r')
       ∧ snapshot r'
         = {| zig := zig (withStatus key Failed (snapshot r));
              zls := zls (withStatus key Failed (snapshot r));
              stdlib := stdlib (withStatus key Failed (snapshot r));
              error := Some (formatAssetError key e) |}).
Proof.
  intros Hnone. destruct (warmAsset_snapshot key action r) as [Hc Hs].
  destruct (warmAsset key action r) as [c r']; cbn [fst snd] in *.
  case_bool_decide as Hready.
  - left. exists r'. subst c. split_and!; [done| |by left].
    rewrite Hs. destruct (snapshot r) as [z l d err], key; simpl in *; by subst.
  - destruct action as [[]|e].
    + left. exists r'. subst c. split_and!; [done| |by right].
      rewrite Hs. cbv zeta. destruct (hasErroredAsset _); [done|].
      destruct (snapshot r) as [z l d err], key; simpl in *; by subst.
    + right. exists e, r'. by subst c.
Qed.

(** The two ways a whole [runWarmSequence] ends. *)
Lemma runWarmSequence_cases (actions : AssetKey → Completion unit) r :
  let r' := (runWarmSequence actions r).2 in
  match (runWarmSequence actions r).1 with
  | Normal _ =>
      areAllAssetsReady (snapshot r') = true
      ∧ error (snapshot r') = None
      ∧ ∀ key, status key (snapshot r) = Ready ∨ actions key = Normal ()
  | Throw thrown =>
      ∃ key e,
        actions key = Throw e
        ∧ status key (snapshot r) ≠ Ready
        ∧ thrown = ThrownError (js "Error") (formatAssetError key e) []
        ∧ status key (snapshot r') = Failed
        ∧ error (snapshot r') = Some (formatAssetError key e)
        ∧ (∀ k, position k < position key → status k (snapshot r') = Ready)
        ∧ (∀ k, position key < position k →
                status k (snapshot r') = status k (snapshot r))
  end.
Proof.
  cbv zeta. unfold runWarmSequence.
  pose proof (clearSnapshotError_snapshot r) as H0.
  set (r0 := clearSnapshotError r) in *.
  assert (error (snapshot r0) = None) as Hn0 by by rewrite H0.
  destruct (warmAsset_cases Zig (actions Zig) r0 Hn0)
    as [(r1 & -> & Hs1 & Hok1)|(e & r1 & Ha & Hne & -> & Hs1)]; cbn [fst snd].
  2:{ exists Zig, e. rewrite Hs1, H0 in *.
      split_and!; try done; intros []; cbn; (done || lia). }
  assert (error (snapshot r1) = None) as Hn1 by by rewrite Hs1, H0.
  destruct (warmAsset_cases Zls (actions Zls) r1 Hn1)
    as [(r2 & -> & Hs2 & Hok2)|(e & r2 & Ha & Hne & -> & Hs2)]; cbn [fst snd].
  2:{ exists Zls, e. rewrite Hs2, Hs1, H0 in *.
      split_and!; try done; intros []; cbn; (done || lia). }
  assert (error (snapshot r2) = None) as Hn2 by by rewrite Hs2, Hs1, H0.
  destruct (warmAsset_cases Stdlib (actions Stdlib) r2 Hn2)
    as [(r3 & -> & Hs3 & Hok3)|(e & r3 & Ha & Hne & -> & Hs3)]; cbn [fst snd].
  2:{ exists Stdlib, e. rewrite Hs3, Hs2, Hs1, H0 in *.
      split_and!; try done; intros []; cbn; (done || lia). }
  rewrite Hs3, Hs2, Hs1, H0 in *. split_and!; [done|done|].
  by intros [].
Qed.


(** X17. Whatever the fetches do, a warm-up sequence ends in one of two
    ways.  It returns normally, and then all three assets are ready, no
    error message is left, and every asset either was ready already or had
    its fetch succeed.  Or it throws, and then there is one asset that was
    not ready and whose fetch failed with some error: the thrown value is an
    Error carrying that asset's formatted message, the snapshot shows that
    asset in the error state with the same message, the assets before it in
    the order zig, zls, stdlib are ready, and those after it are as they
    were. *)
Theorem warm_sequence_outcome (actions : AssetKey → Completion unit) r :
  let r' := (runWarmSequence actions r).2 in
  match (runWarmSequence actions r).1 with
  | Normal _ =>
      areAllAssetsReady (snapshot r') = true
      ∧ error (snapshot r') = None
      ∧ ∀ key, status key (snapshot r) = Ready ∨ actions key = Normal ()
  | Throw thrown =>
      ∃ key e,
        actions key = Throw e
        ∧ status key (snapshot r) ≠ Ready
        ∧ thrown = ThrownError (js "Error") (formatAssetError key e) []
        ∧ status key (snapshot r') = Failed
        ∧ error (snapshot r') = Some (formatAssetError key e)
        ∧ (∀ k, position k < position key → status k (snapshot r') = Ready)
        ∧ (∀ k, position key < position k →
                status k (snapshot r') = status k (snapshot r))
  end.
Proof. apply runWarmSequence_cases. Qed.

Lemma warm_sequence_outcome_witness :
  status Zig (snapshot (runWarmSequence zlsOffline initial).2) = Ready
  ∧ status Stdlib (snapshot (runWarmSequence zlsOffline initial).2) = Idle.
Proof.
  generalize (warm_sequence_outcome zlsOffline initial). cbv zeta.
  set (ran := runWarmSequence zlsOffline initial).
  assert (ran.1 = Throw (ThrownError (js "Error")
                           (formatAssetError Zls (ThrownValue (js "offline"))) []))
    as -> by (vm_compute; reflexivity).
  intros (key & e & Ha & _ & _ & _ & _ & Hearlier & Hlater).
  destruct key; [discriminate Ha| |discriminate Ha].
  split.
  - apply (Hearlier Zig). simpl. lia.
  - rewrite (Hlater Stdlib) by (simpl; lia). reflexivity.
Defined.

Lemma extends_refl r : extends r r.
Proof. split_and!; [done|by exists []; rewrite app_nil_r|done]. Qed.

Lemma extends_trans r1 r2 r3 : extends r1 r2 → extends r2 r3 → extends r1 r3.
Proof.
  intros (Hl1 & [rest1 He1] & Hs1) (Hl2 & [rest2 He2] & Hs2). split_and!.
  - by rewrite Hl2.
  - exists (rest1 ++ rest2). by rewrite He2, He1, <- app_assoc.
  - auto.
Qed.

Lemma emitSnapshot_extends s r : extends r (emitSnapshot s r).
Proof.
  unfold extends, synced, emitSnapshot; simpl. case_bool_decide as Hl.
  - apply size_empty_iff, leibniz_equiv in Hl.
    split_and!; [done|by exists []; rewrite app_nil_r|by intros [? _]].
  - split_and!; [done|by eexists|]. intros [Hne _]. by rewrite last_snoc.
Qed.

Lemma setAssetStatus_extends key st r : extends r (setAssetStatus key st r).
Proof.
  unfold setAssetStatus. case_bool_decide;
    [apply extends_refl|apply emitSnapshot_extends].
Qed.

Lemma clearSnapshotError_extends r : extends r (clearSnapshotError r).
Proof.
  unfold clearSnapshotError. destruct (error (snapshot r));
    [apply emitSnapshot_extends|apply extends_refl].
Qed.

Lemma setSnapshotError_extends message r :
  extends r (setSnapshotError message r).
Proof.
  unfold setSnapshotError. destruct message as [m|];
    [|apply clearSnapshotError_extends].
  repeat case_bool_decide;
    [apply clearSnapshotError_extends|apply extends_refl
    |apply emitSnapshot_extends].
Qed.

Lemma warmAsset_extends key action r : extends r (warmAsset key action r).2.
Proof.
  unfold warmAsset. case_bool_decide; [apply extends_refl|].
  destruct action as [[]|e]; cbv zeta; cbn [fst snd].
  - eapply extends_trans; [apply setAssetStatus_extends|].
    eapply extends_trans; [apply setAssetStatus_extends|].
    destruct (hasErroredAsset _);
      [apply extends_refl|apply clearSnapshotError_extends].
  - eapply extends_trans; [apply setAssetStatus_extends|].
    eapply extends_trans; [apply setAssetStatus_extends|].
    apply setSnapshotError_extends.
Qed.

Lemma runWarmSequence_extends actions r :
  extends r (runWarmSequence actions r).2.
Proof.
  unfold runWarmSequence.
  eapply extends_trans; [apply clearSnapshotError_extends|].
  set (r0 := clearSnapshotError r).
  pose proof (warmAsset_extends Zig (actions Zig) r0) as H1.
  destruct (warmAsset Zig (actions Zig) r0) as [[[]|e1] r1]; [|done].
  eapply extends_trans; [exact H1|]. clear H1.
  pose proof (warmAsset_extends Zls (actions Zls) r1) as H2.
  destruct (warmAsset Zls (actions Zls) r1) as [[[]|e2] r2]; [|done].
  eapply extends_trans; [exact H2|]. apply warmAsset_extends.
Qed.

Lemma runWarmSequence_settled actions r :
  settled (snapshot r) → settled (snapshot (runWarmSequence actions r).2).
Proof.
  intros (ready & Hbefore & Hafter & Hnext).
  pose proof (runWarmSequence_cases actions r) as H. cbv zeta in H.
  destruct (runWarmSequence actions r) as [[[]|thrown] r']; cbn [fst snd] in *.
  - destruct H as (Hall & Herr & _). exists 3. unfold areAllAssetsReady in Hall.
    apply andb_true_iff in Hall as [Hall H3]. apply andb_true_iff in Hall as [H1 H2].
    apply bool_decide_eq_true in H1, H2, H3. split_and!.
    + by intros [].
    + intros []; simpl; lia.
    + left. split; [done|]. by intros [].
  - destruct H as (key & e & _ & Hne & _ & Hfailed & Herr & Hearlier & Hlater).
    assert (ready ≤ position key) as Hle.
    { destruct (decide (position key < ready)) as [Hlt|]; [|lia].
      by apply Hbefore in Hlt. }
    exists (position key). split_and!.
    + done.
    + intros k Hk. rewrite Hlater by done. apply Hafter. lia.
    + right. split; [by rewrite Herr|].
      intros k Hk. by replace k with key by by destruct k, key.
Qed.

Lemma warmZigAssets_settled onUpdate actions r :
  settled (snapshot r) → settled (snapshot (warmZigAssets onUpdate actions r).2).
Proof.
  intros Hs. unfold warmZigAssets. cbv zeta.
  destruct onUpdate as [listener|]; [destruct (throws listener) as [thrown|]|];
    destruct (areAllAssetsReady (snapshot r)); cbn [snd]; try exact Hs.
  - pose proof (runWarmSequence_settled actions
                  (callListener (addListener listener r)) Hs) as H.
    by destruct (runWarmSequence actions _) as [result r'].
  - pose proof (runWarmSequence_settled actions r Hs) as H.
    by destruct (runWarmSequence actions r) as [result r'].
Qed.

(** Only a listener whose direct call throws can stay registered. *)
Lemma warmZigAssets_listeners onUpdate actions r id :
  id ∈ listeners (warmZigAssets onUpdate actions r).2 →
  id ∈ listeners r
  ∨ ∃ listener thrown,
      onUpdate = Some listener ∧ listenerId listener = id
      ∧ throws listener = Some thrown.
Proof.
  unfold warmZigAssets. cbv zeta.
  destruct onUpdate as [listener|];
    [destruct (throws listener) as [thrown|] eqn:Hthrows|];
    destruct (areAllAssetsReady (snapshot r)); cbn [snd].
  - simpl. by left.
  - simpl. intros [Hid%elem_of_singleton|Hid]%elem_of_union; [|by left].
    right. by exists listener, thrown.
  - simpl. intros [Hid _]%elem_of_difference. by left.
  - pose proof (runWarmSequence_extends actions
                  (callListener (addListener listener r))) as (Hl & _ & _).
    destruct (runWarmSequence actions _) as [result r']; cbn [fst snd] in *.
    simpl. rewrite Hl. simpl.
    intros [[Hid%elem_of_singleton|Hid]%elem_of_union Hne]%elem_of_difference;
      [|by left].
    by apply not_elem_of_singleton in Hne.
  - by left.
  - pose proof (runWarmSequence_extends actions r) as (Hl & _ & _).
    destruct (runWarmSequence actions r) as [result r']; cbn [fst snd] in *.
    rewrite Hl. by left.
Qed.

(** X18. Starting from the registry as the module creates it, after any
    number of warm-up calls made one after the other, with or without a
    listener, whatever the fetches do and whether or not a listener throws
    when called, the snapshot is of one shape: in the order zig, zls,
    stdlib some first assets are ready, the next one is either untouched
    with no error message set or in the error state with a message set, and
    the remaining ones are untouched.  No asset is left in the warming
    state and at most one is in the error state.  A listener that is still
    registered afterwards was passed to a call in which its direct call
    threw, so when no listener throws none stays registered.  And a
    listener whose direct call throws while some asset is not ready does
    stay registered: the call ends with what the listener threw, having
    started no fetch and changed no status. *)
Theorem warm_attempts_stay_settled
    (attempts : list (option Listener * (AssetKey → Completion unit))) :
  let r := foldl (λ r attempt, (warmZigAssets attempt.1 attempt.2 r).2)
                 initial attempts in
  settled (snapshot r)
  ∧ (∀ id, id ∈ listeners r →
           ∃ listener actions thrown,
             (Some listener, actions) ∈ attempts
             ∧ listenerId listener = id ∧ throws listener = Some thrown)
  ∧ ((∀ listener actions,
        (Some listener, actions) ∈ attempts → throws listener = None) →
     listeners r = ∅)
  ∧ (∀ listener thrown actions,
       throws listener = Some thrown →
       areAllAssetsReady (snapshot r) = false →
       let r' := (warmZigAssets (Some listener) actions r).2 in
       (warmZigAssets (Some listener) actions r).1 = Throw thrown
       ∧ listenerId listener ∈ listeners r'
       ∧ snapshot r' = snapshot r).
Proof.
  cbv zeta.
  assert (settled (snapshot (foldl (λ r attempt,
                                      (warmZigAssets attempt.1 attempt.2 r).2)
                                   initial attempts))
          ∧ ∀ id, id ∈ listeners (foldl (λ r attempt,
                                           (warmZigAssets attempt.1 attempt.2 r).2)
                                        initial attempts) →
                  ∃ listener actions thrown,
                    (Some listener, actions) ∈ attempts
                    ∧ listenerId listener = id ∧ throws listener = Some thrown)
    as [Hsettled Hleft].
  { induction attempts as [|[onUpdate actions] attempts IH] using rev_ind.
    - split.
      + exists 0. split_and!.
        * intros key Hk. lia.
        * by intros [].
        * left. split; [done|]. by intros [].
      + intros id Hid. simpl in Hid. by apply not_elem_of_empty in Hid.
    - rewrite foldl_snoc. cbn [fst snd].
      set (r := foldl _ initial attempts) in *. destruct IH as [Hsettled Hleft].
      split; [by apply warmZigAssets_settled|].
      intros id Hid.
      apply warmZigAssets_listeners in Hid
        as [Hid|(listener & thrown & -> & Hl & Hthrows)].
      + destruct (Hleft id Hid) as (listener & actions' & thrown & Hin & Hl & Hthrows).
        exists listener, actions', thrown. split_and!; [|done..].
        apply elem_of_app. by left.
      + exists listener, actions, thrown. split_and!; [|done..].
        apply elem_of_app. right. by apply list_elem_of_singleton. }
  split_and!; [done|done| |].
  - intros Hquiet. apply elem_of_equiv_empty_L. intros id Hid.
    destruct (Hleft id Hid) as (listener & actions & thrown & Hin & _ & Hthrows).
    by rewrite (Hquiet listener actions Hin) in Hthrows.
  - intros listener thrown actions Hthrows Hready.
    set (r := foldl _ initial attempts) in *.
    unfold warmZigAssets. cbv zeta. rewrite Hthrows, Hready. cbn [fst snd].
    split_and!; [done| |done]. simpl. apply elem_of_union. left.
    by apply elem_of_singleton.
Qed.

Lemma warm_attempts_stay_settled_witness :
  listeners
    (foldl (λ r attempt, (warmZigAssets attempt.1 attempt.2 r).2) initial
       [(Some quietListener, zlsOffline); (None, λ _, Normal ())])
  = ∅
  ∧ listenerId throwingListener
    ∈ listeners
        (warmZigAssets (Some throwingListener) zlsOffline
           (foldl (λ r attempt, (warmZigAssets attempt.1 attempt.2 r).2) initial
              [(Some quietListener, zlsOffline)])).2.
Proof.
  split.
  - refine (proj1 (proj2 (proj2 (warm_attempts_stay_settled
              [(Some quietListener, zlsOffline); (None, λ _, Normal ())]))) _).
    intros listener actions Hin.
    apply elem_of_cons in Hin as [Heq|Hin]; [by inversion Heq|].
    apply list_elem_of_singleton in Hin. by inversion Hin.
  - refine (proj1 (proj2 (proj2 (proj2 (proj2 (warm_attempts_stay_settled
              [(Some quietListener, zlsOffline)])))
              throwingListener (ThrownValue (js "render failed")) zlsOffline _ _))).
    + reflexivity.
    + vm_compute. reflexivity.
Defined.

(** X19. A warm-up call that passes a listener first hands it the snapshot
    as it is at the call, and the last payload handed out when the call
    settles, normally, by a failed fetch or by the listener throwing, is
    the snapshot the registry then holds; payloads handed out earlier are
    kept. *)
Theorem listener_sees_final_snapshot (listener : Listener)
    (actions : AssetKey → Completion unit) r :
  let r' := (warmZigAssets (Some listener) actions r).2 in
  (∃ rest, emitted r' = emitted r ++ snapshot r :: rest)
  ∧ last (emitted r') = Some (snapshot r').
Proof.
  cbv zeta. unfold warmZigAssets. cbv zeta.
  destruct (throws listener) as [thrown|];
    destruct (areAllAssetsReady (snapshot r)) eqn:Hready; cbn [snd];
    try (split; [by exists []|]; simpl; by rewrite last_snoc).
  set (r0 := callListener (addListener listener r)).
  assert (synced r0) as Hsync.
  { split; [|simpl; by rewrite last_snoc].
    simpl. intros Hempty.
    assert (listenerId listener ∈ ({[listenerId listener]} ∪ listeners r : gset nat))
      as Hin by (apply elem_of_union; left; by apply elem_of_singleton).
    rewrite Hempty in Hin. by apply not_elem_of_empty in Hin. }
  pose proof (runWarmSequence_extends actions r0) as (_ & [rest Hrest] & Hs).
  destruct (Hs Hsync) as [_ Hlast].
  destruct (runWarmSequence actions r0) as [result r']; cbn [fst snd] in *.
  split; [|done]. exists rest. simpl. rewrite Hrest. simpl. by rewrite <- app_assoc.
Qed.

End WarmUp.
